(** * Streaming agent server: frame protocol, transport, confirmation queue,
      agent wrapper and stream handler.

    A shallow embedding of the TypeScript sources

    - [codex-api/src/types/protocol.ts]           (module [Protocol]),
    - [codex-api/src/server/transport/http2.ts]   (module [Transport]),
    - [codex-api/src/core/confirmation-queue.ts]  (module [Queue]),
    - [codex-api/src/core/agent-wrapper.ts]       (module [Wrapper]),
    - [codex-api/src/server/routes/agent.ts]      (module [Handler]),

    together with the properties the specification states about them.

    Conventions.  A JavaScript string is a [string]; one character stands
    for one code unit.  A [Buffer] is a [list ascii] (one character per
    octet).  JavaScript numbers that occur in frames are integers, held in
    [Z].  A JavaScript object is the list of its members in insertion
    order, without repeated keys ([wf_jsval]).  Code that suspends at an
    [await] is cut at the suspension points: each synchronous section is
    one function on the state, and the run-time (timers, promises, abort
    controllers, the engine) drives them through events. *)

From Stdlib Require Import ZArith NArith Ascii String DecimalString DecimalZ.
From stdpp Require Import base list strings.
From Equations Require Import Equations.

#[local] Open Scope string_scope.
#[local] Open Scope list_scope.
#[local] Set Warnings "-register-all".

(* ===================================================================== *)
(** * JavaScript values and the JSON built-ins                            *)
(* ===================================================================== *)

Module Js.

(** The JSON-serialisable values. *)
Inductive jsval : Type :=
| JNull
| JBool (b : bool)
| JNum (n : Z)
| JStr (s : string)
| JArr (elems : list jsval)
| JObj (members : list (string * jsval)).

(** [obj[k]]: [None] is [undefined]. *)
Fixpoint js_get (k : string) (o : list (string * jsval)) : option jsval :=
  match o with
  | [] => None
  | (k', v) :: o' => if String.eqb k k' then Some v else js_get k o'
  end.

Definition js_has (k : string) (o : list (string * jsval)) : bool :=
  match js_get k o with Some _ => true | None => false end.

(** [obj[k] = v]: an existing key keeps its place, a new one goes last. *)
Fixpoint js_set (k : string) (v : jsval) (o : list (string * jsval))
  : list (string * jsval) :=
  match o with
  | [] => [(k, v)]
  | (k', v') :: o' =>
      if String.eqb k k' then (k, v) :: o' else (k', v') :: js_set k v o'
  end.

Definition js_object_of (ms : list (string * jsval)) : list (string * jsval) :=
  fold_left (fun o kv => js_set (fst kv) (snd kv) o) ms [].

(** No key occurs twice. *)
Fixpoint distinct_keys (o : list (string * jsval)) : bool :=
  match o with
  | [] => true
  | (k, _) :: o' => negb (js_has k o') && distinct_keys o'
  end.

Fixpoint wf_jsval (v : jsval) : bool :=
  match v with
  | JArr l => forallb wf_jsval l
  | JObj o =>
      distinct_keys o &&
      (fix go (ms : list (string * jsval)) : bool :=
         match ms with
         | [] => true
         | (_, x) :: ms' => wf_jsval x && go ms'
         end) o
  | _ => true
  end.

Definition wf_members (o : list (string * jsval)) : bool := wf_jsval (JObj o).

(** ** [JSON.stringify] *)

(** The double quote. *)
Definition dquote : ascii := ascii_of_N 34.

Definition hex_digit (n : N) : ascii :=
  if (n <? 10)%N then ascii_of_N (48 + n) else ascii_of_N (87 + n).

(** The escape of one code unit inside a string literal. *)
Definition escape_char (c : ascii) : list ascii :=
  let n := N_of_ascii c in
  if (n =? 34)%N then ["\"%char; dquote]
  else if (n =? 92)%N then ["\"; "\"]%char
  else if (n =? 8)%N then ["\"; "b"]%char
  else if (n =? 12)%N then ["\"; "f"]%char
  else if (n =? 10)%N then ["\"; "n"]%char
  else if (n =? 13)%N then ["\"; "r"]%char
  else if (n =? 9)%N then ["\"; "t"]%char
  else if (n <? 32)%N then
    ["\"; "u"; "0"; "0"; hex_digit (n / 16); hex_digit (n mod 16)]%char
  else [c].

Definition quote (s : string) : list ascii :=
  dquote :: flat_map escape_char (list_ascii_of_string s) ++ [dquote].

Definition print_number (n : Z) : list ascii :=
  list_ascii_of_string (NilZero.string_of_int (Z.to_int n)).

Fixpoint print (v : jsval) : list ascii :=
  match v with
  | JNull => list_ascii_of_string "null"
  | JBool true => list_ascii_of_string "true"
  | JBool false => list_ascii_of_string "false"
  | JNum n => print_number n
  | JStr s => quote s
  | JArr l =>
      "["%char ::
      (fix elems (l : list jsval) : list ascii :=
         match l with
         | [] => []
         | [x] => print x
         | x :: l' => print x ++ ","%char :: elems l'
         end) l ++ ["]"%char]
  | JObj o =>
      "{"%char ::
      (fix members (o : list (string * jsval)) : list ascii :=
         match o with
         | [] => []
         | [(k, x)] => quote k ++ ":"%char :: print x
         | (k, x) :: o' => quote k ++ ":"%char :: print x ++ ","%char :: members o'
         end) o ++ ["}"%char]
  end.

Definition JSON_stringify (v : jsval) : string :=
  string_of_list_ascii (print v).

(** ** [JSON.parse] *)

Definition is_ws (c : ascii) : bool :=
  let n := N_of_ascii c in
  (n =? 32)%N || (n =? 9)%N || (n =? 10)%N || (n =? 13)%N.

Fixpoint skip_ws (s : list ascii) : list ascii :=
  match s with
  | c :: s' => if is_ws c then skip_ws s' else s
  | [] => []
  end.

Definition hex_value (c : ascii) : option N :=
  let n := N_of_ascii c in
  if (48 <=? n)%N && (n <=? 57)%N then Some (n - 48)%N
  else if (97 <=? n)%N && (n <=? 102)%N then Some (n - 87)%N
  else if (65 <=? n)%N && (n <=? 70)%N then Some (n - 55)%N
  else None.

(** A [\uXXXX] escape; only code units below 256 fit a character. *)
Definition unicode_escape (a b c d : ascii) : option ascii :=
  match hex_value a, hex_value b, hex_value c, hex_value d with
  | Some 0%N, Some 0%N, Some x, Some y => Some (ascii_of_N (16 * x + y))
  | _, _, _, _ => None
  end.

(** The rest of a string literal, after its opening quote. *)
Fixpoint parse_string_body (s : list ascii) : option (list ascii * list ascii) :=
  match s with
  | [] => None
  | c :: r =>
      if Ascii.eqb c dquote then Some ([], r)
      else if Ascii.eqb c "\" then
        match r with
        | e :: r1 =>
            let simple (x : ascii) :=
              match parse_string_body r1 with
              | Some (cs, rest) => Some (x :: cs, rest)
              | None => None
              end in
            if Ascii.eqb e dquote then simple dquote
            else if Ascii.eqb e "\" then simple "\"%char
            else if Ascii.eqb e "/" then simple "/"%char
            else if Ascii.eqb e "b" then simple (ascii_of_N 8)
            else if Ascii.eqb e "f" then simple (ascii_of_N 12)
            else if Ascii.eqb e "n" then simple (ascii_of_N 10)
            else if Ascii.eqb e "r" then simple (ascii_of_N 13)
            else if Ascii.eqb e "t" then simple (ascii_of_N 9)
            else if Ascii.eqb e "u" then
              match r1 with
              | h1 :: h2 :: h3 :: h4 :: r2 =>
                  match unicode_escape h1 h2 h3 h4, parse_string_body r2 with
                  | Some x, Some (cs, rest) => Some (x :: cs, rest)
                  | _, _ => None
                  end
              | _ => None
              end
            else None
        | [] => None
        end
      else if (N_of_ascii c <? 32)%N then None
      else
        match parse_string_body r with
        | Some (cs, rest) => Some (c :: cs, rest)
        | None => None
        end
  end.

Definition is_numchar (c : ascii) : bool :=
  let n := N_of_ascii c in
  (n =? 45)%N || ((48 <=? n)%N && (n <=? 57)%N).

Fixpoint span_num (s : list ascii) : list ascii * list ascii :=
  match s with
  | c :: s' =>
      if is_numchar c then let '(a, b) := span_num s' in (c :: a, b)
      else ([], s)
  | [] => ([], [])
  end.

(** An integer literal, in the one spelling [JSON.stringify] gives it. *)
Definition parse_number (s : list ascii) : option (Z * list ascii) :=
  let '(lexeme, rest) := span_num s in
  match NilZero.int_of_string (string_of_list_ascii lexeme) with
  | Some d =>
      let n := Z.of_int d in
      if decide (print_number n = lexeme) then Some (n, rest) else None
  | None => None
  end.

Fixpoint parse_value (fuel : nat) (s : list ascii) : option (jsval * list ascii) :=
  match fuel with
  | O => None
  | S fuel =>
      match skip_ws s with
      | [] => None
      | c :: r =>
          if Ascii.eqb c "n" then
            match r with
            | "u" :: "l" :: "l" :: r' => Some (JNull, r')
            | _ => None
            end%char
          else if Ascii.eqb c "t" then
            match r with
            | "r" :: "u" :: "e" :: r' => Some (JBool true, r')
            | _ => None
            end%char
          else if Ascii.eqb c "f" then
            match r with
            | "a" :: "l" :: "s" :: "e" :: r' => Some (JBool false, r')
            | _ => None
            end%char
          else if Ascii.eqb c dquote then
            match parse_string_body r with
            | Some (cs, r') => Some (JStr (string_of_list_ascii cs), r')
            | None => None
            end
          else if Ascii.eqb c "[" then
            match skip_ws r with
            | c' :: r' =>
                if Ascii.eqb c' "]" then Some (JArr [], r')
                else
                  match parse_elements fuel r with
                  | Some (l, r'') => Some (JArr l, r'')
                  | None => None
                  end
            | [] => None
            end
          else if Ascii.eqb c "{" then
            match skip_ws r with
            | c' :: r' =>
                if Ascii.eqb c' "}" then Some (JObj [], r')
                else
                  match parse_members fuel r with
                  | Some (ms, r'') => Some (JObj (js_object_of ms), r'')
                  | None => None
                  end
            | [] => None
            end
          else if is_numchar c then
            match parse_number (c :: r) with
            | Some (n, r') => Some (JNum n, r')
            | None => None
            end
          else None
      end
  end
with parse_elements (fuel : nat) (s : list ascii)
  : option (list jsval * list ascii) :=
  match fuel with
  | O => None
  | S fuel =>
      match parse_value fuel s with
      | Some (v, r) =>
          match skip_ws r with
          | c :: r' =>
              if Ascii.eqb c "," then
                match parse_elements fuel r' with
                | Some (vs, r'') => Some (v :: vs, r'')
                | None => None
                end
              else if Ascii.eqb c "]" then Some ([v], r')
              else None
          | [] => None
          end
      | None => None
      end
  end
with parse_members (fuel : nat) (s : list ascii)
  : option (list (string * jsval) * list ascii) :=
  match fuel with
  | O => None
  | S fuel =>
      match skip_ws s with
      | q :: r0 =>
          if Ascii.eqb q dquote then
            match parse_string_body r0 with
            | Some (k, r1) =>
                match skip_ws r1 with
                | c1 :: r2 =>
                    if Ascii.eqb c1 ":" then
                      match parse_value fuel r2 with
                      | Some (v, r3) =>
                          match skip_ws r3 with
                          | c :: r4 =>
                              if Ascii.eqb c "," then
                                match parse_members fuel r4 with
                                | Some (ms, r5) =>
                                    Some ((string_of_list_ascii k, v) :: ms, r5)
                                | None => None
                                end
                              else if Ascii.eqb c "}" then
                                Some ([(string_of_list_ascii k, v)], r4)
                              else None
                          | [] => None
                          end
                      | None => None
                      end
                    else None
                | [] => None
                end
            | None => None
            end
          else None
      | [] => None
      end
  end.

(** [JSON.parse]: [None] is the [SyntaxError].  The texts read are those
    of the values above: numbers are integer literals, and an escape
    names a code unit that fits a character. *)
Definition JSON_parse (s : string) : option jsval :=
  let cs := list_ascii_of_string s in
  match parse_value (S (length cs)) cs with
  | Some (v, rest) =>
      match skip_ws rest with
      | [] => Some v
      | _ :: _ => None
      end
  | None => None
  end.

End Js.

(* ===================================================================== *)
(** * The frame protocol ([types/protocol.ts])                            *)
(* ===================================================================== *)

Module Protocol.
Import Js.

(** One validation issue: its code and the path of the offending key. *)
Record ZodIssue := { issue_code : string; issue_path : list string }.

(** What [encode...]/[decode...] throw. *)
Inductive Error :=
| SyntaxError
| ZodError (issues : list ZodIssue).

(** The [name] property of the thrown error object. *)
Definition error_name (e : Error) : string :=
  match e with
  | SyntaxError => "SyntaxError"
  | ZodError _ => "ZodError"
  end.

(** What the sources take from their libraries and from the run-time:
    the two string refinements of the schema library
    ([z.string().uuid()], [z.string().datetime()]), the [message] of a
    thrown error, and the UTF-8 conversions of [Buffer]. *)
Class Externals := {
  is_uuid : string -> bool;
  is_datetime : string -> bool;
  error_message : Error -> string;
  toString_utf8 : list ascii -> string;
  fromString_utf8 : string -> list ascii
}.

Definition Result (A : Type) : Type := Error + A.

(** The pattern of [z.string().uuid()]: 8-4-4-4-12 hexadecimal digits. *)
Definition hex_char (c : ascii) : bool :=
  let n := N_of_ascii c in
  ((48 <=? n)%N && (n <=? 57)%N) || ((97 <=? n)%N && (n <=? 102)%N)
  || ((65 <=? n)%N && (n <=? 70)%N).

Fixpoint uuid_shape (groups : list nat) (s : list ascii) : bool :=
  match groups with
  | [] => match s with [] => true | _ => false end
  | n :: groups' =>
      forallb hex_char (take n s) && (length (take n s) =? n)%nat &&
      match groups', drop n s with
      | [], [] => true
      | _ :: _, c :: s' => Ascii.eqb c "-" && uuid_shape groups' s'
      | _, _ => false
      end
  end.

(** An instance for closed examples: characters are octets, and a date
    is taken for valid when it ends in [Z]. *)
Definition sample_externals : Externals :=
  {| is_uuid := fun s => uuid_shape [8; 4; 4; 4; 12] (list_ascii_of_string s);
     is_datetime := fun s =>
       match rev (list_ascii_of_string s) with
       | c :: _ => Ascii.eqb c "Z"
       | [] => false
       end;
     error_message := fun e =>
       match e with
       | SyntaxError => "Unexpected token in JSON"
       | ZodError _ => "Invalid input"
       end;
     toString_utf8 := string_of_list_ascii;
     fromString_utf8 := list_ascii_of_string |}.
Definition zres (A : Type) : Type := list ZodIssue + A.

Definition zbind {A B} (m : zres A) (k : A -> zres B) : zres B :=
  match m with
  | inl e => inl e
  | inr a => k a
  end.

Notation "'let*' x := m 'in' k" := (zbind m (fun x => k))
  (at level 10, x name, m at level 100, k at level 200).

Definition issue {A} (code : string) (path : list string) : zres A :=
  inl [{| issue_code := code; issue_path := path |}].

(** ** Frame types *)

Inductive ApprovalPolicy := suggest | auto_edit | full_auto.
Inductive Decision := allow | deny.

Record ConfigOverrides := {
  co_model : option string;
  co_approvalPolicy : option ApprovalPolicy
}.

Record UserMessageFrame := {
  um_id : option string;
  um_sessionId : option string;
  um_content : string;
  um_imagePaths : option (list string);
  um_configOverrides : option ConfigOverrides
}.

Record ApproveFrame := {
  ap_id : option string;
  ap_sessionId : string;
  ap_commandId : string;
  ap_decision : Decision;
  ap_explanation : option string
}.

Record CancelFrame := {
  ca_id : option string;
  ca_sessionId : string
}.

Inductive ClientFrame :=
| user_message (f : UserMessageFrame)
| approve (f : ApproveFrame)
| cancel (f : CancelFrame).

Record ItemFrame := {
  it_id : option string;
  it_responseItem : option jsval
}.

Record CommandPromptFrame := {
  cp_id : option string;
  cp_commandId : string;
  cp_command : list string;
  cp_applyPatch : option jsval;
  cp_explanation : option string
}.

Record StatusFrame := {
  st_id : option string;
  st_message : string;
  st_details : option (list (string * jsval))
}.

Record ErrorFrame := {
  er_id : option string;
  er_message : string;
  er_code : option string;
  er_retryable : option bool;
  er_details : option (list (string * jsval))
}.

Record HeartbeatFrame := {
  hb_id : option string;
  hb_timestamp : string
}.

Record TerminateFrame := {
  te_id : option string;
  te_reason : string;
  te_details : option (list (string * jsval))
}.

Inductive ServerFrame :=
| item (f : ItemFrame)
| command_prompt (f : CommandPromptFrame)
| status (f : StatusFrame)
| error (f : ErrorFrame)
| heartbeat (f : HeartbeatFrame)
| terminate (f : TerminateFrame).

(** The [type] discriminator. *)
Definition client_type (f : ClientFrame) : string :=
  match f with
  | user_message _ => "user_message"
  | approve _ => "approve"
  | cancel _ => "cancel"
  end.

Definition server_type (f : ServerFrame) : string :=
  match f with
  | item _ => "item"
  | command_prompt _ => "command_prompt"
  | status _ => "status"
  | error _ => "error"
  | heartbeat _ => "heartbeat"
  | terminate _ => "terminate"
  end.

(** ** Frames as JavaScript objects: a key that is [undefined] is left out *)

Definition field {A} (k : string) (f : A -> jsval) (o : option A)
  : list (string * jsval) :=
  match o with
  | Some a => [(k, f a)]
  | None => []
  end.

Definition policy_name (p : ApprovalPolicy) : string :=
  match p with
  | suggest => "suggest"
  | auto_edit => "auto-edit"
  | full_auto => "full-auto"
  end.

Definition decision_name (d : Decision) : string :=
  match d with allow => "allow" | deny => "deny" end.

Definition strings_to_js (l : list string) : jsval := JArr (map JStr l).

Definition ConfigOverrides_to_js (c : ConfigOverrides) : jsval :=
  JObj (field "model" JStr (co_model c) ++
        field "approvalPolicy" (fun p => JStr (policy_name p)) (co_approvalPolicy c)).

Definition ClientFrame_to_js (f : ClientFrame) : jsval :=
  match f with
  | user_message m =>
      JObj (field "id" JStr (um_id m) ++
            [("type", JStr "user_message")] ++
            field "sessionId" JStr (um_sessionId m) ++
            [("content", JStr (um_content m))] ++
            field "imagePaths" strings_to_js (um_imagePaths m) ++
            field "configOverrides" ConfigOverrides_to_js (um_configOverrides m))
  | approve a =>
      JObj (field "id" JStr (ap_id a) ++
            [("type", JStr "approve");
             ("sessionId", JStr (ap_sessionId a));
             ("commandId", JStr (ap_commandId a));
             ("decision", JStr (decision_name (ap_decision a)))] ++
            field "explanation" JStr (ap_explanation a))
  | cancel c =>
      JObj (field "id" JStr (ca_id c) ++
            [("type", JStr "cancel");
             ("sessionId", JStr (ca_sessionId c))])
  end.

Definition ServerFrame_to_js (f : ServerFrame) : jsval :=
  match f with
  | item i =>
      JObj (field "id" JStr (it_id i) ++
            [("type", JStr "item")] ++
            field "responseItem" id (it_responseItem i))
  | command_prompt c =>
      JObj (field "id" JStr (cp_id c) ++
            [("type", JStr "command_prompt");
             ("commandId", JStr (cp_commandId c));
             ("command", strings_to_js (cp_command c))] ++
            field "applyPatch" id (cp_applyPatch c) ++
            field "explanation" JStr (cp_explanation c))
  | status s =>
      JObj (field "id" JStr (st_id s) ++
            [("type", JStr "status");
             ("message", JStr (st_message s))] ++
            field "details" JObj (st_details s))
  | error e =>
      JObj (field "id" JStr (er_id e) ++
            [("type", JStr "error");
             ("message", JStr (er_message e))] ++
            field "code" JStr (er_code e) ++
            field "retryable" JBool (er_retryable e) ++
            field "details" JObj (er_details e))
  | heartbeat h =>
      JObj (field "id" JStr (hb_id h) ++
            [("type", JStr "heartbeat");
             ("timestamp", JStr (hb_timestamp h))])
  | terminate t =>
      JObj (field "id" JStr (te_id t) ++
            [("type", JStr "terminate");
             ("reason", JStr (te_reason t))] ++
            field "details" JObj (te_details t))
  end.

(** The opaque parts of a server frame are JavaScript values. *)
Definition wf_server (f : ServerFrame) : bool :=
  let wf_opt (o : option jsval) :=
    match o with Some v => wf_jsval v | None => true end in
  let wf_det (o : option (list (string * jsval))) :=
    match o with Some d => wf_members d | None => true end in
  match f with
  | item i => wf_opt (it_responseItem i)
  | command_prompt c => wf_opt (cp_applyPatch c)
  | status s => wf_det (st_details s)
  | error e => wf_det (er_details e)
  | heartbeat _ => true
  | terminate t => wf_det (te_details t)
  end.

Section Schemas.
Context `{Externals}.

(** ** The schema combinators that the protocol uses

    Each takes the value found under a key ([None] when the key is
    absent) and the key, for the issue's path. *)

Definition z_string (k : string) (v : option jsval) : zres string :=
  match v with
  | Some (JStr s) => inr s
  | _ => issue "invalid_type" [k]
  end.

Definition z_optional {A} (p : string -> option jsval -> zres A)
  (k : string) (v : option jsval) : zres (option A) :=
  match v with
  | None => inr None
  | Some _ => let* a := p k v in inr (Some a)
  end.

Definition z_uuid (k : string) (v : option jsval) : zres string :=
  let* s := z_string k v in
  if is_uuid s then inr s else issue "invalid_string" [k].

Definition z_datetime (k : string) (v : option jsval) : zres string :=
  let* s := z_string k v in
  if is_datetime s then inr s else issue "invalid_string" [k].

Definition z_literal (lit : string) (k : string) (v : option jsval) : zres unit :=
  match v with
  | Some (JStr s) => if String.eqb s lit then inr tt else issue "invalid_literal" [k]
  | _ => issue "invalid_literal" [k]
  end.

Definition z_boolean (k : string) (v : option jsval) : zres bool :=
  match v with
  | Some (JBool b) => inr b
  | _ => issue "invalid_type" [k]
  end.

Fixpoint all_strings (l : list jsval) : option (list string) :=
  match l with
  | [] => Some []
  | JStr s :: l' =>
      match all_strings l' with
      | Some ss => Some (s :: ss)
      | None => None
      end
  | _ :: _ => None
  end.

Definition z_string_array (k : string) (v : option jsval) : zres (list string) :=
  match v with
  | Some (JArr l) =>
      match all_strings l with
      | Some ss => inr ss
      | None => issue "invalid_type" [k]
      end
  | _ => issue "invalid_type" [k]
  end.

Definition z_policy (k : string) (v : option jsval) : zres ApprovalPolicy :=
  match v with
  | Some (JStr s) =>
      if String.eqb s "suggest" then inr suggest
      else if String.eqb s "auto-edit" then inr auto_edit
      else if String.eqb s "full-auto" then inr full_auto
      else issue "invalid_enum_value" [k]
  | _ => issue "invalid_type" [k]
  end.

Definition z_decision (k : string) (v : option jsval) : zres Decision :=
  match v with
  | Some (JStr s) =>
      if String.eqb s "allow" then inr allow
      else if String.eqb s "deny" then inr deny
      else issue "invalid_enum_value" [k]
  | _ => issue "invalid_type" [k]
  end.

(** [z.any()]: every value, and [undefined]. *)
Definition z_any (k : string) (v : option jsval) : zres (option jsval) := inr v.

(** [z.record(z.unknown())]: an object, whatever its members; the
    object that the parser returns has every member but an own key
    [__proto__], which it leaves out. *)
Definition own_proto (member : string * jsval) : bool :=
  String.eqb (fst member) "__proto__".

Definition z_record (k : string) (v : option jsval) : zres (list (string * jsval)) :=
  match v with
  | Some (JObj o) => inr (List.filter (fun member => negb (own_proto member)) o)
  | _ => issue "invalid_type" [k]
  end.

(** [z.object({...})] reads the keys of its shape and drops the others. *)
Definition z_object {A} (v : jsval) (shape : list (string * jsval) -> zres A) : zres A :=
  match v with
  | JObj o => shape o
  | _ => issue "invalid_type" []
  end.

Definition at_key {A} (p : string -> option jsval -> zres A)
  (k : string) (o : list (string * jsval)) : zres A :=
  p k (js_get k o).

Definition z_configOverrides (k : string) (v : option jsval) : zres ConfigOverrides :=
  match v with
  | Some (JObj o) =>
      let* m := at_key (z_optional z_string) "model" o in
      let* p := at_key (z_optional z_policy) "approvalPolicy" o in
      inr {| co_model := m; co_approvalPolicy := p |}
  | _ => issue "invalid_type" [k]
  end.

(** ** The frame schemas, key by key in the order of their shape *)

Definition UserMessageFrameSchema (v : jsval) : zres UserMessageFrame :=
  z_object v (fun o =>
    let* i := at_key (z_optional z_uuid) "id" o in
    let* _ := at_key (z_literal "user_message") "type" o in
    let* s := at_key (z_optional z_string) "sessionId" o in
    let* c := at_key z_string "content" o in
    let* p := at_key (z_optional z_string_array) "imagePaths" o in
    let* g := at_key (z_optional z_configOverrides) "configOverrides" o in
    inr {| um_id := i; um_sessionId := s; um_content := c;
           um_imagePaths := p; um_configOverrides := g |}).

Definition ApproveFrameSchema (v : jsval) : zres ApproveFrame :=
  z_object v (fun o =>
    let* i := at_key (z_optional z_uuid) "id" o in
    let* _ := at_key (z_literal "approve") "type" o in
    let* s := at_key z_string "sessionId" o in
    let* c := at_key z_string "commandId" o in
    let* d := at_key z_decision "decision" o in
    let* e := at_key (z_optional z_string) "explanation" o in
    inr {| ap_id := i; ap_sessionId := s; ap_commandId := c;
           ap_decision := d; ap_explanation := e |}).

Definition CancelFrameSchema (v : jsval) : zres CancelFrame :=
  z_object v (fun o =>
    let* i := at_key (z_optional z_uuid) "id" o in
    let* _ := at_key (z_literal "cancel") "type" o in
    let* s := at_key z_string "sessionId" o in
    inr {| ca_id := i; ca_sessionId := s |}).

Definition ItemFrameSchema (v : jsval) : zres ItemFrame :=
  z_object v (fun o =>
    let* i := at_key (z_optional z_uuid) "id" o in
    let* _ := at_key (z_literal "item") "type" o in
    let* r := at_key z_any "responseItem" o in
    inr {| it_id := i; it_responseItem := r |}).

Definition CommandPromptFrameSchema (v : jsval) : zres CommandPromptFrame :=
  z_object v (fun o =>
    let* i := at_key (z_optional z_uuid) "id" o in
    let* _ := at_key (z_literal "command_prompt") "type" o in
    let* c := at_key z_string "commandId" o in
    let* l := at_key z_string_array "command" o in
    let* a := at_key z_any "applyPatch" o in
    let* e := at_key (z_optional z_string) "explanation" o in
    inr {| cp_id := i; cp_commandId := c; cp_command := l;
           cp_applyPatch := a; cp_explanation := e |}).

Definition StatusFrameSchema (v : jsval) : zres StatusFrame :=
  z_object v (fun o =>
    let* i := at_key (z_optional z_uuid) "id" o in
    let* _ := at_key (z_literal "status") "type" o in
    let* m := at_key z_string "message" o in
    let* d := at_key (z_optional z_record) "details" o in
    inr {| st_id := i; st_message := m; st_details := d |}).

Definition ErrorFrameSchema (v : jsval) : zres ErrorFrame :=
  z_object v (fun o =>
    let* i := at_key (z_optional z_uuid) "id" o in
    let* _ := at_key (z_literal "error") "type" o in
    let* m := at_key z_string "message" o in
    let* c := at_key (z_optional z_string) "code" o in
    let* r := at_key (z_optional z_boolean) "retryable" o in
    let* d := at_key (z_optional z_record) "details" o in
    inr {| er_id := i; er_message := m; er_code := c;
           er_retryable := r; er_details := d |}).

Definition HeartbeatFrameSchema (v : jsval) : zres HeartbeatFrame :=
  z_object v (fun o =>
    let* i := at_key (z_optional z_uuid) "id" o in
    let* _ := at_key (z_literal "heartbeat") "type" o in
    let* t := at_key z_datetime "timestamp" o in
    inr {| hb_id := i; hb_timestamp := t |}).

Definition TerminateFrameSchema (v : jsval) : zres TerminateFrame :=
  z_object v (fun o =>
    let* i := at_key (z_optional z_uuid) "id" o in
    let* _ := at_key (z_literal "terminate") "type" o in
    let* r := at_key z_string "reason" o in
    let* d := at_key (z_optional z_record) "details" o in
    inr {| te_id := i; te_reason := r; te_details := d |}).

(** [z.union([...])]: the first member that accepts the value; when none
    does, one [invalid_union] issue. *)
Fixpoint z_union {A} (members : list (jsval -> zres A)) (v : jsval) : zres A :=
  match members with
  | [] => issue "invalid_union" []
  | m :: ms =>
      match m v with
      | inr a => inr a
      | inl _ => z_union ms v
      end
  end.

Definition lift {A B} (c : A -> B) (p : jsval -> zres A) (v : jsval) : zres B :=
  let* a := p v in inr (c a).

Definition ClientFrameSchema : jsval -> zres ClientFrame :=
  z_union [lift user_message UserMessageFrameSchema;
           lift approve ApproveFrameSchema;
           lift cancel CancelFrameSchema].

Definition ServerFrameSchema : jsval -> zres ServerFrame :=
  z_union [lift item ItemFrameSchema;
           lift command_prompt CommandPromptFrameSchema;
           lift status StatusFrameSchema;
           lift error ErrorFrameSchema;
           lift heartbeat HeartbeatFrameSchema;
           lift terminate TerminateFrameSchema].

(** [Schema.parse(x)]: the value, or a thrown [ZodError]. *)
Definition schema_parse {A} (schema : jsval -> zres A) (v : jsval) : Result A :=
  match schema v with
  | inr a => inr a
  | inl issues => inl (ZodError issues)
  end.

(** ** The four helpers *)

Definition encodeClientFrame (obj : ClientFrame) : Result string :=
  match schema_parse ClientFrameSchema (ClientFrame_to_js obj) with
  | inr f => inr (JSON_stringify (ClientFrame_to_js f))
  | inl e => inl e
  end.

Definition decodeClientFrame (jsonString : string) : Result ClientFrame :=
  match JSON_parse jsonString with
  | Some v => schema_parse ClientFrameSchema v
  | None => inl SyntaxError
  end.

Definition encodeServerFrame (obj : ServerFrame) : Result string :=
  match schema_parse ServerFrameSchema (ServerFrame_to_js obj) with
  | inr f => inr (JSON_stringify (ServerFrame_to_js f))
  | inl e => inl e
  end.

Definition decodeServerFrame (jsonString : string) : Result ServerFrame :=
  match JSON_parse jsonString with
  | Some v => schema_parse ServerFrameSchema v
  | None => inl SyntaxError
  end.

End Schemas.
End Protocol.

(* ===================================================================== *)
(** * The stream transport ([server/transport/http2.ts])                  *)
(* ===================================================================== *)

Module Transport.
Import Js Protocol.

Definition HEARTBEAT_INTERVAL_MS : N := 30 * 1000.
Definition NDJSON_CONTENT_TYPE : string := "application/x-ndjson".
Definition LENGTH_PREFIXED_JSON_CONTENT_TYPE : string :=
  "application/length-prefixed-json".

Definition Buffer : Type := list ascii.

(** [buffer.readUInt32BE(0)], for a buffer of four octets at least. *)
Definition readUInt32BE (b : Buffer) : nat :=
  match b with
  | b0 :: b1 :: b2 :: b3 :: _ =>
      N.to_nat (((N_of_ascii b0 * 256 + N_of_ascii b1) * 256
                 + N_of_ascii b2) * 256 + N_of_ascii b3)
  | _ => 0
  end.

(** [Buffer.alloc(4)] after [writeUInt32BE(n, 0)]; a [RangeError] when
    [n] does not fit. *)
Definition writeUInt32BE (n : N) : option Buffer :=
  if (n <? 4294967296)%N then
    Some [ascii_of_N (n / 16777216);
          ascii_of_N ((n / 65536) mod 256);
          ascii_of_N ((n / 256) mod 256);
          ascii_of_N (n mod 256)]
  else None.

(** [buffer.indexOf(c)]: [None] is [-1]. *)
Fixpoint indexOf (c : ascii) (b : Buffer) : option nat :=
  match b with
  | [] => None
  | x :: b' => if Ascii.eqb x c then Some 0 else option_map S (indexOf c b')
  end.

Definition newline : ascii := ascii_of_N 10.

(** The white space that [String.prototype.trim] removes, among the code
    units a character holds. *)
Definition is_js_space (c : ascii) : bool :=
  let n := N_of_ascii c in
  ((9 <=? n)%N && (n <=? 13)%N) || (n =? 32)%N || (n =? 160)%N.

(** Whether [line.trim()] is the empty string. *)
Definition trim_is_empty (line : string) : bool :=
  forallb is_js_space (list_ascii_of_string line).

(** ** [readFrames] *)

(** The three locals of the generator. *)
Record Reader := {
  buffer : Buffer;
  readingLength : bool;
  expectedLength : nat
}.

Definition reader0 : Reader :=
  {| buffer := []; readingLength := true; expectedLength := 0 |}.

(** One pass through the body of a [while] loop: the loop is left
    ([Break]), or a message was cut off the buffer ([Cut]). *)
Inductive Iter :=
| Break (r : Reader)
| Cut (message : Buffer) (r : Reader).

Definition take_message (r : Reader) : Iter :=
  if decide (expectedLength r <= length (buffer r)) then
    Cut (take (expectedLength r) (buffer r))
        {| buffer := drop (expectedLength r) (buffer r);
           readingLength := true;
           expectedLength := expectedLength r |}
  else Break r.

Definition lp_iter (r : Reader) : Iter :=
  if decide (length (buffer r) = 0) then Break r
  else if readingLength r then
    if decide (4 <= length (buffer r)) then
      take_message {| buffer := drop 4 (buffer r);
                      readingLength := false;
                      expectedLength := readUInt32BE (buffer r) |}
    else Break r
  else take_message r.

Definition nd_iter (r : Reader) : Iter :=
  match indexOf newline (buffer r) with
  | Some newlineIndex =>
      Cut (take newlineIndex (buffer r))
          {| buffer := drop (S newlineIndex) (buffer r);
             readingLength := readingLength r;
             expectedLength := expectedLength r |}
  | None => Break r
  end.

Definition inspect {A} (a : A) : {b : A | a = b} := exist _ a eq_refl.

Definition weight (r : Reader) : nat :=
  2 * length (buffer r) + (if readingLength r then 0 else 1).

Lemma lp_iter_weight r m r' : lp_iter r = Cut m r' -> weight r' < weight r.
Proof.
  unfold lp_iter, take_message, weight.
  repeat case_decide; destruct (readingLength r) eqn:E;
    intros [= <- <-]; cbn [buffer readingLength expectedLength];
    rewrite ?length_drop; lia.
Qed.

Lemma indexOf_lt c b i : indexOf c b = Some i -> i < length b.
Proof.
  revert i. induction b as [|x b IH]; intros i; cbn; [discriminate|].
  destruct (Ascii.eqb x c); [intros [= <-]; lia|].
  destruct (indexOf c b) as [j|]; cbn; [|discriminate].
  intros [= <-]. specialize (IH j eq_refl). lia.
Qed.

Lemma nd_iter_weight r m r' : nd_iter r = Cut m r' -> weight r' < weight r.
Proof.
  unfold nd_iter, weight. destruct (indexOf newline (buffer r)) as [i|] eqn:E;
    [|discriminate].
  apply indexOf_lt in E. intros [= <- <-]. cbn [buffer readingLength].
  rewrite length_drop. destruct (readingLength r); lia.
Qed.

Section Reading.
Context `{Externals}.

(** The inner [while] loop over the buffer.  It yields the frames it
    decodes and ends with the reader it leaves for the next chunk, or
    with the decoding error at which the generator returned. *)
Equations? lp_loop (r : Reader) : list ClientFrame * (Error + Reader)
  by wf (weight r) lt :=
lp_loop r with inspect (lp_iter r) := {
  | exist _ (Break r') E => ([], inr r')
  | exist _ (Cut messageBuffer r') E =>
      match decodeClientFrame (toString_utf8 messageBuffer) with
      | inr f => let '(fs, e) := lp_loop r' in (f :: fs, e)
      | inl err => ([], inl err)
      end }.
Proof. eapply lp_iter_weight; eassumption. Qed.

Equations? nd_loop (r : Reader) : list ClientFrame * (Error + Reader)
  by wf (weight r) lt :=
nd_loop r with inspect (nd_iter r) := {
  | exist _ (Break r') E => ([], inr r')
  | exist _ (Cut lineBuffer r') E =>
      let line := toString_utf8 lineBuffer in
      if trim_is_empty line then nd_loop r'
      else
        match decodeClientFrame line with
        | inr f => let '(fs, e) := nd_loop r' in (f :: fs, e)
        | inl err => ([], inl err)
        end }.
Proof. all: eapply nd_iter_weight; eassumption. Qed.

(** The body of [for await (const chunk of stream)]. *)
Definition on_chunk (useLengthPrefix : bool) (chunk : Buffer) (r : Reader)
  : list ClientFrame * (Error + Reader) :=
  let r1 := {| buffer := buffer r ++ chunk;
               readingLength := readingLength r;
               expectedLength := expectedLength r |} in
  if useLengthPrefix then lp_loop r1 else nd_loop r1.

Fixpoint on_chunks (useLengthPrefix : bool) (chunks : list Buffer) (r : Reader)
  : list ClientFrame * (Error + Reader) :=
  match chunks with
  | [] => ([], inr r)
  | chunk :: chunks' =>
      match on_chunk useLengthPrefix chunk r with
      | (fs, inr r') =>
          let '(fs', e) := on_chunks useLengthPrefix chunks' r' in
          (fs ++ fs', e)
      | (fs, inl err) => (fs, inl err)
      end
  end.

(** How the generator ends: the input is over, or a frame could not be
    decoded; then the generator has ended the stream with an error frame
    ([stream.end(encodeServerFrame({type: "error", ...}))]). *)
Inductive Ending :=
| EndOfInput
| DecodeFailed (err : Error).

(** What is left in the buffer when the input is over. *)
Definition last_line (useLengthPrefix : bool) (r : Reader) : list ClientFrame :=
  if decide (0 < length (buffer r)) then
    if useLengthPrefix then []
    else
      let line := toString_utf8 (buffer r) in
      if trim_is_empty line then []
      else
        match decodeClientFrame line with
        | inr f => [f]
        | inl _ => []
        end
  else [].

(** [readFrames]: the frames it yields, in order, and how it ends. *)
Definition readFrames (useLengthPrefix : bool) (chunks : list Buffer)
  : list ClientFrame * Ending :=
  match on_chunks useLengthPrefix chunks reader0 with
  | (fs, inr r) => (fs ++ last_line useLengthPrefix r, EndOfInput)
  | (fs, inl err) => (fs, DecodeFailed err)
  end.

(** The error frame the generator ends the stream with. *)
Definition decoding_error_frame (err : Error) : ServerFrame :=
  error {| er_id := None;
           er_message := "Frame decoding error: " +:+ error_message err;
           er_code := None; er_retryable := None; er_details := None |}.

End Reading.

(** ** The outbound side of the HTTP/2 stream *)

(** What reached the stream: a frame written by [writeFrame], with its
    octets, or data handed to [stream.end]. *)
Inductive Chunk :=
| Framed (f : ServerFrame) (octets : Buffer)
| Raw (data : Buffer).

Record Stream := {
  destroyed : bool;
  closed : bool;
  writableEnded : bool;
  (** whether the run-time sets [closed] as soon as [end()] is called *)
  closesOnEnd : bool;
  written : list Chunk
}.

Definition open_stream (closesOnEnd : bool) : Stream :=
  {| destroyed := false; closed := false; writableEnded := false;
     closesOnEnd := closesOnEnd; written := [] |}.

(** [stream.write(chunk)]: after [end()] nothing is written. *)
Definition stream_write (c : Chunk) (s : Stream) : Stream :=
  if writableEnded s || destroyed s then s
  else {| destroyed := destroyed s; closed := closed s;
          writableEnded := writableEnded s; closesOnEnd := closesOnEnd s;
          written := written s ++ [c] |}.

(** [stream.end(data?)] *)
Definition stream_end (data : option Buffer) (s : Stream) : Stream :=
  if writableEnded s || destroyed s then s
  else {| destroyed := destroyed s;
          closed := closed s || closesOnEnd s;
          writableEnded := true; closesOnEnd := closesOnEnd s;
          written := written s ++
                     match data with Some d => [Raw d] | None => [] end |}.

Section Writing.
Context `{Externals}.

(** The octets of one frame under the two framings. *)
Definition frame_octets (useLengthPrefix : bool) (jsonPayload : string)
  : option Buffer :=
  if useLengthPrefix then
    let payload := fromString_utf8 jsonPayload in
    match writeUInt32BE (N.of_nat (length payload)) with
    | Some lengthBuffer => Some (lengthBuffer ++ payload)
    | None => None
    end
  else Some (fromString_utf8 (jsonPayload +:+ String newline EmptyString)).

(** The [try] block of [writeFrame]: the octets to write; [None] when
    encoding the frame or writing the length throws. *)
Definition wire (useLengthPrefix : bool) (frame : ServerFrame) : option Buffer :=
  match encodeServerFrame frame with
  | inr jsonPayload => frame_octets useLengthPrefix jsonPayload
  | inl _ => None
  end.

(** [writeFrame]; the response's content type is [useLengthPrefix]. *)
Definition writeFrame (useLengthPrefix : bool) (frame : ServerFrame) (s : Stream)
  : bool * Stream :=
  if destroyed s || closed s then (false, s)
  else
    match wire useLengthPrefix frame with
    | Some octets =>
        (negb (writableEnded s), stream_write (Framed frame octets) s)
    | None => (false, s)
    end.

(** The timer callback of [startHeartbeat]. *)
Definition heartbeat_tick (useLengthPrefix : bool) (isoNow : string) (s : Stream)
  : Stream :=
  if destroyed s || closed s then s
  else snd (writeFrame useLengthPrefix
              (heartbeat {| hb_id := None; hb_timestamp := isoNow |}) s).

(** ** The objects passed as [req] and [res]

    [readFrames] takes the framing from [req.headers["content-type"]]
    and [writeFrame] from [res.getHeader("content-type")]: what the
    object passed has under [headers] and [getHeader], [None] when it
    has no such property. *)
Record Request := {
  headers : option (string -> option string)
}.

Record Response := {
  getHeader : option (string -> option string)
}.

(** An error of the run-time that no [try] block of the transport
    catches. *)
Inductive Thrown :=
| TypeError (message : string).

Definition thrown_message (e : Thrown) : string :=
  match e with TypeError message => message end.

Definition is_length_prefixed (contentType : option string) : bool :=
  match contentType with
  | Some t => String.eqb t LENGTH_PREFIXED_JSON_CONTENT_TYPE
  | None => false
  end.

(** [readFrames(stream, req)], from its first [next()] on: the
    generator reads [req.headers["content-type"]] before it reads the
    stream, and that throws when [req.headers] is undefined. *)
Definition readFrames_req (req : Request) (chunks : list Buffer)
  : Thrown + (list ClientFrame * Ending) :=
  match headers req with
  | Some header =>
      inr (readFrames (is_length_prefixed (header "content-type")) chunks)
  | None =>
      inl (TypeError "Cannot read properties of undefined (reading 'content-type')")
  end.

(** [writeFrame(stream, frame, res)]: the call of [res.getHeader] comes
    after the test of the stream and before the [try] block. *)
Definition writeFrame_res (res : Response) (frame : ServerFrame) (s : Stream)
  : Thrown + (bool * Stream) :=
  if destroyed s || closed s then inr (false, s)
  else
    match getHeader res with
    | Some header =>
        inr (writeFrame (is_length_prefixed (header "content-type")) frame s)
    | None => inl (TypeError "res.getHeader is not a function")
    end.

(** The timer callback of [startHeartbeat(stream, res)]. *)
Definition heartbeat_res (res : Response) (isoNow : string) (s : Stream)
  : Thrown + Stream :=
  if destroyed s || closed s then inr s
  else
    match writeFrame_res res (heartbeat {| hb_id := None; hb_timestamp := isoNow |}) s
    with
    | inr (_, s') => inr s'
    | inl e => inl e
    end.

End Writing.
End Transport.

(* ===================================================================== *)
(** * The confirmation queue ([core/confirmation-queue.ts])               *)
(* ===================================================================== *)

Module Queue.
Import Protocol.

Definition DEFAULT_APPROVAL_TIMEOUT_MS : N := 5 * 60 * 1000.

Record ConfirmationResult := {
  decision : Decision;
  explanation : option string
}.

(** One call of a promise's [resolve] or [reject] function. *)
Inductive Settlement :=
| Resolved (value : ConfirmationResult)
| Rejected (reason : string).

(** An entry of the [pending] map.  The [resolve] and [reject] functions
    it holds are those of one promise, named by its number. *)
Record PendingConfirmation := {
  resolvers : nat;
  timer : nat
}.

(** The closure handed to [setTimeout] in [register], with its deadline. *)
Record Timeout := {
  deadline : N;
  forCommand : string;
  forPromise : nat
}.

(** The queue object, and the part of the run-time it lives on: the
    clock, the timers created ([None] once cleared or fired), and for
    every promise created the calls made to its resolving functions,
    oldest first.  A promise is settled by the first call; later calls
    have no effect on it. *)
Record ConfirmationQueue := {
  pending : list (string * PendingConfirmation);
  approvalTimeoutMs : N;
  clock : N;
  timers : list (option Timeout);
  promises : list (list Settlement)
}.

Definition new_queue (approvalTimeoutMs : N) : ConfirmationQueue :=
  {| pending := []; approvalTimeoutMs := approvalTimeoutMs;
     clock := 0; timers := []; promises := [] |}.

Definition set_pending (m : list (string * PendingConfirmation))
  (q : ConfirmationQueue) : ConfirmationQueue :=
  {| pending := m; approvalTimeoutMs := approvalTimeoutMs q;
     clock := clock q; timers := timers q; promises := promises q |}.

Definition set_clock (t : N) (q : ConfirmationQueue) : ConfirmationQueue :=
  {| pending := pending q; approvalTimeoutMs := approvalTimeoutMs q;
     clock := t; timers := timers q; promises := promises q |}.

Definition set_timers (ts : list (option Timeout))
  (q : ConfirmationQueue) : ConfirmationQueue :=
  {| pending := pending q; approvalTimeoutMs := approvalTimeoutMs q;
     clock := clock q; timers := ts; promises := promises q |}.

Definition set_promises (ps : list (list Settlement))
  (q : ConfirmationQueue) : ConfirmationQueue :=
  {| pending := pending q; approvalTimeoutMs := approvalTimeoutMs q;
     clock := clock q; timers := timers q; promises := ps |}.

(** ** A [Map] with string keys, in insertion order *)

Section StringMap.
Context {V : Type}.

Fixpoint map_get (k : string) (m : list (string * V)) : option V :=
  match m with
  | [] => None
  | (k', v) :: m' => if String.eqb k k' then Some v else map_get k m'
  end.

Definition map_has (k : string) (m : list (string * V)) : bool :=
  match map_get k m with Some _ => true | None => false end.

Fixpoint map_set (k : string) (v : V) (m : list (string * V)) : list (string * V) :=
  match m with
  | [] => [(k, v)]
  | (k', v') :: m' =>
      if String.eqb k k' then (k, v) :: m' else (k', v') :: map_set k v m'
  end.

Fixpoint map_delete (k : string) (m : list (string * V)) : list (string * V) :=
  match m with
  | [] => []
  | (k', v') :: m' =>
      if String.eqb k k' then map_delete k m' else (k', v') :: map_delete k m'
  end.

Definition map_keys (m : list (string * V)) : list string := map fst m.

End StringMap.

(** ** Run-time steps *)

Definition clearTimeout (t : nat) (q : ConfirmationQueue) : ConfirmationQueue :=
  set_timers (<[t := None]> (timers q)) q.

(** A call of a resolving function of promise [p]. *)
Definition settle (p : nat) (s : Settlement) (q : ConfirmationQueue)
  : ConfirmationQueue :=
  set_promises (alter (fun calls => calls ++ [s]) p (promises q)) q.

(** The calls made so far to the resolving functions of [p]. *)
Definition settlements (p : nat) (q : ConfirmationQueue) : list Settlement :=
  default [] (promises q !! p).

(** The state of promise [p]: [None] while it is pending. *)
Definition outcome (p : nat) (q : ConfirmationQueue) : option Settlement :=
  head (settlements p q).

Definition timeout_message (commandId : string) : string :=
  "Confirmation for command " +:+ commandId +:+ " timed out.".

Definition session_ended_message (commandId : string) : string :=
  "Session ended while awaiting confirmation for " +:+ commandId +:+ ".".

(** ** The methods *)

(** The delay [setTimeout(callback, ms)] sets: a delay below 1 or above
    [2^31 - 1] milliseconds is set to 1. *)
Definition TIMEOUT_MAX : N := 2147483647.

Definition setTimeout_delay (ms : N) : N :=
  if (ms <? 1)%N || (TIMEOUT_MAX <? ms)%N then 1%N else ms.

(** [register]: the number of the promise it returns, and the queue. *)
Definition register (commandId : string) (q : ConfirmationQueue)
  : nat * ConfirmationQueue :=
  let q1 :=
    match map_get commandId (pending q) with
    | Some existing => clearTimeout (timer existing) q
    | None => q
    end in
  let p := length (promises q1) in
  let t := length (timers q1) in
  (p,
   {| pending := map_set commandId {| resolvers := p; timer := t |} (pending q1);
      approvalTimeoutMs := approvalTimeoutMs q1;
      clock := clock q1;
      timers := timers q1 ++
                [Some {| deadline := clock q1 + setTimeout_delay (approvalTimeoutMs q1);
                         forCommand := commandId; forPromise := p |}];
      promises := promises q1 ++ [[]] |}).

(** The timer callback of [register]. *)
Definition on_timeout (tm : Timeout) (q : ConfirmationQueue) : ConfirmationQueue :=
  if map_has (forCommand tm) (pending q) then
    settle (forPromise tm) (Rejected (timeout_message (forCommand tm)))
      (set_pending (map_delete (forCommand tm) (pending q)) q)
  else q.

Definition resolve (commandId : string) (d : Decision) (e : option string)
  (q : ConfirmationQueue) : bool * ConfirmationQueue :=
  match map_get commandId (pending q) with
  | Some pendingConfirmation =>
      let q1 := clearTimeout (timer pendingConfirmation) q in
      let q2 := settle (resolvers pendingConfirmation)
                  (Resolved {| decision := d; explanation := e |}) q1 in
      (true, set_pending (map_delete commandId (pending q2)) q2)
  | None => (false, q)
  end.

Definition reject (commandId : string) (reason : string)
  (q : ConfirmationQueue) : bool * ConfirmationQueue :=
  match map_get commandId (pending q) with
  | Some pendingConfirmation =>
      let q1 := clearTimeout (timer pendingConfirmation) q in
      let q2 := settle (resolvers pendingConfirmation) (Rejected reason) q1 in
      (true, set_pending (map_delete commandId (pending q2)) q2)
  | None => (false, q)
  end.

(** [commandId.startsWith(prefix)] *)
Fixpoint startsWith (s prefix : string) : bool :=
  match prefix, s with
  | EmptyString, _ => true
  | String a prefix', String b s' => Ascii.eqb a b && startsWith s' prefix'
  | String _ _, EmptyString => false
  end.

(** A regular expression, as far as [test] goes: whether it has the [g]
    or the [y] flag, where a match ends that is searched from a given
    index on, and its [lastIndex]. *)
Record RegExp := {
  global_or_sticky : bool;
  exec : nat -> string -> option nat;
  lastIndex : nat
}.

Definition set_lastIndex (i : nat) (r : RegExp) : RegExp :=
  {| global_or_sticky := global_or_sticky r; exec := exec r; lastIndex := i |}.

(** [r.test(s)].  Without the [g] or [y] flag the search starts at 0 and
    [lastIndex] is left alone; with one of them it starts at
    [lastIndex], which is then set to the end of the match, or to 0 when
    there is none. *)
Definition test (r : RegExp) (s : string) : bool * RegExp :=
  if global_or_sticky r then
    if (String.length s <? lastIndex r)%nat then (false, set_lastIndex 0 r)
    else
      match exec r (lastIndex r) s with
      | Some e => (true, set_lastIndex e r)
      | None => (false, set_lastIndex 0 r)
      end
  else
    (match exec r 0 s with Some _ => true | None => false end, r).

(** The argument of [clearAllForSession]: a prefix, or a regular
    expression. *)
Inductive Matcher :=
| Prefix (prefix : string)
| Pattern (r : RegExp).

(** The test of the loop, and the matcher as the test leaves it. *)
Definition matches (m : Matcher) (commandId : string) : bool * Matcher :=
  match m with
  | Prefix prefix => (startsWith commandId prefix, m)
  | Pattern r => let '(b, r') := test r commandId in (b, Pattern r')
  end.

(** The body of the [for] loop of [clearAllForSession]. *)
Definition clear_one (st : Matcher * ConfirmationQueue) (commandId : string)
  : Matcher * ConfirmationQueue :=
  let '(m, q) := st in
  let '(b, m') := matches m commandId in
  if b then
    match map_get commandId (pending q) with
    | Some pendingConfirmation =>
        let q1 := clearTimeout (timer pendingConfirmation) q in
        let q2 := settle (resolvers pendingConfirmation)
                    (Rejected (session_ended_message commandId)) q1 in
        (m', set_pending (map_delete commandId (pending q2)) q2)
    | None => (m', q)
    end
  else (m', q).

Definition clearAllForSession (m : Matcher) (q : ConfirmationQueue)
  : ConfirmationQueue :=
  snd (fold_left clear_one (map_keys (pending q)) (m, q)).

(** ** Time *)

(** Timer [i] fires if it is still set and due. *)
Definition fire (i : nat) (q : ConfirmationQueue) : ConfirmationQueue :=
  match timers q !! i with
  | Some (Some tm) =>
      if (deadline tm <=? clock q)%N then on_timeout tm (clearTimeout i q) else q
  | _ => q
  end.

(** The clock reaches [t]: the timers that are due fire, oldest first. *)
Definition elapse (t : N) (q : ConfirmationQueue) : ConfirmationQueue :=
  let q1 := set_clock (N.max (clock q) t) q in
  fold_left (fun q i => fire i q) (seq 0 (length (timers q1))) q1.

(** ** The queue driven by its callers and by time *)

Inductive Op :=
| Register (commandId : string)
| Resolve (commandId : string) (d : Decision) (e : option string)
| Reject (commandId : string) (reason : string)
| ClearAllForSession (m : Matcher)
| Elapse (t : N).

Definition step (q : ConfirmationQueue) (op : Op) : ConfirmationQueue :=
  match op with
  | Register c => snd (register c q)
  | Resolve c d e => snd (resolve c d e q)
  | Reject c r => snd (reject c r q)
  | ClearAllForSession m => clearAllForSession m q
  | Elapse t => elapse t q
  end.

Definition run (ops : list Op) (q : ConfirmationQueue) : ConfirmationQueue :=
  fold_left step ops q.

End Queue.

(* ===================================================================== *)
(** * The agent wrapper ([core/agent-wrapper.ts], [utils/serializer.ts])  *)
(* ===================================================================== *)

Module Wrapper.
Import Js Protocol Queue.

Inductive Review := approved | denied.

Record CommandConfirmation := {
  review : Review;
  applyPatch : option jsval;
  customDenyMessage : option string
}.

(** What the engine gets back from its [getCommandConfirmation] hook. *)
Inductive Answer :=
| Confirmation (commandId : string) (c : CommandConfirmation)
| RunCancelled.

(** A call of [agentLoop.run]. *)
Record EngineCall := {
  call_run : nat;
  call_inputItems : list string;
  call_previousResponseId : option string
}.

(** The fields of the wrapper object that change. *)
Record Self := {
  session_id : string;
  currentRunAbortController : option nat;
  lastResponseId : option string
}.

(** A call of the private [getCommandConfirmation] suspended at its
    [await]. *)
Record Waiting := {
  w_promise : nat;
  w_commandId : string;
  w_applyPatch : option jsval
}.

(** What the wrapper acts on: the shared confirmation queue, the abort
    controllers created so far (each by its [aborted] flag), the
    module-level [AgentLoopInternal], the engine (the calls made to it
    and the answers given to it), the suspended confirmations, and the
    sink of the [onFrame] callback. *)
Record Env (Sink : Type) := {
  confirmationQueue : ConfirmationQueue;
  controllers : list bool;
  AgentLoopInternal : bool;
  calls : list EngineCall;
  answers : list Answer;
  awaiting : list Waiting;
  sink : Sink
}.
Arguments confirmationQueue {Sink}.
Arguments controllers {Sink}.
Arguments AgentLoopInternal {Sink}.
Arguments calls {Sink}.
Arguments answers {Sink}.
Arguments awaiting {Sink}.
Arguments sink {Sink}.

(** [Date.now()] and [String(n)] *)
Definition show_N (n : N) : string := NilZero.string_of_uint (N.to_uint n).

Definition truthy_string (s : string) : bool := negb (String.eqb s EmptyString).

Definition truthy (v : jsval) : bool :=
  match v with
  | JNull => false
  | JBool b => b
  | JNum n => negb (n =? 0)%Z
  | JStr s => truthy_string s
  | JArr _ | JObj _ => true
  end.

(** ** [utils/serializer.ts]

    The copy [JSON.parse(JSON.stringify(x))] of a JSON value is the value. *)

Definition responseItemToItemFrame (responseItem : jsval) (sessionId : string)
  (now : N) : ServerFrame :=
  item {| it_responseItem := Some responseItem;
          it_id := if truthy_string sessionId
                   then Some (sessionId +:+ "-" +:+ show_N now) else None |}.

Definition commandPromptToFrame (commandId : string) (command : list string)
  (applyPatch : option jsval) : ServerFrame :=
  command_prompt
    {| cp_id := None; cp_commandId := commandId; cp_command := command;
       cp_applyPatch := match applyPatch with
                        | Some v => if truthy v then Some v else None
                        | None => None
                        end;
       cp_explanation := None |}.

Definition userMessageFrameToResponseInputItems (frame : UserMessageFrame)
  : list string :=
  if truthy_string (um_content frame) then [um_content frame] else [].

Definition status_frame (message : string) : ServerFrame :=
  status {| st_id := None; st_message := message; st_details := None |}.

Definition error_frame (message : string) (code : option string) : ServerFrame :=
  error {| er_id := None; er_message := message; er_code := code;
           er_retryable := None; er_details := None |}.

Section Methods.
Context {Sink : Type} (onFrame : ServerFrame -> Sink -> Sink).

Definition emit (f : ServerFrame) (env : Env Sink) : Env Sink :=
  {| confirmationQueue := confirmationQueue env; controllers := controllers env;
     AgentLoopInternal := AgentLoopInternal env; calls := calls env;
     answers := answers env; awaiting := awaiting env;
     sink := onFrame f (sink env) |}.

Definition set_queue (q : ConfirmationQueue) (env : Env Sink) : Env Sink :=
  {| confirmationQueue := q; controllers := controllers env;
     AgentLoopInternal := AgentLoopInternal env; calls := calls env;
     answers := answers env; awaiting := awaiting env; sink := sink env |}.

Definition set_controllers (cs : list bool) (env : Env Sink) : Env Sink :=
  {| confirmationQueue := confirmationQueue env; controllers := cs;
     AgentLoopInternal := AgentLoopInternal env; calls := calls env;
     answers := answers env; awaiting := awaiting env; sink := sink env |}.

Definition set_loaded (env : Env Sink) : Env Sink :=
  {| confirmationQueue := confirmationQueue env; controllers := controllers env;
     AgentLoopInternal := true; calls := calls env;
     answers := answers env; awaiting := awaiting env; sink := sink env |}.

Definition add_call (c : EngineCall) (env : Env Sink) : Env Sink :=
  {| confirmationQueue := confirmationQueue env; controllers := controllers env;
     AgentLoopInternal := AgentLoopInternal env; calls := calls env ++ [c];
     answers := answers env; awaiting := awaiting env; sink := sink env |}.

Definition answer (a : Answer) (env : Env Sink) : Env Sink :=
  {| confirmationQueue := confirmationQueue env; controllers := controllers env;
     AgentLoopInternal := AgentLoopInternal env; calls := calls env;
     answers := answers env ++ [a]; awaiting := awaiting env; sink := sink env |}.

Definition set_awaiting (ws : list Waiting) (env : Env Sink) : Env Sink :=
  {| confirmationQueue := confirmationQueue env; controllers := controllers env;
     AgentLoopInternal := AgentLoopInternal env; calls := calls env;
     answers := answers env; awaiting := ws; sink := sink env |}.

Definition set_controller (c : option nat) (self : Self) : Self :=
  {| session_id := session_id self; currentRunAbortController := c;
     lastResponseId := lastResponseId self |}.

Definition set_lastResponseId (i : option string) (self : Self) : Self :=
  {| session_id := session_id self;
     currentRunAbortController := currentRunAbortController self;
     lastResponseId := i |}.

(** [signal.aborted] of controller [r] *)
Definition aborted (r : nat) (env : Env Sink) : bool :=
  default false (controllers env !! r).

(** [cancelCurrentRun(reason)] *)
Definition cancelCurrentRun (reason : string) (self : Self) (env : Env Sink)
  : Self * Env Sink :=
  match currentRunAbortController self with
  | Some r =>
      (set_controller None self,
       emit (status_frame ("Agent run cancelled: " +:+ reason))
         (set_controllers (<[r := true]> (controllers env)) env))
  | None => (self, env)
  end.

(** The private [getCommandConfirmation], up to its [await]. *)
Definition getCommandConfirmation (command : list string)
  (applyPatch : option jsval) (commandId : string) (env : Env Sink) : Env Sink :=
  let env1 := emit (commandPromptToFrame commandId command applyPatch) env in
  let '(p, q) := register commandId (confirmationQueue env1) in
  set_awaiting (awaiting env1 ++
                [{| w_promise := p; w_commandId := commandId;
                    w_applyPatch := applyPatch |}])
    (set_queue q env1).

(** The private [getCommandConfirmation], from its [await] on: the
    [try] branch when the promise is fulfilled, the [catch] branch when
    it is rejected.  It gives the frames it emits and then its result. *)
Definition confirmation_result (w : Waiting) (s : Settlement)
  : list ServerFrame * CommandConfirmation :=
  match s with
  | Resolved result =>
      ([],
       match decision result with
       | allow => {| review := approved; applyPatch := w_applyPatch w;
                     customDenyMessage := explanation result |}
       | deny => {| review := denied; applyPatch := None;
                    customDenyMessage := explanation result |}
       end)
  | Rejected message =>
      ([error_frame ("Approval timed out or failed for command "
                     +:+ w_commandId w) (Some "APPROVAL_TIMEOUT")],
       {| review := denied; applyPatch := None;
          customDenyMessage :=
            Some ("Approval timed out or was cancelled: " +:+ message) |})
  end.

Definition resume (w : Waiting) (s : Settlement) (env : Env Sink) : Env Sink :=
  let '(frames, result) := confirmation_result w s in
  answer (Confirmation (w_commandId w) result)
    (fold_left (fun e f => emit f e) frames env).

Definition settled (q : ConfirmationQueue) (w : Waiting) : bool :=
  match outcome (w_promise w) q with Some _ => true | None => false end.

(** The promise jobs: every suspended confirmation whose promise is
    settled goes on. *)
Definition run_jobs (env : Env Sink) : Env Sink :=
  let q := confirmationQueue env in
  let ready := filter (fun w => settled q w = true) (awaiting env) in
  let rest := filter (fun w => settled q w = false) (awaiting env) in
  fold_left
    (fun e w =>
       match outcome (w_promise w) q with
       | Some s => resume w s e
       | None => e
       end)
    ready (set_awaiting rest env).

(** [handleUserMessage], up to its [await agentLoop.run(...)]: the
    controller of the run it starts, if it starts one.  [imported] tells
    whether the engine module loads, when it is not loaded yet. *)
Definition handleUserMessage (frame : UserMessageFrame) (imported : bool)
  (self : Self) (env : Env Sink) : option nat * Self * Env Sink :=
  if negb (AgentLoopInternal env) && negb imported then
    (None, self,
     emit (error_frame "Internal server error: Agent engine unavailable" None) env)
  else
    let env0 := set_loaded env in
    let '(self1, env1) :=
      match currentRunAbortController self with
      | Some _ => cancelCurrentRun "new_message_interrupt" self env0
      | None => (self, env0)
      end in
    let r := length (controllers env1) in
    let env2 := set_controllers (controllers env1 ++ [false]) env1 in
    let self2 := set_controller (Some r) self1 in
    let inputItems := userMessageFrameToResponseInputItems frame in
    let env3 := emit (status_frame "Agent processing... ") env2 in
    (Some r, self2,
     add_call {| call_run := r; call_inputItems := inputItems;
                 call_previousResponseId := lastResponseId self2 |} env3).

(** The hooks handed to the engine for run [r]. *)
Definition onItem (r : nat) (item : jsval) (self : Self) (env : Env Sink)
  : Env Sink :=
  if aborted r env then env
  else emit (responseItemToItemFrame item (session_id self)
               (clock (confirmationQueue env))) env.

Definition onLoading (r : nat) (loading : bool) (env : Env Sink) : Env Sink :=
  if aborted r env then env
  else emit (status_frame (if loading then "Agent thinking..." else "Agent idle...")) env.

Definition getCommandConfirmation_hook (r : nat) (command : list string)
  (applyPatch : option jsval) (uuid : string) (self : Self) (env : Env Sink)
  : Env Sink :=
  if aborted r env then answer RunCancelled env
  else
    let commandId := session_id self +:+ "-cmd-" +:+ uuid in
    getCommandConfirmation command applyPatch commandId env.

Definition onLastResponseId (r : nat) (id : string) (self : Self) (env : Env Sink)
  : Self :=
  if aborted r env then self else set_lastResponseId (Some id) self.

(** [handleUserMessage], from its [await] on. *)
Definition finally_ (r : nat) (self : Self) : Self :=
  match currentRunAbortController self with
  | Some r' => if decide (r' = r) then set_controller None self else self
  | None => self
  end.

Definition run_returned (r : nat) (self : Self) (env : Env Sink)
  : Self * Env Sink :=
  (finally_ r self,
   emit (status_frame (if aborted r env then "Agent run cancelled by client."
                       else "Agent run completed.")) env).

Definition run_threw (r : nat) (name message : string) (self : Self)
  (env : Env Sink) : Self * Env Sink :=
  (finally_ r self,
   if aborted r env && String.eqb name "AbortError"
   then emit (status_frame "Agent run successfully aborted.") env
   else emit (error_frame ("Agent run failed: " +:+ message) (Some "AGENT_ERROR")) env).

Definition handleApprove (frame : ApproveFrame) (env : Env Sink) : Env Sink :=
  set_queue
    (snd (resolve (ap_commandId frame) (ap_decision frame) (ap_explanation frame)
            (confirmationQueue env))) env.

(** [uuid] is the value [randomUUID()] gives. *)
Definition handleCancel (frame : CancelFrame) (uuid : string) (self : Self)
  (env : Env Sink) : Self * Env Sink :=
  let '(self1, env1) :=
    cancelCurrentRun ("client_cancel_frame_session_" +:+ ca_sessionId frame)
      self env in
  (self1,
   set_queue
     (snd (reject (ca_sessionId frame +:+ "-cmd-" +:+ uuid)
             "Client requested cancel for session" (confirmationQueue env1)))
     env1).

Definition cleanup (self : Self) (env : Env Sink) : Self * Env Sink :=
  let '(self1, env1) := cancelCurrentRun "session_cleanup" self env in
  (self1,
   set_queue (clearAllForSession (Prefix (session_id self1))
                (confirmationQueue env1)) env1).

(** ** The wrapper driven by the handler, the engine and time

    Each event is one synchronous section; the promise jobs run after it. *)
Inductive Event :=
| HandleUserMessage (frame : UserMessageFrame) (imported : bool)
| OnItem (r : nat) (item : jsval)
| OnLoading (r : nat) (loading : bool)
| GetCommandConfirmation (r : nat) (command : list string)
    (applyPatch : option jsval) (uuid : string)
| OnLastResponseId (r : nat) (id : string)
| RunReturned (r : nat)
| RunThrew (r : nat) (name message : string)
| HandleApprove (frame : ApproveFrame)
| HandleCancel (frame : CancelFrame) (uuid : string)
| Cleanup
| Tick (t : N).

Definition section (ev : Event) (st : Self * Env Sink) : Self * Env Sink :=
  let '(self, env) := st in
  match ev with
  | HandleUserMessage frame imported =>
      let '(_, self', env') := handleUserMessage frame imported self env in
      (self', env')
  | OnItem r i => (self, onItem r i self env)
  | OnLoading r l => (self, onLoading r l env)
  | GetCommandConfirmation r command patch uuid =>
      (self, getCommandConfirmation_hook r command patch uuid self env)
  | OnLastResponseId r i => (onLastResponseId r i self env, env)
  | RunReturned r => run_returned r self env
  | RunThrew r name message => run_threw r name message self env
  | HandleApprove frame => (self, handleApprove frame env)
  | HandleCancel frame uuid => handleCancel frame uuid self env
  | Cleanup => cleanup self env
  | Tick t => (self, set_queue (elapse t (confirmationQueue env)) env)
  end.

Definition step (st : Self * Env Sink) (ev : Event) : Self * Env Sink :=
  let '(self, env) := section ev st in (self, run_jobs env).

Definition run (evs : list Event) (st : Self * Env Sink) : Self * Env Sink :=
  fold_left step evs st.

End Methods.

(** A new wrapper for session [sessionId] on queue [q]. *)
Definition new_wrapper (sessionId : string) : Self :=
  {| session_id := sessionId; currentRunAbortController := None;
     lastResponseId := None |}.

Definition new_env {Sink} (q : ConfirmationQueue) (s : Sink) : Env Sink :=
  {| confirmationQueue := q; controllers := []; AgentLoopInternal := false;
     calls := []; answers := []; awaiting := []; sink := s |}.

(** The sink that keeps the frames handed to [onFrame], in order. *)
Definition record_frame (f : ServerFrame) (l : list ServerFrame) : list ServerFrame :=
  l ++ [f].

End Wrapper.

(* ===================================================================== *)
(** * The stream handler ([server/routes/agent.ts])                       *)
(* ===================================================================== *)

Module Handler.
Import Js Protocol Transport Queue Wrapper.

Definition terminate_frame : ServerFrame :=
  terminate {| te_id := None; te_reason := "Stream ended from server side.";
               te_details := None |}.

Definition fatal_frame (message : string) : ServerFrame :=
  error_frame ("Fatal stream error: " +:+ message) (Some "FATAL_STREAM_ERROR").

(** What [handleAgentStream] passes where [readFrames], [writeFrame] and
    [startHeartbeat] take the request and the response: [stream.session],
    cast.  An [Http2Session] has no property [headers] and no method
    [getHeader]. *)
Definition session_as_request : Request := {| headers := None |}.

Definition session_as_response : Response := {| getHeader := None |}.

(** How the call of [handleAgentStream] ends: the promise it returns is
    fulfilled or rejected.  [Iterating] stands for the body of the
    [for await] loop, which runs when [readFrames] yields a frame or
    ends. *)
Inductive Completion :=
| Fulfilled
| Failed (e : Thrown)
| Iterating (frames : list ClientFrame) (e : Ending).

(** The stream, the status and the content type of [stream.respond],
    whether the heart beat timer is set, and how the call ended.  The
    locals [agentWrapper] and [currentSessionId] are assigned in the body
    of the loop only. *)
Record State := {
  stream : Stream;
  responded : nat * option string;
  heartbeatInterval : bool;
  completion : Completion
}.

Inductive Event :=
| Heartbeat (isoNow : string)
| Close.

Section Handling.
Context `{Externals}.

Definition gone (s : Stream) : bool := destroyed s || closed s.

(** The outer [catch] block,
    [try { writeFrame(...) } finally { stream.end() }]: an error of
    [writeFrame] goes on its way after [stream.end()]. *)
Definition catch_block (caught : Thrown) (s : Stream) : option Thrown * Stream :=
  if gone s then (None, s)
  else
    match writeFrame_res session_as_response
            (fatal_frame (thrown_message caught)) s with
    | inr (_, s') => (None, stream_end None s')
    | inl e => (Some e, stream_end None s)
    end.

(** The outer [finally] block; [pending] is the error on its way out of
    the [catch] block, which an error thrown here replaces. *)
Definition finally_block (pending : option Thrown) (s : Stream)
  : option Thrown * Stream :=
  if gone s then (pending, s)
  else
    match writeFrame_res session_as_response terminate_frame s with
    | inr (_, s') => (pending, stream_end None s')
    | inl e => (Some e, s)
    end.

(** [handleAgentStream(stream, headers, flags)] on a new stream; [chunks]
    is what the client sends on it. *)
Definition handleAgentStream (path method contentType : string)
  (closesOnEnd : bool) (chunks : list Buffer) : State :=
  let s := open_stream closesOnEnd in
  if negb (String.eqb path "/agent/stream") || negb (String.eqb method "POST") then
    {| stream := stream_end (Some (list_ascii_of_string "Not Found")) s;
       responded := (404, None); heartbeatInterval := false;
       completion := Fulfilled |}
  else
    let responseContentType :=
      if String.eqb contentType LENGTH_PREFIXED_JSON_CONTENT_TYPE
      then LENGTH_PREFIXED_JSON_CONTENT_TYPE else NDJSON_CONTENT_TYPE in
    match readFrames_req session_as_request chunks with
    | inr (frames, e) =>
        {| stream := s; responded := (200, Some responseContentType);
           heartbeatInterval := true; completion := Iterating frames e |}
    | inl thrown0 =>
        let '(pending, s1) := catch_block thrown0 s in
        let '(thrown, s2) := finally_block pending s1 in
        {| stream := s2; responded := (200, Some responseContentType);
           heartbeatInterval := true;
           completion := match thrown with
                         | Some e => Failed e
                         | None => Fulfilled
                         end |}
    end.

(** The [close] listener: the heart beat timer is cleared; no wrapper
    and no session id are there to clean up. *)
Definition on_close (st : State) : State :=
  {| stream := {| destroyed := true; closed := true;
                  writableEnded := writableEnded (stream st);
                  closesOnEnd := closesOnEnd (stream st);
                  written := written (stream st) |};
     responded := responded st; heartbeatInterval := false;
     completion := completion st |}.

(** One event after the call: the state it leaves, or the error that
    the timer callback throws, which nothing catches. *)
Definition step (st : State) (ev : Event) : Thrown + State :=
  match ev with
  | Heartbeat isoNow =>
      if heartbeatInterval st then
        match heartbeat_res session_as_response isoNow (stream st) with
        | inr s' =>
            inr {| stream := s'; responded := responded st;
                   heartbeatInterval := true; completion := completion st |}
        | inl e => inl e
        end
      else inr st
  | Close => inr (on_close st)
  end.

Fixpoint run (evs : list Event) (st : State) : Thrown + State :=
  match evs with
  | [] => inr st
  | ev :: evs' =>
      match step st ev with
      | inr st' => run evs' st'
      | inl e => inl e
      end
  end.

End Handling.
End Handler.

(* ===================================================================== *)
(** * [JSON.parse] undoes [JSON.stringify]                                *)
(* ===================================================================== *)

Module JsFacts.
Import Js.

(** Induction on a value, with the hypothesis for every element of an
    array and every member of an object. *)
Lemma jsval_induction (P : jsval -> Prop) :
  P JNull -> (forall b, P (JBool b)) -> (forall n, P (JNum n)) ->
  (forall s, P (JStr s)) ->
  (forall l, Forall P l -> P (JArr l)) ->
  (forall o, Forall (fun kv => P (snd kv)) o -> P (JObj o)) ->
  forall v, P v.
Proof.
  intros Hnull Hbool Hnum Hstr Harr Hobj.
  fix rec 1. intros [ |b|n|s|l|o].
  - exact Hnull.
  - apply Hbool.
  - apply Hnum.
  - apply Hstr.
  - apply Harr. induction l as [|x l IHl]; constructor; [apply rec|exact IHl].
  - apply Hobj. induction o as [|[k x] o IHo]; constructor; [apply rec|exact IHo].
Qed.

(** The printer of the elements of an array and of the members of an
    object, by name. *)
Fixpoint print_elems (l : list jsval) : list ascii :=
  match l with
  | [] => []
  | [x] => print x
  | x :: l' => print x ++ ","%char :: print_elems l'
  end.

Fixpoint print_members (o : list (string * jsval)) : list ascii :=
  match o with
  | [] => []
  | [(k, x)] => quote k ++ ":"%char :: print x
  | (k, x) :: o' => quote k ++ ":"%char :: print x ++ ","%char :: print_members o'
  end.

Lemma print_arr l : print (JArr l) = "["%char :: print_elems l ++ ["]"%char].
Proof.
  reflexivity.
Qed.

Lemma print_obj o : print (JObj o) = "{"%char :: print_members o ++ ["}"%char].
Proof.
  reflexivity.
Qed.

Lemma wf_arr l : wf_jsval (JArr l) = forallb wf_jsval l.
Proof. done. Qed.

Lemma wf_obj o :
  wf_jsval (JObj o) = distinct_keys o && forallb (fun kv => wf_jsval (snd kv)) o.
Proof.
  cbn. f_equal. induction o as [|[k x] o IH]; [done|]. cbn. by rewrite IH.
Qed.

(** ** Objects *)

Lemma js_get_app k o1 o2 :
  js_get k (o1 ++ o2) = match js_get k o1 with Some v => Some v | None => js_get k o2 end.
Proof.
  induction o1 as [|[k' v] o1 IH]; cbn; [done|]. by destruct (String.eqb k k').
Qed.

Lemma js_set_fresh k v o : js_get k o = None -> js_set k v o = o ++ [(k, v)].
Proof.
  induction o as [|[k' v'] o IH]; cbn; [done|].
  destruct (String.eqb k k'); [done|]. intros Hk. by rewrite IH.
Qed.

Lemma js_object_of_distinct o : distinct_keys o = true -> js_object_of o = o.
Proof.
  unfold js_object_of.
  assert (Hgen : forall acc, distinct_keys o = true ->
            (forall k v, In (k, v) o -> js_get k acc = None) ->
            fold_left (fun o kv => js_set (fst kv) (snd kv) o) o acc = acc ++ o).
  { induction o as [|[k v] o IH]; intros acc Hd Hacc; cbn; [by rewrite app_nil_r|].
    cbn in Hd. apply andb_true_iff in Hd as [Hk Hd].
    rewrite js_set_fresh by (eapply Hacc; by left).
    rewrite IH; [by rewrite <- app_assoc|done|].
    intros k' v' Hin. rewrite js_get_app, (Hacc k' v') by (by right). cbn.
    destruct (String.eqb_spec k' k) as [->|]; [|done].
    unfold js_has in Hk. clear -Hk Hin. exfalso.
    induction o as [|[k2 v2] o IHo]; [done|]. cbn in Hk.
    destruct (String.eqb_spec k k2) as [->|Hne]; [done|].
    destruct Hin as [[= -> ->]|Hin]; [done|]. by apply IHo. }
  intros Hd. by rewrite Hgen.
Qed.

(** ** Strings *)

Lemma parse_string_body_escape c r :
  parse_string_body (escape_char c ++ r) =
  match parse_string_body r with
  | Some (cs, rest) => Some (c :: cs, rest)
  | None => None
  end.
Proof.
  destruct c as [[] [] [] [] [] [] [] []]; reflexivity.
Qed.

Lemma parse_string_body_quote s rest :
  parse_string_body (flat_map escape_char s ++ dquote :: rest) = Some (s, rest).
Proof.
  induction s as [|c s IH]; [done|].
  cbn [flat_map]. rewrite <- app_assoc, parse_string_body_escape. by rewrite IH.
Qed.

Lemma parse_quote s rest :
  parse_string_body (tail (quote s) ++ rest) = Some (list_ascii_of_string s, rest).
Proof.
  unfold quote. cbn [tail]. rewrite <- app_assoc. apply parse_string_body_quote.
Qed.

(** ** Numbers *)

Lemma numchars_uint d :
  Forall (fun c => is_numchar c = true)
    (list_ascii_of_string (NilEmpty.string_of_uint d)).
Proof. induction d; cbn; constructor; done. Qed.

Lemma numchars_number n : Forall (fun c => is_numchar c = true) (print_number n).
Proof.
  unfold print_number, NilZero.string_of_int, NilZero.string_of_uint.
  destruct (Z.to_int n) as [d|d]; destruct d; cbn;
    repeat constructor; apply numchars_uint.
Qed.

(** What may follow a number: not a digit, nor a sign. *)
Definition stops (rest : list ascii) : Prop :=
  match rest with
  | c :: _ => is_numchar c = false
  | [] => True
  end.

Lemma span_num_app l rest :
  Forall (fun c => is_numchar c = true) l -> stops rest ->
  span_num (l ++ rest) = (l, rest).
Proof.
  intros Hl Hrest. induction Hl as [|c l Hc Hl IH]; cbn.
  - destruct rest as [|c rest]; [done|]. cbn in *. by rewrite Hrest.
  - by rewrite Hc, IH.
Qed.

Lemma to_int_proper n :
  Z.to_int n <> Decimal.Pos Decimal.Nil /\ Z.to_int n <> Decimal.Neg Decimal.Nil.
Proof.
  destruct n as [|p|p]; cbn; split; try discriminate;
    intros [= Hp]; by apply DecimalPos.Unsigned.to_uint_nonnil in Hp.
Qed.

Lemma parse_number_print n rest :
  stops rest -> parse_number (print_number n ++ rest) = Some (n, rest).
Proof.
  intros Hrest. unfold parse_number.
  rewrite span_num_app by (done || apply numchars_number).
  unfold print_number at 1. rewrite string_of_list_ascii_of_string.
  destruct (to_int_proper n) as [Hpos Hneg].
  rewrite NilZero.isi by done. rewrite DecimalZ.of_to.
  by rewrite decide_True.
Qed.

Lemma print_number_head n :
  exists c tl, print_number n = c :: tl /\ is_numchar c = true.
Proof.
  pose proof (numchars_number n) as Hn.
  destruct (print_number n) as [|c tl] eqn:E.
  - exfalso. revert E. unfold print_number, NilZero.string_of_int, NilZero.string_of_uint.
    destruct (Z.to_int n) as [d|d] eqn:Hd; [|done].
    destruct d; done.
  - exists c, tl. split; [done|]. by inversion Hn.
Qed.

Lemma numchar_dispatch c :
  is_numchar c = true ->
  is_ws c = false /\ Ascii.eqb c "n" = false /\ Ascii.eqb c "t" = false /\
  Ascii.eqb c "f" = false /\ Ascii.eqb c dquote = false /\
  Ascii.eqb c "[" = false /\ Ascii.eqb c "{" = false /\
  Ascii.eqb c "]" = false /\ Ascii.eqb c "}" = false.
Proof.
  destruct c as [[] [] [] [] [] [] [] []]; cbn; intros Hc;
    try discriminate Hc; repeat split.
Qed.

(** A printed value starts with a character that is not white space and
    closes nothing. *)
Lemma print_head v :
  exists c tl, print v = c :: tl /\ is_ws c = false /\
               Ascii.eqb c "]" = false /\ Ascii.eqb c "}" = false.
Proof.
  destruct v as [ |[]|n|s|l|o]; try (eexists _, _; split; [reflexivity|done]).
  destruct (print_number_head n) as (c & tl & Hn & Hc).
  exists c, tl. split; [done|]. apply numchar_dispatch in Hc. tauto.
Qed.

Lemma skip_ws_head c tl : is_ws c = false -> skip_ws (c :: tl) = c :: tl.
Proof. intros Hc. cbn. by rewrite Hc. Qed.

Lemma print_nonempty v : 1 <= length (print v).
Proof. destruct (print_head v) as (c & tl & -> & _). cbn. lia. Qed.

Ltac eval_bool t :=
  let v := eval vm_compute in t in
  lazymatch v with
  | true => change t with true
  | false => change t with false
  end.

(** Decides the tests on the characters that are known. *)
Ltac chars :=
  cbn [skip_ws app];
  repeat (match goal with
          | |- context [is_ws ?c] => eval_bool (is_ws c)
          | |- context [Ascii.eqb ?a ?b] => eval_bool (Ascii.eqb a b)
          | |- context [is_numchar ?c] => eval_bool (is_numchar c)
          end);
  cbv iota.

Lemma print_elems_cons x y l :
  print_elems (x :: y :: l) = print x ++ ","%char :: print_elems (y :: l).
Proof. done. Qed.

Lemma print_members_cons k x m o :
  print_members ((k, x) :: m :: o)
  = quote k ++ ":"%char :: print x ++ ","%char :: print_members (m :: o).
Proof. done. Qed.

Lemma quote_cons k : quote k = dquote :: tail (quote k).
Proof. done. Qed.

(** [parse_value] reads a printed value back, given fuel for its length. *)
Definition reads_back (v : jsval) : Prop :=
  wf_jsval v = true ->
  forall fuel rest, length (print v) <= fuel -> stops rest ->
  parse_value fuel (print v ++ rest) = Some (v, rest).

Lemma reads_back_elems l :
  Forall reads_back l -> forallb wf_jsval l = true -> l <> [] ->
  forall fuel rest, length (print_elems l) + 1 <= fuel ->
  parse_elements fuel (print_elems l ++ "]"%char :: rest) = Some (l, rest).
Proof.
  induction 1 as [|x l Hx Hl IH]; [done|]. intros Hwf _ fuel rest Hfuel.
  cbn in Hwf. apply andb_true_iff in Hwf as [Hwx Hwl].
  destruct fuel as [|fuel]; [lia|]. cbn [parse_elements].
  destruct l as [|y l].
  - cbn [print_elems] in *. rewrite (Hx Hwx) by (done || lia). by chars.
  - rewrite print_elems_cons in Hfuel |- *.
    rewrite length_app in Hfuel. cbn [length] in Hfuel.
    rewrite <- app_assoc. cbn [app]. rewrite (Hx Hwx) by (done || lia).
    chars. rewrite IH; [done..|].
    pose proof (print_nonempty x). lia.
Qed.

Lemma reads_back_members o :
  Forall (fun kv => reads_back (snd kv)) o ->
  forallb (fun kv => wf_jsval (snd kv)) o = true -> o <> [] ->
  forall fuel rest, length (print_members o) + 1 <= fuel ->
  parse_members fuel (print_members o ++ "}"%char :: rest) = Some (o, rest).
Proof.
  induction 1 as [|[k x] o Hx Ho IH]; [done|]. intros Hwf _ fuel rest Hfuel.
  cbn in Hwf, Hx. apply andb_true_iff in Hwf as [Hwx Hwo].
  destruct fuel as [|fuel]; [lia|]. cbn [parse_members].
  destruct o as [|m o].
  - cbn [print_members] in *. rewrite length_app in Hfuel. cbn [length] in Hfuel.
    rewrite <- app_assoc, quote_cons. chars.
    rewrite Ascii.eqb_refl, parse_quote. chars.
    rewrite (Hx Hwx) by (done || lia). chars.
    by rewrite string_of_list_ascii_of_string.
  - rewrite print_members_cons in Hfuel |- *.
    rewrite !length_app in Hfuel. cbn [length] in Hfuel. rewrite length_app in Hfuel.
    cbn [length] in Hfuel.
    rewrite <- app_assoc, quote_cons. chars.
    rewrite Ascii.eqb_refl, parse_quote. chars.
    rewrite <- app_assoc. cbn [app]. rewrite (Hx Hwx) by (done || lia).
    chars. rewrite IH; [|done..|].
    + by rewrite string_of_list_ascii_of_string.
    + pose proof (print_nonempty x). lia.
Qed.

Lemma print_reads_back v : reads_back v.
Proof.
  induction v as [ |b|n|s|l Hl|o Ho] using jsval_induction;
    intros Hwf fuel rest Hfuel Hrest;
    (destruct fuel as [|fuel];
     [match goal with
      | Hf : length (print ?v) <= 0 |- _ => pose proof (print_nonempty v); lia
      end|]).
  - done.
  - by destruct b.
  - cbn [print parse_value].
    destruct (print_number_head n) as (c & tl & Hn & Hc).
    pose proof (parse_number_print n rest Hrest) as Hp. rewrite Hn in *.
    apply numchar_dispatch in Hc as Hd.
    destruct Hd as (Hws & H1 & H2 & H3 & H4 & H5 & H6 & _).
    cbn [app]. rewrite skip_ws_head by done.
    rewrite H1, H2, H3, H4, H5, H6, Hc. cbn [app] in Hp. by rewrite Hp.
  - cbn [print parse_value]. rewrite quote_cons. chars.
    rewrite Ascii.eqb_refl, parse_quote.
    by rewrite string_of_list_ascii_of_string.
  - rewrite print_arr in Hfuel |- *. rewrite wf_arr in Hwf.
    cbn [length] in Hfuel. rewrite length_app in Hfuel. cbn [length] in Hfuel.
    cbn [parse_value]. chars. rewrite <- app_assoc. cbn [app].
    destruct l as [|x l]; [by chars|].
    destruct (print_head x) as (c & tl & Hx & Hws & Hc & _).
    assert (Hhd : exists tl', print_elems (x :: l) = c :: tl').
    { destruct l; [cbn [print_elems]|rewrite print_elems_cons];
        rewrite Hx; cbn [app]; eauto. }
    destruct Hhd as (tl' & Hhd). rewrite Hhd. cbn [app].
    rewrite skip_ws_head, Hc by done.
    change (c :: tl' ++ "]"%char :: rest) with ((c :: tl') ++ "]"%char :: rest).
    rewrite <- Hhd.
    rewrite reads_back_elems; [done..|lia].
  - rewrite print_obj in Hfuel |- *. rewrite wf_obj in Hwf.
    apply andb_true_iff in Hwf as [Hd Hwf].
    cbn [length] in Hfuel. rewrite length_app in Hfuel. cbn [length] in Hfuel.
    cbn [parse_value]. chars. rewrite <- app_assoc. cbn [app].
    destruct o as [|[k x] o]; [by chars|].
    assert (Hhd : exists tl', print_members ((k, x) :: o) = dquote :: tl').
    { destruct o; [cbn [print_members]|rewrite print_members_cons];
        rewrite quote_cons; cbn [app]; eauto. }
    destruct Hhd as (tl' & Hhd). rewrite Hhd. chars.
    change (dquote :: tl' ++ "}"%char :: rest) with ((dquote :: tl') ++ "}"%char :: rest).
    rewrite <- Hhd.
    rewrite reads_back_members; [|done..|lia].
    by rewrite js_object_of_distinct.
Qed.

(** [JSON.parse(JSON.stringify(v))] is [v]. *)
Theorem JSON_parse_stringify v : wf_jsval v = true -> JSON_parse (JSON_stringify v) = Some v.
Proof.
  intros Hwf. unfold JSON_parse, JSON_stringify.
  rewrite list_ascii_of_string_of_list_ascii.
  pose proof (print_reads_back v Hwf (S (length (print v))) []) as Hp.
  rewrite app_nil_r in Hp. rewrite Hp; [done|lia|done].
Qed.

End JsFacts.
(* ===================================================================== *)
(** * The text that [JSON.stringify] gives                                *)
(* ===================================================================== *)

Module JsMore.
Import Js JsFacts.

(** Not a control character. *)
Definition plain (c : ascii) : bool := (32 <=? N_of_ascii c)%N.

Lemma plain_escape c : Forall (fun x => plain x = true) (escape_char c).
Proof.
  destruct c as [[] [] [] [] [] [] [] []]; vm_compute; repeat constructor.
Qed.

Lemma plain_quote s : Forall (fun x => plain x = true) (quote s).
Proof.
  unfold quote. constructor; [done|]. apply Forall_app. split; [|by constructor].
  induction (list_ascii_of_string s) as [|c l IH]; cbn; [done|].
  apply Forall_app. split; [apply plain_escape|done].
Qed.

Lemma plain_numchar c : is_numchar c = true -> plain c = true.
Proof.
  unfold is_numchar, plain. intros H. apply N.leb_le.
  apply orb_true_iff in H as [H%N.eqb_eq|[H _]%andb_true_iff]; [lia|].
  apply N.leb_le in H. lia.
Qed.

Lemma plain_number n : Forall (fun x => plain x = true) (print_number n).
Proof.
  eapply Forall_impl; [apply numchars_number|]. apply plain_numchar.
Qed.

Lemma plain_elems l :
  Forall (fun v => Forall (fun x => plain x = true) (print v)) l ->
  Forall (fun x => plain x = true) (print_elems l).
Proof.
  induction 1 as [|v l Hv Hl IH]; [done|].
  destruct l as [|w l]; [done|]. rewrite print_elems_cons.
  apply Forall_app. split; [done|]. by constructor.
Qed.

Lemma plain_members o :
  Forall (fun kv => Forall (fun x => plain x = true) (print (snd kv))) o ->
  Forall (fun x => plain x = true) (print_members o).
Proof.
  induction 1 as [|[k v] o Hv Ho IH]; [done|]. cbn [snd] in Hv.
  destruct o as [|m o].
  - change (print_members [(k, v)]) with (quote k ++ ":"%char :: print v).
    apply Forall_app. split; [apply plain_quote|]. by constructor.
  - rewrite print_members_cons. apply Forall_app. split; [apply plain_quote|].
    constructor; [done|]. apply Forall_app. split; [done|]. by constructor.
Qed.

(** The text of a value holds no control character: a line feed, a tab
    and the like are written as escapes. *)
Lemma plain_print v : Forall (fun x => plain x = true) (print v).
Proof.
  induction v as [ |b|n|s|l Hl|o Ho] using jsval_induction.
  - by repeat constructor.
  - destruct b; by repeat constructor.
  - apply plain_number.
  - apply plain_quote.
  - rewrite print_arr. constructor; [done|]. apply Forall_app.
    split; [by apply plain_elems|by constructor].
  - rewrite print_obj. constructor; [done|]. apply Forall_app.
    split; [by apply plain_members|by constructor].
Qed.

Lemma plain_stringify v :
  Forall (fun x => plain x = true) (list_ascii_of_string (JSON_stringify v)).
Proof.
  unfold JSON_stringify. rewrite list_ascii_of_string_of_list_ascii.
  apply plain_print.
Qed.

End JsMore.

(* ===================================================================== *)
(** * Properties of the frame codec                                       *)
(* ===================================================================== *)

Module ProtocolFacts.
Import Js Protocol JsFacts.

(** Decoding fails with a [MalformedFrame] error: it throws, and the
    error thrown is of that name. *)
Definition fails_with_MalformedFrame (r : Result ClientFrame) : Prop :=
  exists e, r = inl e /\ error_name e = "MalformedFrame".

(** The value has no known [type], or lacks a required field of the
    frame its [type] names. *)
Definition lacks_required (v : jsval) : bool :=
  match v with
  | JObj o =>
      let missing k := negb (js_has k o) in
      match js_get "type" o with
      | Some (JStr t) =>
          if String.eqb t "user_message" then missing "content"
          else if String.eqb t "approve" then
            missing "sessionId" || missing "commandId" || missing "decision"
          else if String.eqb t "cancel" then missing "sessionId"
          else true
      | _ => true
      end
  | _ => true
  end.


(** The [details] of the frame, a record, has no own key [__proto__]. *)
Definition no_own_proto (d : option (list (string * jsval))) : bool :=
  match d with
  | Some members => forallb (fun member => negb (own_proto member)) members
  | None => true
  end.

Definition no_proto (f : ServerFrame) : bool :=
  match f with
  | status s => no_own_proto (st_details s)
  | error e => no_own_proto (er_details e)
  | terminate t => no_own_proto (te_details t)
  | item _ | command_prompt _ | heartbeat _ => true
  end.



(** Frames for the closed examples. *)
Definition sample_approve : ClientFrame :=
  approve {| ap_id := Some "123e4567-e89b-12d3-a456-426614174000";
             ap_sessionId := "s1"; ap_commandId := "s1-cmd-A";
             ap_decision := deny; ap_explanation := Some "no" |}.


(** The text of an [approve] frame that has no [commandId]. *)
Definition approve_without_commandId : string :=
  JSON_stringify
    (JObj [("type", JStr "approve"); ("sessionId", JStr "s1");
           ("decision", JStr "allow")]).

Section Facts.
Context `{Externals}.

(** ** What a schema accepts *)

Lemma z_string_inr k v s : z_string k v = inr s -> v = Some (JStr s).
Proof.
  destruct v as [[ | | |s'| | ]|]; cbn; unfold issue; try discriminate.
  by intros [= ->].
Qed.

Lemma z_literal_inr lit k v u : z_literal lit k v = inr u -> v = Some (JStr lit).
Proof.
  destruct v as [[ | | |s| | ]|]; cbn; unfold issue; try discriminate.
  destruct (String.eqb_spec s lit); [by subst|discriminate].
Qed.

Lemma z_decision_inr k v d : z_decision k v = inr d -> exists s, v = Some (JStr s).
Proof.
  destruct v as [[ | | |s| | ]|]; cbn; unfold issue; try discriminate. eauto.
Qed.

Ltac zinv :=
  repeat match goal with
         | Hz : zbind ?m _ = inr _ |- _ =>
             let E := fresh "E" in
             destruct m eqn:E; cbn [zbind] in Hz; [discriminate Hz|]
         end.

Ltac zfacts :=
  repeat match goal with
         | E : _ = inr _ |- _ =>
             first [ apply z_literal_inr in E
                   | apply z_string_inr in E
                   | apply z_decision_inr in E as [? E] ]
         end.

Lemma UserMessageFrameSchema_inr v m :
  UserMessageFrameSchema v = inr m ->
  exists o c, v = JObj o /\ js_get "type" o = Some (JStr "user_message") /\
              js_get "content" o = Some (JStr c).
Proof.
  unfold UserMessageFrameSchema, z_object, at_key, issue.
  destruct v as [ | | | | |o]; try discriminate.
  unfold at_key. intros Hm. zinv. zfacts. eauto.
Qed.

Lemma ApproveFrameSchema_inr v a :
  ApproveFrameSchema v = inr a ->
  exists o, v = JObj o /\ js_get "type" o = Some (JStr "approve") /\
            js_has "sessionId" o = true /\ js_has "commandId" o = true /\
            js_has "decision" o = true.
Proof.
  unfold ApproveFrameSchema, z_object, at_key, issue.
  destruct v as [ | | | | |o]; try discriminate.
  unfold at_key, js_has. intros Ha. zinv. zfacts.
  exists o. repeat match goal with E : js_get _ _ = Some _ |- _ => rewrite E; clear E end. done.
Qed.

Lemma CancelFrameSchema_inr v k :
  CancelFrameSchema v = inr k ->
  exists o, v = JObj o /\ js_get "type" o = Some (JStr "cancel") /\
            js_has "sessionId" o = true.
Proof.
  unfold CancelFrameSchema, z_object, at_key, issue.
  destruct v as [ | | | | |o]; try discriminate.
  unfold at_key, js_has. intros Hk. zinv. zfacts.
  exists o. repeat match goal with E : js_get _ _ = Some _ |- _ => rewrite E; clear E end. done.
Qed.

Lemma lift_inr {A B} (c : A -> B) (p : jsval -> zres A) v b :
  lift c p v = inr b -> exists a, p v = inr a /\ b = c a.
Proof. unfold lift. destruct (p v); cbn; [done|]. intros [= <-]. eauto. Qed.

(** A value that lacks a required field is accepted by no member of the
    union. *)
Lemma ClientFrameSchema_lacking v :
  lacks_required v = true -> exists issues, ClientFrameSchema v = inl issues.
Proof.
  intros Hv. destruct (ClientFrameSchema v) as [issues|f] eqn:Hf; [eauto|].
  exfalso. revert Hf. unfold ClientFrameSchema. cbn [z_union].
  destruct (lift user_message UserMessageFrameSchema v) as [?|f1] eqn:E1.
  2:{ apply lift_inr in E1 as (m & (o & c & -> & Ht & Hc)%UserMessageFrameSchema_inr & _).
      cbn in Hv. unfold js_has in Hv. by rewrite Ht, Hc in Hv. }
  destruct (lift approve ApproveFrameSchema v) as [?|f2] eqn:E2.
  2:{ apply lift_inr in E2 as (a & (o & -> & Ht & H1 & H2 & H3)%ApproveFrameSchema_inr & _).
      cbn in Hv. by rewrite Ht, H1, H2, H3 in Hv. }
  destruct (lift cancel CancelFrameSchema v) as [?|f3] eqn:E3.
  2:{ apply lift_inr in E3 as (k & (o & -> & Ht & H1)%CancelFrameSchema_inr & _).
      cbn in Hv. by rewrite Ht, H1 in Hv. }
  done.
Qed.

(** ** What a schema returns on the object of a frame *)

Lemma all_strings_map l : all_strings (map JStr l) = Some l.
Proof. induction l as [|s l IH]; cbn; [done|by rewrite IH]. Qed.

Ltac schema_eval :=
  unfold lift, UserMessageFrameSchema, ApproveFrameSchema, CancelFrameSchema,
    ItemFrameSchema, CommandPromptFrameSchema, StatusFrameSchema,
    ErrorFrameSchema, HeartbeatFrameSchema, TerminateFrameSchema,
    z_object, at_key, z_configOverrides, ConfigOverrides_to_js, strings_to_js,
    z_optional, z_uuid, z_datetime, z_string_array, z_any, z_record, issue;
  cbn; rewrite ?all_strings_map; cbn;
  repeat (match goal with
          | |- context [is_uuid ?s] => destruct (is_uuid s)
          | |- context [is_datetime ?s] => destruct (is_datetime s)
          end; cbn);
  try congruence.

Lemma ClientFrameSchema_to_js f g :
  ClientFrameSchema (ClientFrame_to_js f) = inr g -> g = f.
Proof.
  destruct f as [[i s c p g']|[i s c d e]|[i s]].
  - destruct i, s, p, g' as [[[m|] [[]|]]|]; cbn; schema_eval.
  - destruct i, d, e; cbn; schema_eval.
  - destruct i; cbn; schema_eval.
Qed.

Lemma z_record_keeps members :
  forallb (fun member => negb (own_proto member)) members = true ->
  List.filter (fun member => negb (own_proto member)) members = members.
Proof.
  induction members as [|member members IH]; cbn; [done|].
  intros [-> Hm]%andb_true_iff. by rewrite IH.
Qed.

Lemma ServerFrameSchema_to_js f g :
  no_proto f = true -> ServerFrameSchema (ServerFrame_to_js f) = inr g -> g = f.
Proof.
  destruct f as [[i r]|[i c l a e]|[i m d]|[i m c r d]|[i t]|[i r d]];
    cbn [no_proto no_own_proto st_details er_details te_details]; intros Hp.
  - destruct i, r; cbn; schema_eval.
  - destruct i, a, e; cbn; schema_eval.
  - destruct i, d; cbn in *; schema_eval; rewrite ?z_record_keeps by done;
      congruence.
  - destruct i, c, r, d; cbn in *; schema_eval; rewrite ?z_record_keeps by done;
      congruence.
  - destruct i; cbn; schema_eval.
  - destruct i, d; cbn in *; schema_eval; rewrite ?z_record_keeps by done;
      congruence.
Qed.

(** ** The object of a frame is a JSON value *)

Lemma wf_strings l : forallb wf_jsval (map JStr l) = true.
Proof. by induction l. Qed.

Lemma wf_ClientFrame_to_js f : wf_jsval (ClientFrame_to_js f) = true.
Proof.
  destruct f as [[i s c p g']|[i s c d e]|[i s]].
  - destruct i, s, p, g' as [[[m|] [p'|]]|]; cbn; by rewrite ?wf_strings.
  - by destruct i, e.
  - by destruct i.
Qed.

Lemma wf_ServerFrame_to_js f :
  wf_server f = true -> wf_jsval (ServerFrame_to_js f) = true.
Proof.
  unfold wf_server, wf_members.
  destruct f as [[i r]|[i c l a e]|[i m d]|[i m c r d]|[i t]|[i r d]];
    cbn [it_responseItem cp_applyPatch st_details er_details te_details].
  - destruct i, r; cbn; intros Hw; by rewrite ?Hw.
  - destruct i, a, e; cbn; intros Hw; by rewrite ?Hw, ?wf_strings.
  - destruct i, d; cbn; intros Hw; by rewrite ?Hw.
  - destruct i, c, r, d; cbn; intros Hw; by rewrite ?Hw.
  - by destruct i.
  - destruct i, d; cbn; intros Hw; by rewrite ?Hw.
Qed.


(** C9, as the code has it.  When the JSON of the input string has no
    known [type] or lacks a required field of the frame its [type] names,
    [decodeClientFrame] throws the [ZodError] of the schema library; it
    returns no frame, and the error it throws is not a [MalformedFrame]
    error: it holds the issues found, not the raw payload. *)
Theorem decode_rejects_incomplete_frames (raw : string) (v : jsval) :
  JSON_parse raw = Some v -> lacks_required v = true ->
  (exists issues, decodeClientFrame raw = inl (ZodError issues)) /\
  (forall f, decodeClientFrame raw <> inr f) /\
  ~ fails_with_MalformedFrame (decodeClientFrame raw).
Proof.
  intros Hraw Hv. destruct (ClientFrameSchema_lacking v Hv) as [issues Hi].
  assert (Hd : decodeClientFrame raw = inl (ZodError issues)).
  { unfold decodeClientFrame, schema_parse. by rewrite Hraw, Hi. }
  rewrite Hd. split; [by exists issues|]. split; [done|].
  intros (e & [= <-] & Hname). discriminate Hname.
Qed.

End Facts.



Lemma decode_rejects_incomplete_frames_witness :
  exists issues,
    decodeClientFrame (H := sample_externals) approve_without_commandId
    = inl (ZodError issues).
Proof.
  apply (@decode_rejects_incomplete_frames sample_externals
           approve_without_commandId
           (JObj [("type", JStr "approve"); ("sessionId", JStr "s1");
                  ("decision", JStr "allow")]));
    vm_compute; reflexivity.
Defined.

(** C9 fails on the code.  An [approve] frame without [commandId] is
    refused, but with the [ZodError] of the schema library: no
    [MalformedFrame] error is thrown. *)
Lemma approve_without_commandId_throws_ZodError :
  decodeClientFrame (H := sample_externals) approve_without_commandId
  = inl (ZodError [{| issue_code := "invalid_union"; issue_path := [] |}]) /\
  ~ fails_with_MalformedFrame
      (decodeClientFrame (H := sample_externals) approve_without_commandId).
Proof.
  split; [by vm_compute|].
  intros (e & He & Hname). vm_compute in He. injection He as <-. discriminate Hname.
Qed.

End ProtocolFacts.
(* ===================================================================== *)
(** * The frame codec: what encoding gives                                *)
(* ===================================================================== *)

Module ProtocolMore.
Import Js Protocol JsFacts ProtocolFacts.

Section Facts.
Context `{Externals}.

(** The text of an encoded frame, and what decoding it gives. *)
Lemma encodeClientFrame_text f json :
  encodeClientFrame f = inr json ->
  json = JSON_stringify (ClientFrame_to_js f) /\ decodeClientFrame json = inr f.
Proof.
  unfold encodeClientFrame, decodeClientFrame, schema_parse.
  destruct (ClientFrameSchema (ClientFrame_to_js f)) as [|g] eqn:Hg; [done|].
  apply ClientFrameSchema_to_js in Hg as Hgf. subst g. intros [= <-].
  split; [done|].
  by rewrite JSON_parse_stringify, Hg by apply wf_ClientFrame_to_js.
Qed.

Lemma encodeServerFrame_text f json :
  wf_server f = true -> no_proto f = true -> encodeServerFrame f = inr json ->
  json = JSON_stringify (ServerFrame_to_js f) /\ decodeServerFrame json = inr f.
Proof.
  intros Hw Hp. unfold encodeServerFrame, decodeServerFrame, schema_parse.
  destruct (ServerFrameSchema (ServerFrame_to_js f)) as [|g] eqn:Hg; [done|].
  apply ServerFrameSchema_to_js in Hg as Hgf; [|done]. subst g. intros [= <-].
  split; [done|].
  by rewrite JSON_parse_stringify, Hg by by apply wf_ServerFrame_to_js.
Qed.

End Facts.
End ProtocolMore.

(* ===================================================================== *)
(** * Properties of the stream transport                                  *)
(* ===================================================================== *)

Module TransportFacts.
Import Js Protocol Transport.

(** The reader [r] with [chunk] added to its buffer. *)
Definition fed (r : Reader) (chunk : Buffer) : Reader :=
  {| buffer := buffer r ++ chunk;
     readingLength := readingLength r;
     expectedLength := expectedLength r |}.

Lemma fed_nil r : fed r [] = r.
Proof. destruct r. unfold fed. cbn. by rewrite app_nil_r. Qed.

Lemma fed_app r c1 c2 : fed (fed r c1) c2 = fed r (c1 ++ c2).
Proof. unfold fed. cbn. by rewrite app_assoc. Qed.

Lemma readUInt32BE_app b c : 4 <= length b -> readUInt32BE (b ++ c) = readUInt32BE b.
Proof. destruct b as [|? [|? [|? [|? ?]]]]; cbn; (lia || done). Qed.

Ltac norm := cbn [fed buffer readingLength expectedLength] in *.
Ltac absurd_len := exfalso; norm; rewrite ?length_app, ?length_drop in *; lia.

Lemma take_message_cut r m r' c :
  take_message r = Cut m r' -> take_message (fed r c) = Cut m (fed r' c).
Proof.
  unfold take_message. destruct (decide (expectedLength r <= length (buffer r)));
    [|done].
  intros [= <- <-]. norm.
  destruct (decide (expectedLength r <= length (buffer r ++ c))); [|absurd_len].
  unfold fed. norm. by rewrite take_app_le, drop_app_le.
Qed.

(** More input does not change a message that could be cut already. *)
Lemma lp_iter_cut r m r' c :
  lp_iter r = Cut m r' -> lp_iter (fed r c) = Cut m (fed r' c).
Proof.
  unfold lp_iter. destruct (decide (length (buffer r) = 0)); [done|].
  destruct (decide (length (buffer (fed r c)) = 0)); [absurd_len|].
  norm. destruct (readingLength r).
  - destruct (decide (4 <= length (buffer r))); [|done].
    destruct (decide (4 <= length (buffer r ++ c))); [|absurd_len].
    rewrite readUInt32BE_app, drop_app_le by done.
    apply (take_message_cut {| buffer := drop 4 (buffer r); readingLength := false;
                                expectedLength := readUInt32BE (buffer r) |}).
  - apply take_message_cut.
Qed.

(** Where the loop stopped for want of input it takes up again. *)
Lemma lp_iter_break r r' c :
  lp_iter r = Break r' -> lp_iter (fed r c) = lp_iter (fed r' c).
Proof.
  unfold lp_iter at 1. destruct (decide (length (buffer r) = 0)); [by intros [= <-]|].
  destruct (readingLength r) eqn:Hrl.
  - destruct (decide (4 <= length (buffer r))); [|by intros [= <-]].
    unfold take_message. norm.
    destruct (decide (readUInt32BE (buffer r) <= length (drop 4 (buffer r)))); [done|].
    intros [= <-]. unfold lp_iter. norm. rewrite Hrl.
    destruct (decide (length (buffer r ++ c) = 0)); [absurd_len|].
    destruct (decide (4 <= length (buffer r ++ c))); [|absurd_len].
    rewrite readUInt32BE_app, drop_app_le by done.
    destruct (decide (length (drop 4 (buffer r) ++ c) = 0)) as [Hc|]; [|done].
    unfold take_message. norm.
    destruct (decide (readUInt32BE (buffer r) <= length (drop 4 (buffer r) ++ c)));
      [absurd_len|done].
  - unfold take_message.
    destruct (decide (expectedLength r <= length (buffer r))); [done|]. by intros [= <-].
Qed.

Lemma lp_iter_stable r r' : lp_iter r = Break r' -> lp_iter r' = Break r'.
Proof.
  unfold lp_iter at 1.
  destruct (decide (length (buffer r) = 0)) as [Hnil|Hnil].
  { intros [= <-]. unfold lp_iter. by rewrite decide_True. }
  destruct (readingLength r) eqn:Hrl.
  - destruct (decide (4 <= length (buffer r))) as [H4|H4].
    + unfold take_message. norm.
      destruct (decide (readUInt32BE (buffer r) <= length (drop 4 (buffer r))));
        [done|].
      intros [= <-]. unfold lp_iter, take_message. norm.
      destruct (decide (length (drop 4 (buffer r)) = 0)); [done|].
      destruct (decide (readUInt32BE (buffer r) <= length (drop 4 (buffer r)))); done.
    + intros [= <-]. unfold lp_iter. rewrite Hrl.
      destruct (decide (length (buffer r) = 0)); [done|].
      destruct (decide (4 <= length (buffer r))); done.
  - unfold take_message.
    destruct (decide (expectedLength r <= length (buffer r))) as [Hl|Hl]; [done|].
    intros [= <-]. unfold lp_iter, take_message. rewrite Hrl.
    destruct (decide (length (buffer r) = 0)); [done|].
    destruct (decide (expectedLength r <= length (buffer r))); done.
Qed.

Lemma indexOf_app c b k i : indexOf c b = Some i -> indexOf c (b ++ k) = Some i.
Proof.
  revert i. induction b as [|x b IH]; intros i; cbn; [done|].
  destruct (Ascii.eqb x c); [done|].
  destruct (indexOf c b) as [j|]; cbn; [|done].
  intros [= <-]. by rewrite (IH j).
Qed.

Lemma nd_iter_cut r m r' c :
  nd_iter r = Cut m r' -> nd_iter (fed r c) = Cut m (fed r' c).
Proof.
  unfold nd_iter. destruct (indexOf newline (buffer r)) as [i|] eqn:Hi; [|done].
  intros [= <- <-]. cbn [fed buffer]. rewrite (indexOf_app _ _ _ _ Hi).
  apply indexOf_lt in Hi. unfold fed. cbn [buffer readingLength expectedLength].
  rewrite take_app_le, drop_app_le by lia. done.
Qed.

Lemma nd_iter_break r r' : nd_iter r = Break r' -> r' = r.
Proof.
  unfold nd_iter. destruct (indexOf newline (buffer r)); [done|]. by intros [= <-].
Qed.

Section Facts.
Context `{Externals}.

(** The two loops, by their bodies. *)
Lemma lp_loop_unfold r :
  lp_loop r =
  match lp_iter r with
  | Break r' => ([], inr r')
  | Cut messageBuffer r' =>
      match decodeClientFrame (toString_utf8 messageBuffer) with
      | inr f => let '(fs, e) := lp_loop r' in (f :: fs, e)
      | inl err => ([], inl err)
      end
  end.
Proof. funelim (lp_loop r); by rewrite E. Qed.

Lemma nd_loop_unfold r :
  nd_loop r =
  match nd_iter r with
  | Break r' => ([], inr r')
  | Cut lineBuffer r' =>
      if trim_is_empty (toString_utf8 lineBuffer) then nd_loop r'
      else
        match decodeClientFrame (toString_utf8 lineBuffer) with
        | inr f => let '(fs, e) := nd_loop r' in (f :: fs, e)
        | inl err => ([], inl err)
        end
  end.
Proof. funelim (nd_loop r); by rewrite E. Qed.

(** What a loop gives on a longer buffer, from what it gives on the
    shorter one: the same frames first, and then what the loop gives on
    the buffer it had left with the new input added; or the same error. *)
Definition absorbs (loop : Reader -> list ClientFrame * (Error + Reader))
  (r : Reader) (c : Buffer) : Prop :=
  match loop r with
  | (fs, inr r') =>
      loop (fed r c) = (let '(fs', e) := loop (fed r' c) in (fs ++ fs', e))
  | (fs, inl err) => loop (fed r c) = (fs, inl err)
  end.

Lemma lp_loop_absorbs r c : absorbs lp_loop r c.
Proof.
  unfold absorbs. funelim (lp_loop r).
  - rewrite (lp_loop_unfold (fed r c)), (lp_iter_break _ _ _ E).
    rewrite <- lp_loop_unfold. by destruct (lp_loop (fed r' c)).
  - rewrite (lp_loop_unfold (fed r c)), (lp_iter_cut _ _ _ c E).
    destruct (decodeClientFrame (toString_utf8 messageBuffer)) as [err|f]; [done|].
    specialize (H0 f c). destruct (lp_loop r') as [fs [err|r'']].
    + by rewrite H0.
    + rewrite H0. by destruct (lp_loop (fed r'' c)).
Qed.

Lemma nd_loop_absorbs r c : absorbs nd_loop r c.
Proof.
  unfold absorbs. funelim (nd_loop r).
  - replace r' with r by (symmetry; by eapply nd_iter_break).
    by destruct (nd_loop (fed r c)).
  - rewrite (nd_loop_unfold (fed r c)), (nd_iter_cut _ _ _ c E).
    destruct (trim_is_empty (toString_utf8 lineBuffer)); [by apply H0|].
    destruct (decodeClientFrame (toString_utf8 lineBuffer)) as [err|f]; [done|].
    specialize (H1 f c). destruct (nd_loop r') as [fs [err|r'']].
    + by rewrite H1.
    + rewrite H1. by destruct (nd_loop (fed r'' c)).
Qed.

(** A loop leaves a reader on which it has nothing to do. *)
Lemma lp_loop_stable r fs r' : lp_loop r = (fs, inr r') -> lp_loop r' = ([], inr r').
Proof.
  revert fs. funelim (lp_loop r); intros fs'.
  - intros [= <- <-]. by rewrite lp_loop_unfold, (lp_iter_stable _ _ E).
  - destruct (decodeClientFrame (toString_utf8 messageBuffer)); [done|].
    destruct (lp_loop r') as [fs [err|r'']] eqn:Hl; [done|].
    intros [= <- <-]. by eapply H0.
Qed.

Lemma nd_loop_stable r fs r' : nd_loop r = (fs, inr r') -> nd_loop r' = ([], inr r').
Proof.
  revert fs. funelim (nd_loop r); intros fs'.
  - intros [= <- <-]. rewrite nd_loop_unfold.
    assert (Hr : r' = r) by (by eapply nd_iter_break).
    rewrite Hr at 1. by rewrite E.
  - destruct (trim_is_empty (toString_utf8 lineBuffer)); [by eapply H0|].
    destruct (decodeClientFrame (toString_utf8 lineBuffer)); [done|].
    destruct (nd_loop r') as [fs [err|r'']] eqn:Hl; [done|].
    intros [= <- <-]. by eapply H1.
Qed.

Definition loop (useLengthPrefix : bool) : Reader -> list ClientFrame * (Error + Reader) :=
  if useLengthPrefix then lp_loop else nd_loop.

Lemma on_chunk_loop lp c r : on_chunk lp c r = loop lp (fed r c).
Proof. unfold on_chunk, loop, fed. by destruct lp. Qed.

Lemma loop_absorbs lp r c : absorbs (loop lp) r c.
Proof. destruct lp; [apply lp_loop_absorbs|apply nd_loop_absorbs]. Qed.

Lemma loop_stable lp r fs r' : loop lp r = (fs, inr r') -> loop lp r' = ([], inr r').
Proof. destruct lp; [apply lp_loop_stable|apply nd_loop_stable]. Qed.

(** Chunk by chunk, or all at once. *)
Lemma on_chunks_concat lp chunks r :
  loop lp r = ([], inr r) ->
  on_chunks lp chunks r = on_chunk lp (concat chunks) r.
Proof.
  revert r. induction chunks as [|c chunks IH]; intros r Hr; cbn [on_chunks concat].
  { by rewrite on_chunk_loop, fed_nil. }
  rewrite !on_chunk_loop, <- fed_app.
  pose proof (loop_absorbs lp (fed r c) (concat chunks)) as Ha. unfold absorbs in Ha.
  destruct (loop lp (fed r c)) as [fs [err|r']] eqn:Hl; [done|].
  rewrite Ha, IH, on_chunk_loop; [done|]. by eapply loop_stable.
Qed.

(** C4. Whatever the octets and however they are cut into chunks,
    [readFrames] yields the frames, and ends, as it does on the whole
    sequence in one chunk; so under the newline-delimited framing and
    under the length-prefixed one. *)
Theorem readFrames_chunking (useLengthPrefix : bool) (chunks : list Buffer) :
  readFrames useLengthPrefix chunks = readFrames useLengthPrefix [concat chunks].
Proof.
  unfold readFrames.
  assert (H0 : loop useLengthPrefix reader0 = ([], inr reader0)).
  { unfold loop. destruct useLengthPrefix;
      [by rewrite lp_loop_unfold|by rewrite nd_loop_unfold]. }
  rewrite (on_chunks_concat _ chunks _ H0). cbn [on_chunks].
  destruct (on_chunk useLengthPrefix (concat chunks) reader0) as [fs [err|r]];
    by rewrite ?app_nil_r.
Qed.

End Facts.
End TransportFacts.
(* ===================================================================== *)
(** * The stream transport: what is written is what is read               *)
(* ===================================================================== *)

Module TransportMore.
Import Js Protocol Transport JsFacts JsMore ProtocolFacts ProtocolMore TransportFacts.

(** ** The length header *)

Lemma N_of_octet n : (n < 256)%N -> N_of_ascii (ascii_of_N n) = n.
Proof. apply N_ascii_embedding. Qed.

Lemma writeUInt32BE_Some n b :
  writeUInt32BE n = Some b ->
  (n < 4294967296)%N /\ length b = 4 /\
  forall rest, readUInt32BE (b ++ rest) = N.to_nat n.
Proof.
  unfold writeUInt32BE. destruct (N.ltb_spec n 4294967296); [|done].
  intros [= <-]. split; [done|]. split; [done|]. intros rest. cbn [app readUInt32BE].
  rewrite !N_of_octet.
  - f_equal.
    pose proof (N.div_mod n 256 ltac:(done)).
    pose proof (N.div_mod (n / 256) 256 ltac:(done)).
    pose proof (N.div_mod (n / 256 / 256) 256 ltac:(done)).
    pose proof (N.mod_lt n 256 ltac:(done)).
    pose proof (N.mod_lt (n / 256) 256 ltac:(done)).
    pose proof (N.mod_lt (n / 256 / 256) 256 ltac:(done)).
    replace (n / 16777216)%N with (n / 256 / 256 / 256)%N
      by (rewrite !N.Div0.div_div; done).
    replace (n / 65536)%N with (n / 256 / 256)%N
      by (rewrite !N.Div0.div_div; done).
    lia.
  - apply N.mod_lt. done.
  - apply N.mod_lt. done.
  - apply N.mod_lt. done.
  - apply N.Div0.div_lt_upper_bound. cbn. lia.
Qed.

(** X9.  The length header.  A length below 2^32 is written as four
    octets, and [readUInt32BE] reads it back from any buffer that starts
    with them; a length of 2^32 or more is not written: [writeUInt32BE]
    throws. *)
Theorem length_header_round_trip (n : N) :
  ((n < 4294967296)%N ->
   exists b, writeUInt32BE n = Some b /\ length b = 4 /\
             forall rest, readUInt32BE (b ++ rest) = N.to_nat n) /\
  ((4294967296 <= n)%N -> writeUInt32BE n = None).
Proof.
  split; intros Hn.
  - destruct (writeUInt32BE n) as [b|] eqn:Hb.
    + exists b. split; [done|]. by apply writeUInt32BE_Some in Hb as (_ & ? & ?).
    + unfold writeUInt32BE in Hb. destruct (N.ltb_spec n 4294967296); [done|lia].
  - unfold writeUInt32BE. destruct (N.ltb_spec n 4294967296); [lia|done].
Qed.

(** ** Octets and text *)

(** What is used of the UTF-8 conversions of [Buffer]: decoding undoes
    encoding, encoding goes through concatenation, a line feed is one
    octet, and text without control characters has no line-feed octet. *)
Record utf8_laws `{Externals} : Prop := {
  utf8_to_from : forall s, toString_utf8 (fromString_utf8 s) = s;
  utf8_app : forall s t,
    fromString_utf8 (s +:+ t) = fromString_utf8 s ++ fromString_utf8 t;
  utf8_newline : fromString_utf8 (String newline EmptyString) = [newline];
  utf8_plain : forall s,
    Forall (fun c => plain c = true) (list_ascii_of_string s) ->
    newline ∉ fromString_utf8 s
}.

Lemma sample_utf8_laws : utf8_laws (H := sample_externals).
Proof.
  split; cbn.
  - apply string_of_list_ascii_of_string.
  - intros s t. induction s as [|c s IH]; simpl; [done|]. by f_equal.
  - done.
  - intros s Hs Hin. rewrite Forall_forall in Hs. by specialize (Hs _ Hin).
Qed.

Lemma indexOf_fresh c b rest : c ∉ b -> indexOf c (b ++ c :: rest) = Some (length b).
Proof.
  induction b as [|x b IH]; cbn.
  - intros _. by rewrite Ascii.eqb_refl.
  - intros [Hx Hb]%not_elem_of_cons. destruct (Ascii.eqb_spec x c); [congruence|].
    by rewrite IH.
Qed.

Lemma indexOf_absent c b : c ∉ b -> indexOf c b = None.
Proof.
  induction b as [|x b IH]; cbn; [done|].
  intros [Hx Hb]%not_elem_of_cons. destruct (Ascii.eqb_spec x c); [congruence|].
  by rewrite IH.
Qed.

Lemma drop_past {A} (b : list A) x tail : drop (S (length b)) (b ++ x :: tail) = tail.
Proof. induction b as [|y b IH]; cbn; [done|]. exact IH. Qed.

(** The reader that waits for a length, or for a line, with [b] in its
    buffer. *)
Definition reading (b : Buffer) (el : nat) : Reader :=
  {| buffer := b; readingLength := true; expectedLength := el |}.

Section Facts.
Context `{Externals}.

(** A client frame on the wire, laid out as [writeFrame] lays out a
    server frame; under the newline-delimited framing this is what the
    demo client sends. *)
Definition client_octets (useLengthPrefix : bool) (f : ClientFrame) : option Buffer :=
  match encodeClientFrame f with
  | inr jsonPayload => frame_octets useLengthPrefix jsonPayload
  | inl _ => None
  end.

Lemma frame_text_not_blank f :
  trim_is_empty (JSON_stringify (ClientFrame_to_js f)) = false.
Proof.
  unfold trim_is_empty, JSON_stringify. rewrite list_ascii_of_string_of_list_ascii.
  by destruct f.
Qed.

Lemma loop_done lp el : loop lp (reading [] el) = ([], inr (reading [] el)).
Proof. destruct lp; cbn [loop]; [by rewrite lp_loop_unfold|by rewrite nd_loop_unfold]. Qed.

Hypothesis laws : utf8_laws.

Lemma line_octets json :
  Forall (fun c => plain c = true) (list_ascii_of_string json) ->
  fromString_utf8 (json +:+ String newline EmptyString)
  = fromString_utf8 json ++ [newline] /\
  newline ∉ fromString_utf8 json.
Proof.
  intros Hp. rewrite (utf8_app laws), (utf8_newline laws).
  split; [done|]. by apply (utf8_plain laws).
Qed.

Lemma octets_nonempty json :
  json <> EmptyString -> 0 < length (fromString_utf8 json).
Proof.
  intros Hne. destruct (fromString_utf8 json) as [|c l] eqn:E; [|cbn; lia].
  destruct Hne. rewrite <- (utf8_to_from laws json), E.
  rewrite <- (utf8_to_from laws EmptyString). f_equal.
  pose proof (utf8_app laws EmptyString EmptyString) as Ha.
  change (EmptyString +:+ EmptyString) with EmptyString in Ha.
  apply (f_equal length) in Ha. rewrite length_app in Ha.
  revert Ha. destruct (fromString_utf8 EmptyString); [done|cbn; lia].
Qed.

(** One frame off the front of the buffer. *)
Lemma loop_reads_one lp f o tail el :
  client_octets lp f = Some o ->
  exists el',
    loop lp (reading (o ++ tail) el)
    = (let '(fs, e) := loop lp (reading tail el') in (f :: fs, e)).
Proof.
  unfold client_octets. destruct (encodeClientFrame f) as [|json] eqn:He; [done|].
  destruct (encodeClientFrame_text f json He) as [Hjson Hdec].
  unfold frame_octets. destruct lp; cbn [loop].
  - destruct (writeUInt32BE _) as [header|] eqn:Hh; [|done]. intros [= <-].
    apply writeUInt32BE_Some in Hh as (_ & Hlen & Hread).
    exists (length (fromString_utf8 json)).
    rewrite lp_loop_unfold. unfold lp_iter, take_message, reading.
    cbn [buffer readingLength expectedLength].
    rewrite decide_False by (rewrite !length_app; lia).
    rewrite decide_True by (rewrite !length_app; lia).
    rewrite <- !app_assoc, Hread, Nat2N.id, drop_app_length' by done.
    rewrite decide_True by (rewrite length_app; lia).
    rewrite take_app_length, drop_app_length, (utf8_to_from laws), Hdec. done.
  - intros [= <-]. exists el.
    destruct (line_octets json) as [-> Hnl].
    { rewrite Hjson. apply plain_stringify. }
    rewrite nd_loop_unfold. unfold nd_iter, reading. cbn [buffer readingLength expectedLength].
    rewrite <- !app_assoc. cbn [app]. rewrite (indexOf_fresh _ _ _ Hnl).
    rewrite take_app_length.
    rewrite drop_past.
    rewrite (utf8_to_from laws), Hdec.
    replace (trim_is_empty json) with false
      by (rewrite Hjson; symmetry; apply frame_text_not_blank).
    done.
Qed.

Lemma loop_reads lp fs os tail el :
  Forall2 (fun f o => client_octets lp f = Some o) fs os ->
  exists el',
    loop lp (reading (concat os ++ tail) el)
    = (let '(fs', e) := loop lp (reading tail el') in (fs ++ fs', e)).
Proof.
  intros Hall. revert el. induction Hall as [|f o fs os Hf Hall IH]; intros el.
  { exists el. cbn. by destruct (loop lp (reading tail el)). }
  cbn [concat]. rewrite <- app_assoc.
  destruct (loop_reads_one lp f o (concat os ++ tail) el Hf) as [el1 ->].
  destruct (IH el1) as [el' ->]. exists el'.
  by destruct (loop lp (reading tail el')).
Qed.

Lemma on_chunks_whole lp chunks :
  on_chunks lp chunks reader0 = loop lp (reading (concat chunks) 0).
Proof.
  rewrite on_chunks_concat; [by rewrite on_chunk_loop|].
  apply (loop_done lp 0).
Qed.

(** X10.  What is written is what is read, under both framings.  Take
    client frames that pass their schema, lay each out as [writeFrame]
    lays a frame out (the text and a line feed, or the length in four
    octets and the text), and cut the octets into chunks at will:
    [readFrames] yields these frames, in order, and ends without
    error. *)
Theorem written_frames_are_read (useLengthPrefix : bool)
  (fs : list ClientFrame) (os chunks : list Buffer) :
  Forall2 (fun f o => client_octets useLengthPrefix f = Some o) fs os ->
  concat chunks = concat os ->
  readFrames useLengthPrefix chunks = (fs, EndOfInput).
Proof.
  intros Hall Hcat. unfold readFrames. rewrite on_chunks_whole, Hcat.
  rewrite <- (app_nil_r (concat os)).
  destruct (loop_reads useLengthPrefix fs os [] 0 Hall) as [el' ->].
  rewrite loop_done. unfold last_line, reading. cbn [buffer].
  rewrite decide_False by (cbn; lia). by rewrite !app_nil_r.
Qed.

(** X12.  The end of the input.  Under the newline-delimited framing a
    last frame that has no line feed after it is still yielded.  Under
    the length-prefixed framing a last frame that is cut short (in its
    length or in its text) is dropped: no frame and no error. *)
Theorem end_of_input (fs : list ClientFrame) (os chunks : list Buffer)
  (f : ClientFrame) :
  (forall json,
     Forall2 (fun f o => client_octets false f = Some o) fs os ->
     encodeClientFrame f = inr json ->
     concat chunks = concat os ++ fromString_utf8 json ->
     readFrames false chunks = (fs ++ [f], EndOfInput)) /\
  (forall part missing,
     Forall2 (fun f o => client_octets true f = Some o) fs os ->
     client_octets true f = Some (part ++ missing) -> missing <> [] ->
     concat chunks = concat os ++ part ->
     readFrames true chunks = (fs, EndOfInput)).
Proof.
  split.
  - intros json Hall He Hcat. unfold readFrames. rewrite on_chunks_whole, Hcat.
    destruct (loop_reads false fs os (fromString_utf8 json) 0 Hall) as [el' ->].
    destruct (encodeClientFrame_text f json He) as [Hjson Hdec].
    assert (Hnl : newline ∉ fromString_utf8 json).
    { apply (utf8_plain laws). rewrite Hjson. apply plain_stringify. }
    cbn [loop]. rewrite nd_loop_unfold. unfold nd_iter, reading. cbn [buffer].
    rewrite (indexOf_absent _ _ Hnl). unfold last_line. cbn [buffer].
    rewrite (utf8_to_from laws), Hdec.
    replace (trim_is_empty json) with false
      by (rewrite Hjson; symmetry; apply frame_text_not_blank).
    rewrite decide_True, app_nil_r; [done|].
    apply octets_nonempty. rewrite Hjson. unfold JSON_stringify. by destruct f.
  - intros part missing Hall Hf Hmiss Hcat. unfold readFrames.
    rewrite on_chunks_whole, Hcat.
    destruct (loop_reads true fs os part 0 Hall) as [el' ->].
    assert (Hloop : exists r, loop true (reading part el') = ([], inr r)).
    { revert Hf. unfold client_octets.
      destruct (encodeClientFrame f) as [|json]; [done|]. cbn [frame_octets].
      destruct (writeUInt32BE _) as [header|] eqn:Hh; [|done]. intros [= Ho].
      apply writeUInt32BE_Some in Hh as (_ & Hlen & Hread).
      cbn [loop]. rewrite lp_loop_unfold. unfold lp_iter, take_message, reading.
      cbn [buffer readingLength expectedLength].
      destruct (decide (length part = 0)); [eauto|].
      destruct (decide (4 <= length part)) as [H4|]; [|eauto].
      assert (Hlenm : 0 < length missing) by (destruct missing; [done|cbn; lia]).
      assert (Hlens : length header + length (fromString_utf8 json)
                      = length part + length missing).
      { by rewrite <- !length_app, Ho. }
      assert (Hpart : part = header ++ drop 4 part).
      { rewrite <- (take_drop 4 part) at 1. f_equal.
        apply (f_equal (take 4)) in Ho.
        rewrite take_app_le in Ho by lia. rewrite take_app_le in Ho by lia.
        rewrite <- Ho. rewrite <- Hlen. by rewrite take_ge. }
      assert (Hr : readUInt32BE part = length (fromString_utf8 json)).
      { rewrite Hpart, Hread. apply Nat2N.id. }
      rewrite Hr, decide_False; [eauto|]. rewrite length_drop. lia. }
    destruct Hloop as [r ->]. unfold last_line.
    destruct (decide _); by rewrite !app_nil_r.
Qed.

(** X11.  After a frame that cannot be decoded nothing is read: what
    follows in the input, in this chunk or in later ones, yields no
    frame. *)
Theorem decode_error_ends_reading (useLengthPrefix : bool)
  (chunks more : list Buffer) (err : Error) :
  snd (readFrames useLengthPrefix chunks) = DecodeFailed err ->
  readFrames useLengthPrefix (chunks ++ more) = readFrames useLengthPrefix chunks.
Proof.
  unfold readFrames.
  assert (Hgen : forall r fs,
    on_chunks useLengthPrefix chunks r = (fs, inl err) ->
    on_chunks useLengthPrefix (chunks ++ more) r = (fs, inl err)).
  { induction chunks as [|c chunks IH]; intros r fs; cbn [on_chunks app]; [done|].
    destruct (on_chunk useLengthPrefix c r) as [fs1 [e|r']]; [done|].
    destruct (on_chunks useLengthPrefix chunks r') as [fs2 [e|r'']] eqn:Hc;
      [|done].
    intros [= <- <-]. by rewrite (IH r' fs2 Hc). }
  destruct (on_chunks useLengthPrefix chunks reader0) as [fs [e|r]] eqn:Hc;
    cbn [snd]; [|done].
  intros [= ->]. by rewrite (Hgen _ _ Hc).
Qed.

End Facts.

(** ** Closed examples *)

Definition approve_octets (useLengthPrefix : bool) : Buffer :=
  default [] (client_octets (H := sample_externals) useLengthPrefix sample_approve).

Definition approve_text : string :=
  match encodeClientFrame (H := sample_externals) sample_approve with
  | inr json => json
  | inl _ => EmptyString
  end.

Lemma length_header_round_trip_witness :
  exists b, writeUInt32BE 258 = Some b /\ length b = 4 /\
            forall rest, readUInt32BE (b ++ rest) = 258.
Proof.
  apply (proj1 (length_header_round_trip 258)). reflexivity.
Defined.

Lemma written_frames_are_read_witness :
  readFrames (H := sample_externals) true
    [take 7 (approve_octets true); drop 7 (approve_octets true)]
  = ([sample_approve], EndOfInput).
Proof.
  apply (written_frames_are_read (H := sample_externals) sample_utf8_laws true
           [sample_approve] [approve_octets true]).
  - constructor; [vm_compute; reflexivity|constructor].
  - vm_compute; reflexivity.
Defined.

Lemma end_of_input_witness :
  readFrames (H := sample_externals) false [list_ascii_of_string approve_text]
  = ([sample_approve], EndOfInput).
Proof.
  apply (proj1 (end_of_input (H := sample_externals) sample_utf8_laws [] []
                  [list_ascii_of_string approve_text] sample_approve)
           approve_text).
  - constructor.
  - vm_compute; reflexivity.
  - vm_compute; reflexivity.
Defined.

Lemma decode_error_ends_reading_witness :
  let bad := list_ascii_of_string "oops" ++ [newline] in
  readFrames (H := sample_externals) false ([bad] ++ [approve_octets false])
  = readFrames (H := sample_externals) false [bad].
Proof.
  intros bad.
  apply (decode_error_ends_reading (H := sample_externals) false [bad]
           [approve_octets false] SyntaxError).
  vm_compute; reflexivity.
Defined.

End TransportMore.

(* ===================================================================== *)
(** * Properties of the confirmation queue                                *)
(* ===================================================================== *)

Module QueueFacts.
Import Protocol Queue.

Section MapFacts.
Context {V : Type}.
Implicit Types (m : list (string * V)) (k : string) (v : V).

Lemma map_get_set k k' v m :
  map_get k' (map_set k v m) = if decide (k' = k) then Some v else map_get k' m.
Proof.
  induction m as [|[k0 v0] m IH]; cbn.
  - case_decide as E; [subst; by rewrite String.eqb_refl|].
    destruct (String.eqb_spec k' k); congruence.
  - destruct (String.eqb_spec k k0) as [->|Hk]; cbn.
    + case_decide as E; [subst; by rewrite String.eqb_refl|].
      destruct (String.eqb_spec k' k0); congruence.
    + destruct (String.eqb_spec k' k0) as [->|Hk'].
      * case_decide; congruence.
      * apply IH.
Qed.

Lemma map_get_delete k k' m :
  map_get k' (map_delete k m) = if decide (k' = k) then None else map_get k' m.
Proof.
  induction m as [|[k0 v0] m IH]; cbn.
  - by case_decide.
  - destruct (String.eqb_spec k k0) as [->|Hk]; cbn.
    + rewrite IH. case_decide as E; [done|].
      destruct (String.eqb_spec k' k0); congruence.
    + destruct (String.eqb_spec k' k0) as [->|Hk'].
      * case_decide; congruence.
      * apply IH.
Qed.

Lemma map_get_keys k m : is_Some (map_get k m) <-> k ∈ map_keys m.
Proof.
  induction m as [|[k0 v0] m IH]; cbn.
  - split; [by intros [? ?]|by intros ?%elem_of_nil].
  - destruct (String.eqb_spec k k0) as [->|Hk].
    + split; [intros _; apply list_elem_of_here|eauto].
    + rewrite IH, elem_of_cons. split; [tauto|]. intros [?|?]; [congruence|done].
Qed.

End MapFacts.

(** The common part of [resolve], [reject], the loop body of
    [clearAllForSession] and a timer that fires: entry [c] goes, its timer
    is cleared and its promise gets the call [s]. *)
Definition discharge (c : string) (s : Settlement) (q : ConfirmationQueue)
  : ConfirmationQueue :=
  match map_get c (pending q) with
  | Some pc =>
      set_pending (map_delete c (pending q))
        (settle (resolvers pc) s (clearTimeout (timer pc) q))
  | None => q
  end.

Lemma resolve_discharge c d e q :
  resolve c d e q =
  (map_has c (pending q), discharge c (Resolved {| decision := d; explanation := e |}) q).
Proof. unfold resolve, discharge, map_has. by destruct (map_get c (pending q)). Qed.

Lemma reject_discharge c r q :
  reject c r q = (map_has c (pending q), discharge c (Rejected r) q).
Proof. unfold reject, discharge, map_has. by destruct (map_get c (pending q)). Qed.

Lemma clear_one_discharge m q c :
  clear_one (m, q) c =
  (snd (matches m c),
   if fst (matches m c)
   then discharge c (Rejected (session_ended_message c)) q else q).
Proof.
  unfold clear_one, discharge. destruct (matches m c) as [[] m']; cbn; [|done].
  by destruct (map_get c (pending q)).
Qed.

(** Whatever the matcher does, the loop of [clearAllForSession] changes
    the queue by discharging entries only. *)
Lemma clear_loop_preserve (P : ConfirmationQueue -> Prop) l m q :
  (forall q c, P q -> P (discharge c (Rejected (session_ended_message c)) q)) ->
  P q -> P (snd (fold_left clear_one l (m, q))).
Proof.
  intros Hd. revert m q. induction l as [|c l IH]; intros m q HP; [done|].
  cbn [fold_left]. rewrite clear_one_discharge. apply IH.
  destruct (fst (matches m c)); [by apply Hd|done].
Qed.

(** A matcher whose test does not depend on the tests before: a prefix,
    or a regular expression without the [g] and [y] flags. *)
Definition stateless (m : Matcher) : bool :=
  match m with
  | Prefix _ => true
  | Pattern r => negb (global_or_sticky r)
  end.

Definition matching (m : Matcher) (commandId : string) : bool :=
  fst (matches m commandId).

Lemma matches_stateless m c :
  stateless m = true -> matches m c = (matching m c, m).
Proof.
  unfold matching, matches, test. destruct m as [prefix|r]; cbn; [done|].
  intros ->%negb_true_iff. by destruct (exec r 0 c).
Qed.

(** The body of the loop for such a matcher. *)
Definition clear_pure (m : Matcher) (q : ConfirmationQueue) (c : string)
  : ConfirmationQueue :=
  if matching m c then discharge c (Rejected (session_ended_message c)) q else q.

Lemma clear_loop_stateless l m q :
  stateless m = true ->
  fold_left clear_one l (m, q) = (m, fold_left (clear_pure m) l q).
Proof.
  intros Hm. revert q. induction l as [|c l IH]; intros q; [done|].
  cbn [fold_left]. rewrite clear_one_discharge, matches_stateless by done.
  cbn [fst snd]. apply IH.
Qed.

Ltac qsimpl :=
  unfold clearTimeout, settle, set_pending, set_timers, set_promises, set_clock;
  cbn [pending approvalTimeoutMs clock timers promises resolvers timer
       deadline forCommand forPromise fst snd].

Definition entry_ok (q : ConfirmationQueue) (k : string) (pc : PendingConfirmation) : Prop :=
  (exists tm, timers q !! timer pc = Some (Some tm) /\
              forCommand tm = k /\ forPromise tm = resolvers pc) /\
  promises q !! resolvers pc = Some [].

(** What holds of every queue that [register], [resolve], [reject],
    [clearAllForSession] and the timers make from a new one: the entries
    and the timers that are set correspond one to one, every entry holds
    a promise that no call has settled, and no two entries share one. *)
Record Inv (q : ConfirmationQueue) : Prop := {
  inv_entry : forall k pc, map_get k (pending q) = Some pc -> entry_ok q k pc;
  inv_timer : forall i tm, timers q !! i = Some (Some tm) ->
      map_get (forCommand tm) (pending q)
      = Some {| resolvers := forPromise tm; timer := i |};
  inv_promise : forall k1 k2 pc1 pc2,
      map_get k1 (pending q) = Some pc1 -> map_get k2 (pending q) = Some pc2 ->
      resolvers pc1 = resolvers pc2 -> k1 = k2
}.

Lemma Inv_new t : Inv (new_queue t).
Proof. split; cbn; intros; discriminate || by rewrite ?lookup_nil in *. Qed.

Lemma Inv_set_clock t q : Inv q -> Inv (set_clock t q).
Proof. intros [H1 H2 H3]. split; cbn; eauto. Qed.

Lemma Inv_discharge c s q : Inv q -> Inv (discharge c s q).
Proof.
  intros [H1 H2 H3]. unfold discharge.
  destruct (map_get c (pending q)) as [pc|] eqn:Hc; [|by split].
  destruct (H1 _ _ Hc) as [(tm & Htm & Hk & Hp) Hpr].
  split; unfold entry_ok; qsimpl.
  - intros k pc'. rewrite map_get_delete. case_decide as Hne; [done|]. intros Hk'.
    destruct (H1 _ _ Hk') as [(tm' & Htm' & Hk2 & Hp') Hpr'].
    split.
    + exists tm'. split; [|done].
      rewrite list_lookup_insert_ne; [done|].
      intros Heq. rewrite Heq, Htm' in Htm. congruence.
    + rewrite list_lookup_alter_ne; [done|].
      intros Heq. apply Hne. symmetry. by eapply H3.
  - intros i tm'. destruct (decide (timer pc = i)) as [<-|Hi].
    + intros Hl. apply lookup_lt_Some in Hl as Hlt. rewrite length_insert in Hlt.
      rewrite list_lookup_insert_eq in Hl by done. discriminate.
    + rewrite list_lookup_insert_ne by done. intros Hl.
      rewrite map_get_delete. case_decide as Heq; [|by apply H2].
      apply H2 in Hl. rewrite Heq, Hc in Hl. injection Hl as ->. by destruct Hi.
  - intros k1 k2 pc1 pc2. rewrite !map_get_delete.
    repeat case_decide; try done. apply H3.
Qed.

Lemma Inv_register c q : Inv q -> Inv (snd (register c q)).
Proof.
  intros HI. unfold register.
  set (q1 := match map_get c (pending q) with
             | Some existing => clearTimeout (timer existing) q
             | None => q end).
  assert (Hq1p : pending q1 = pending q) by (unfold q1; by destruct (map_get c (pending q))).
  assert (Hq1r : promises q1 = promises q) by (unfold q1; by destruct (map_get c (pending q))).
  assert (Hq1l : length (timers q1) = length (timers q)).
  { unfold q1. destruct (map_get c (pending q)); qsimpl; by rewrite ?length_insert. }
  assert (Hq1t : forall i tm, timers q1 !! i = Some (Some tm) ->
            timers q !! i = Some (Some tm) /\ forCommand tm <> c).
  { intros i tm. unfold q1. destruct HI as [H1 H2 H3].
    destruct (map_get c (pending q)) as [pc|] eqn:Hc; qsimpl.
    - destruct (decide (timer pc = i)) as [<-|Hi].
      + intros Hl. apply lookup_lt_Some in Hl as Hlt. rewrite length_insert in Hlt.
        rewrite list_lookup_insert_eq in Hl by done. discriminate.
      + rewrite list_lookup_insert_ne by done. intros Hl. split; [done|].
        intros Heq. apply H2 in Hl. rewrite Heq, Hc in Hl. injection Hl as ->.
        by destruct Hi.
    - intros Hl. split; [done|]. intros Heq. apply H2 in Hl. congruence. }
  assert (Hq1t' : forall k pc tm, k <> c -> map_get k (pending q) = Some pc ->
            timers q !! timer pc = Some (Some tm) -> timers q1 !! timer pc = Some (Some tm)).
  { intros k pc tm Hk Hg Hl. unfold q1. destruct HI as [H1 H2 H3].
    destruct (map_get c (pending q)) as [pc0|] eqn:Hc; qsimpl; [|done].
    rewrite list_lookup_insert_ne; [done|]. intros Heq.
    destruct (H1 _ _ Hc) as [(tm0 & Htm0 & Hk0 & _) _].
    destruct (H1 _ _ Hg) as [(tm1 & Htm1 & Hk1 & _) _].
    rewrite Heq, Htm1 in Htm0. congruence. }
  destruct HI as [H1 H2 H3]. split; unfold entry_ok; qsimpl; rewrite ?Hq1p, ?Hq1r.
  - intros k pc. rewrite map_get_set. case_decide as Hk.
    + intros [= <-]. subst k. split; cbn.
      * eexists. split; [rewrite lookup_app_r by lia; by rewrite Nat.sub_diag|done].
      * rewrite lookup_app_r by lia. by rewrite Nat.sub_diag.
    + intros Hg. destruct (H1 _ _ Hg) as [(tm & Htm & Hk' & Hp) Hpr]. split.
      * exists tm. split; [|done]. apply lookup_app_l_Some. by eapply Hq1t'.
      * by apply lookup_app_l_Some.
  - intros i tm Hl. rewrite map_get_set.
    apply lookup_app_Some in Hl as [Hl|[Hge Hl]].
    + apply Hq1t in Hl as [Hl Hne]. case_decide; [done|]. by apply H2.
    + rewrite Hq1l in *. apply list_lookup_singleton_Some in Hl as [Hi [= <-]]. cbn.
      rewrite decide_True by done. do 2 f_equal. lia.
  - intros k1 k2 pc1 pc2. rewrite !map_get_set.
    repeat case_decide; subst; try done.
    + intros [= <-] Hg. cbn. destruct (H1 _ _ Hg) as [_ Hpr].
      apply lookup_lt_Some in Hpr. lia.
    + intros Hg [= <-]. cbn. destruct (H1 _ _ Hg) as [_ Hpr].
      apply lookup_lt_Some in Hpr. lia.
    + apply H3.
Qed.

Lemma fire_cases i q :
  Inv q ->
  fire i q = q \/
  exists tm, timers q !! i = Some (Some tm) /\ (deadline tm <= clock q)%N /\
    fire i q = discharge (forCommand tm) (Rejected (timeout_message (forCommand tm))) q.
Proof.
  intros [H1 H2 H3]. unfold fire.
  destruct (timers q !! i) as [[tm|]|] eqn:Hi; auto.
  destruct (N.leb_spec (deadline tm) (clock q)); auto.
  right. exists tm. repeat split; [done|].
  unfold on_timeout, discharge, map_has. qsimpl.
  by rewrite (H2 _ _ Hi).
Qed.

Lemma fold_preserve {A} (f : ConfirmationQueue -> A -> ConfirmationQueue)
  (P : ConfirmationQueue -> Prop) (l : list A) q :
  (forall q a, P q -> P (f q a)) -> P q -> P (fold_left f l q).
Proof. intros Hf. revert q. induction l; cbn; auto. Qed.

Lemma Inv_fire i q : Inv q -> Inv (fire i q).
Proof.
  intros HI. destruct (fire_cases i q HI) as [->|(tm & _ & _ & ->)]; [done|].
  by apply Inv_discharge.
Qed.

Lemma Inv_clear_pure m q k : Inv q -> Inv (clear_pure m q k).
Proof.
  intros HI. unfold clear_pure. destruct (matching m k); [|done].
  by apply Inv_discharge.
Qed.

Lemma Inv_step q op : Inv q -> Inv (step q op).
Proof.
  intros HI. destruct op; cbn; unfold clearAllForSession, elapse.
  - by apply Inv_register.
  - rewrite resolve_discharge. by apply Inv_discharge.
  - rewrite reject_discharge. by apply Inv_discharge.
  - apply clear_loop_preserve; [intros; by apply Inv_discharge|done].
  - apply fold_preserve; [intros; by apply Inv_fire|]. by apply Inv_set_clock.
Qed.

Lemma Inv_run ops q : Inv q -> Inv (run ops q).
Proof. unfold run. apply fold_preserve. intros. by apply Inv_step. Qed.

(** Promise [p] exists and no entry of the map holds it. *)
Definition retired (p : nat) (q : ConfirmationQueue) : Prop :=
  p < length (promises q) /\
  forall k pc, map_get k (pending q) = Some pc -> resolvers pc <> p.

(** [retired], with the calls that [p] has got. *)
Definition retired_with (p : nat) (calls : list Settlement) (q : ConfirmationQueue) : Prop :=
  retired p q /\ settlements p q = calls.

Lemma retired_discharge p calls c s q :
  retired_with p calls q -> retired_with p calls (discharge c s q).
Proof.
  intros [[Hlt Hr] Hs]. unfold discharge.
  destruct (map_get c (pending q)) as [pc|] eqn:Hc; [|done].
  split; [split|]; unfold settlements; qsimpl.
  - by rewrite length_alter.
  - intros k pc'. rewrite map_get_delete. case_decide; [done|]. apply Hr.
  - rewrite list_lookup_alter_ne; [done|]. by eapply Hr.
Qed.

Lemma retired_register p calls c q :
  retired_with p calls q -> retired_with p calls (snd (register c q)).
Proof.
  intros [[Hlt Hr] Hs]. unfold register.
  set (q1 := match map_get c (pending q) with
             | Some existing => clearTimeout (timer existing) q
             | None => q end).
  assert (Hq1p : pending q1 = pending q) by (unfold q1; by destruct (map_get c (pending q))).
  assert (Hq1r : promises q1 = promises q) by (unfold q1; by destruct (map_get c (pending q))).
  split; [split|]; unfold settlements; qsimpl; rewrite ?Hq1p, ?Hq1r.
  - rewrite length_app. lia.
  - intros k pc. rewrite map_get_set. case_decide.
    + intros [= <-]. cbn. lia.
    + apply Hr.
  - by rewrite lookup_app_l.
Qed.

Lemma retired_fire p calls i q :
  Inv q -> retired_with p calls q -> retired_with p calls (fire i q).
Proof.
  intros HI. destruct (fire_cases i q HI) as [->|(tm & _ & _ & ->)]; [done|].
  apply retired_discharge.
Qed.

Lemma retired_step p calls q op :
  Inv q -> retired_with p calls q -> retired_with p calls (step q op).
Proof.
  intros HI Hr. destruct op; cbn; unfold clearAllForSession, elapse.
  - by apply retired_register.
  - rewrite resolve_discharge. by apply retired_discharge.
  - rewrite reject_discharge. by apply retired_discharge.
  - apply clear_loop_preserve; [|done]. intros. by apply retired_discharge.
  - apply (fold_preserve _ (fun q => Inv q /\ retired_with p calls q)).
    + intros q' k [? ?]. split; [by apply Inv_fire|by apply retired_fire].
    + split; [by apply Inv_set_clock|done].
Qed.

Lemma retired_run p calls ops q :
  Inv q -> retired_with p calls q -> retired_with p calls (run ops q).
Proof.
  intros HI Hr. unfold run.
  apply (fold_preserve _ (fun q => Inv q /\ retired_with p calls q)); [|done].
  intros q' op [? ?]. split; [by apply Inv_step|by apply retired_step].
Qed.

(** A timer that is cleared stays so. *)
Definition cleared (i : nat) (q : ConfirmationQueue) : Prop :=
  timers q !! i = Some None.

Lemma cleared_discharge i c s q : cleared i q -> cleared i (discharge c s q).
Proof.
  unfold cleared, discharge. intros Hi.
  destruct (map_get c (pending q)) as [pc|]; [|done]. qsimpl.
  destruct (decide (timer pc = i)) as [<-|]; [|by rewrite list_lookup_insert_ne].
  rewrite list_lookup_insert_eq; [done|]. by eapply lookup_lt_Some.
Qed.

Lemma cleared_insert i j (ts : list (option Timeout)) :
  ts !! i = Some None -> <[j := None]> ts !! i = Some None.
Proof.
  intros Hi. destruct (decide (j = i)) as [->|]; [|by rewrite list_lookup_insert_ne].
  rewrite list_lookup_insert_eq; [done|]. by eapply lookup_lt_Some.
Qed.

Lemma cleared_register i c q : cleared i q -> cleared i (snd (register c q)).
Proof.
  unfold cleared, register. intros Hi.
  destruct (map_get c (pending q)) as [pc|]; qsimpl; apply lookup_app_l_Some; [|done].
  by apply cleared_insert.
Qed.

Lemma cleared_fire i j q : cleared i q -> cleared i (fire j q).
Proof.
  unfold cleared, fire. intros Hi.
  destruct (timers q !! j) as [[tm|]|] eqn:Hj; [|done..].
  destruct (deadline tm <=? clock q)%N; [|done].
  unfold on_timeout. destruct (map_has _ _); qsimpl; by apply cleared_insert.
Qed.

Lemma cleared_step i q op : cleared i q -> cleared i (step q op).
Proof.
  intros Hi. destruct op; cbn; unfold clearAllForSession, elapse.
  - by apply cleared_register.
  - rewrite resolve_discharge. by apply cleared_discharge.
  - rewrite reject_discharge. by apply cleared_discharge.
  - apply clear_loop_preserve; [|done]. intros. by apply cleared_discharge.
  - apply fold_preserve; [intros; by apply cleared_fire|done].
Qed.

Lemma cleared_run i ops q : cleared i q -> cleared i (run ops q).
Proof. unfold run. apply fold_preserve. intros. by apply cleared_step. Qed.

(** Command [c] is registered with promise [p] and timer [t], due at
    [d], and nothing has touched the registration. *)
Definition waiting (c : string) (p t : nat) (d : N) (q : ConfirmationQueue) : Prop :=
  map_get c (pending q) = Some {| resolvers := p; timer := t |} /\
  timers q !! t = Some (Some {| deadline := d; forCommand := c; forPromise := p |}) /\
  settlements p q = [].





Lemma waiting_discharge c p t d c' s q :
  Inv q -> c' <> c -> waiting c p t d q -> waiting c p t d (discharge c' s q).
Proof.
  intros [H1 H2 H3] Hne (Hc & Ht & Hs). unfold discharge.
  destruct (map_get c' (pending q)) as [pc|] eqn:Hc'; [|done].
  destruct (H1 _ _ Hc') as [(tm & Htm & Hk & Hp) Hpr].
  split; [|split]; unfold settlements; qsimpl.
  - rewrite map_get_delete. by rewrite decide_False.
  - rewrite list_lookup_insert_ne; [done|]. intros Heq.
    rewrite Heq, Ht in Htm. injection Htm as <-. by destruct Hne.
  - rewrite list_lookup_alter_ne; [done|]. intros Heq.
    destruct Hne. by eapply H3.
Qed.






Lemma map_get_discharge_None c c' s q :
  map_get c (pending q) = None -> map_get c (pending (discharge c' s q)) = None.
Proof.
  intros Hc. unfold discharge. destruct (map_get c' (pending q)); qsimpl; [|done].
  rewrite map_get_delete. by case_decide.
Qed.




Lemma discharge_absent c s q :
  map_get c (pending q) = None -> discharge c s q = q.
Proof. unfold discharge. by intros ->. Qed.


Lemma register_waiting c q :
  Inv q ->
  let '(p, q1) := register c q in
  waiting c p (length (timers q))
    (clock q + setTimeout_delay (approvalTimeoutMs q)) q1.
Proof.
  intros HI. unfold register, waiting, settlements.
  destruct (map_get c (pending q)) as [pc|]; qsimpl.
  - rewrite map_get_set, decide_True by done. rewrite length_insert.
    split; [done|]. split.
    + rewrite lookup_app_r; rewrite length_insert; [|lia]. by rewrite Nat.sub_diag.
    + rewrite lookup_app_r by lia. by rewrite Nat.sub_diag.
  - rewrite map_get_set, decide_True by done.
    split; [done|]. split.
    + rewrite lookup_app_r by lia. by rewrite Nat.sub_diag.
    + rewrite lookup_app_r by lia. by rewrite Nat.sub_diag.
Qed.


Lemma setTimeout_delay_in_range ms :
  (1 <= ms)%N -> (ms <= TIMEOUT_MAX)%N -> setTimeout_delay ms = ms.
Proof.
  intros H1 H2. unfold setTimeout_delay.
  destruct (N.ltb_spec ms 1), (N.ltb_spec TIMEOUT_MAX ms); cbn; lia.
Qed.


(** C6.  A command id is registered.  Calling [resolve] and then
    [reject] on it, or [reject] and then [resolve], settles the
    registration once: the first call returns [true] and is the only call
    to the promise's resolving functions, so that the promise holds the
    first call's outcome; the second call finds no pending entry, returns
    [false] and leaves the queue as it is.  Both calls return a value:
    neither order throws. *)
Theorem resolve_then_reject_settles_once (q : ConfirmationQueue) (c : string)
  (d : Decision) (e : option string) (reason : string) :
  let p := fst (register c q) in
  let q0 := snd (register c q) in
  (let q1 := snd (resolve c d e q0) in
   fst (resolve c d e q0) = true /\
   reject c reason q1 = (false, q1) /\
   settlements p q1 = [Resolved {| decision := d; explanation := e |}] /\
   map_has c (pending q1) = false) /\
  (let q1 := snd (reject c reason q0) in
   fst (reject c reason q0) = true /\
   resolve c d e q1 = (false, q1) /\
   settlements p q1 = [Rejected reason] /\
   map_has c (pending q1) = false).
Proof.
  assert (Hreg : forall s,
    map_has c (pending (snd (register c q))) = true /\
    map_get c (pending (discharge c s (snd (register c q)))) = None /\
    settlements (fst (register c q)) (discharge c s (snd (register c q))) = [s]).
  { intros s. unfold register, discharge, map_has, settlements.
    destruct (map_get c (pending q)) as [pc|]; qsimpl;
      rewrite map_get_set, decide_True by done; qsimpl;
      rewrite map_get_delete, decide_True by done;
      (split; [done|]); (split; [done|]);
      rewrite <- (Nat.add_0_r (length (promises q))), alter_app_r;
      rewrite Nat.add_0_r, lookup_app_r by lia; by rewrite Nat.sub_diag. }
  cbn zeta. rewrite !resolve_discharge, !reject_discharge. cbn [fst snd].
  split.
  - destruct (Hreg (Resolved {| decision := d; explanation := e |})) as (H1 & H2 & H3).
    rewrite (discharge_absent _ _ _ H2).
    unfold map_has. by rewrite H2, H3; unfold map_has in H1; destruct (map_get c _).
  - destruct (Hreg (Rejected reason)) as (H1 & H2 & H3).
    rewrite (discharge_absent _ _ _ H2).
    unfold map_has. by rewrite H2, H3; unfold map_has in H1; destruct (map_get c _).
Qed.

(** C10.  A command id is pending and [register] is called with it
    again.  The second call returns a new promise and puts its own entry
    in place of the first one; the timer of the first registration is
    cleared and stays so, and whatever the queue is asked to do later
    ([register], [resolve], [reject], [clearAllForSession], the passing of
    time), neither resolving function of the first promise is ever
    called: it stays unsettled. *)
Theorem overwritten_registration_never_settles (timeout : N) (ops0 later : list Op)
  (c : string) (first : PendingConfirmation) :
  let q := run ops0 (new_queue timeout) in
  map_get c (pending q) = Some first ->
  let second := fst (register c q) in
  let q' := snd (register c q) in
  map_get c (pending q') = Some {| resolvers := second; timer := length (timers q) |} /\
  second <> resolvers first /\
  settlements (resolvers first) (run later q') = [] /\
  timers (run later q') !! timer first = Some None.
Proof.
  intros q Hc second q'.
  assert (HI : Inv q) by apply Inv_run, Inv_new.
  destruct (inv_entry q HI _ _ Hc) as [(tm & Htm & _) Hp].
  assert (Hq' : map_get c (pending q')
                = Some {| resolvers := second; timer := length (timers q) |} /\
                second = length (promises q) /\
                promises q' = promises q ++ [[]] /\
                (forall k pc, k <> c -> map_get k (pending q') = Some pc ->
                              map_get k (pending q) = Some pc) /\
                timers q' !! timer first = Some None).
  { unfold q', second, register. rewrite Hc. qsimpl.
    rewrite map_get_set, decide_True, length_insert by done.
    repeat split; [|apply lookup_app_l_Some, list_lookup_insert_eq;
                     by eapply lookup_lt_Some].
    intros k pc Hk. by rewrite map_get_set, decide_False. }
  destruct Hq' as (Hnew & Hsec & Hprom & Hold & Hcl).
  assert (HI' : Inv q') by (by apply Inv_register).
  clearbody second q'.
  assert (Hret : retired_with (resolvers first) [] q').
  { split; [split|].
    - rewrite Hprom, length_app. apply lookup_lt_Some in Hp. lia.
    - intros k pc Hk Heq. destruct (decide (k = c)) as [->|Hne].
      + rewrite Hnew in Hk. injection Hk as <-. cbn in Heq.
        apply lookup_lt_Some in Hp. lia.
      + apply Hold in Hk; [|done]. destruct Hne.
        exact (inv_promise q HI _ _ _ _ Hk Hc Heq).
    - unfold settlements. rewrite Hprom. by rewrite lookup_app_l_Some with (x := []). }
  split; [done|]. split.
  { rewrite Hsec. apply lookup_lt_Some in Hp. lia. }
  split.
  - by apply retired_run.
  - by apply cleared_run.
Qed.

Lemma overwritten_registration_never_settles_witness :
  let q := run [Register "s1-cmd-A"] (new_queue 1000) in
  let later := [Resolve "s1-cmd-A" allow None; Elapse 5000;
                ClearAllForSession (Prefix "s1")] in
  map_get "s1-cmd-A" (pending q) = Some {| resolvers := 0; timer := 0 |} /\
  settlements 0 (run later (snd (register "s1-cmd-A" q))) = [] /\
  timers (run later (snd (register "s1-cmd-A" q))) !! 0 = Some None.
Proof.
  intros q later. split; [reflexivity|].
  pose proof (overwritten_registration_never_settles 1000 [Register "s1-cmd-A"]
                later "s1-cmd-A" {| resolvers := 0; timer := 0 |} eq_refl) as P.
  cbv zeta in P. destruct P as (_ & _ & Hs & Ht). split; [exact Hs|exact Ht].
Defined.

End QueueFacts.
(* ===================================================================== *)
(** * The confirmation queue: invariants and session clearing            *)
(* ===================================================================== *)

Module QueueMore.
Import Protocol Queue QueueFacts.

(** Every promise has got no call, or one call and then no entry of the
    map holds its resolving functions any more. *)
Definition once (q : ConfirmationQueue) : Prop :=
  forall p calls, promises q !! p = Some calls ->
    calls = [] \/
    ((exists s, calls = [s]) /\
     forall k pc, map_get k (pending q) = Some pc -> resolvers pc <> p).

Lemma once_new t : once (new_queue t).
Proof. intros p calls. cbn. by rewrite lookup_nil. Qed.

Lemma once_set_clock t q : once q -> once (set_clock t q).
Proof. done. Qed.

Lemma once_discharge c s q : Inv q -> once q -> once (discharge c s q).
Proof.
  intros [H1 H2 H3] Ho. unfold discharge.
  destruct (map_get c (pending q)) as [pc0|] eqn:Hc; [|done].
  destruct (H1 _ _ Hc) as [_ Hp0].
  intros p calls. qsimpl. destruct (decide (p = resolvers pc0)) as [->|Hne].
  - rewrite list_lookup_alter_eq, Hp0. cbn. intros [= <-]. right. split; [eauto|].
    intros k pc. rewrite map_get_delete. case_decide as Hk; [done|].
    intros Hg Heq. apply Hk. by eapply H3.
  - rewrite list_lookup_alter_ne by done. intros Hl.
    destruct (Ho _ _ Hl) as [->|[Hs Hr]]; [by left|]. right. split; [done|].
    intros k pc. rewrite map_get_delete. case_decide; [done|]. apply Hr.
Qed.

Lemma once_register c q : Inv q -> once q -> once (snd (register c q)).
Proof.
  intros HI Ho. unfold register.
  set (q1 := match map_get c (pending q) with
             | Some existing => clearTimeout (timer existing) q
             | None => q end).
  assert (Hq1p : pending q1 = pending q) by (unfold q1; by destruct (map_get c (pending q))).
  assert (Hq1r : promises q1 = promises q) by (unfold q1; by destruct (map_get c (pending q))).
  intros p calls. qsimpl. rewrite Hq1p, Hq1r.
  intros [Hl|[Hge Hl]]%lookup_app_Some.
  - destruct (Ho _ _ Hl) as [->|[Hs Hr]]; [by left|]. right. split; [done|].
    intros k pc. rewrite map_get_set. case_decide.
    + intros [= <-]. cbn. apply lookup_lt_Some in Hl. lia.
    + apply Hr.
  - apply list_lookup_singleton_Some in Hl as [_ <-]. by left.
Qed.

Lemma once_fire i q : Inv q -> once q -> once (fire i q).
Proof.
  intros HI Ho. destruct (fire_cases i q HI) as [->|(tm & _ & _ & ->)]; [done|].
  by apply once_discharge.
Qed.

Lemma once_step q op : Inv q /\ once q -> Inv (step q op) /\ once (step q op).
Proof.
  intros [HI Ho]. split; [by apply Inv_step|].
  destruct op; cbn; unfold clearAllForSession, elapse.
  - by apply once_register.
  - rewrite resolve_discharge. by apply once_discharge.
  - rewrite reject_discharge. by apply once_discharge.
  - apply (clear_loop_preserve (fun q => Inv q /\ once q)); [|done].
    intros q' k [? ?]. split; [by apply Inv_discharge|by apply once_discharge].
  - apply (fold_preserve _ (fun q => Inv q /\ once q)).
    + intros q' k [? ?]. split; [by apply Inv_fire|by apply once_fire].
    + split; [by apply Inv_set_clock|done].
Qed.

Lemma once_run ops q : Inv q /\ once q -> Inv (run ops q) /\ once (run ops q).
Proof.
  unfold run. apply (fold_preserve _ (fun q => Inv q /\ once q)).
  intros. by apply once_step.
Qed.

(** The registration of [c] was cleared by [clearAllForSession]. *)
Definition session_ended (c : string) (p t : nat) (q : ConfirmationQueue) : Prop :=
  map_get c (pending q) = None /\
  retired_with p [Rejected (session_ended_message c)] q /\
  cleared t q.

Lemma session_ended_discharge c p t c' s q :
  session_ended c p t q -> session_ended c p t (discharge c' s q).
Proof.
  intros (Hc & Hr & Ht). split; [by apply map_get_discharge_None|].
  split; [by apply retired_discharge|by apply cleared_discharge].
Qed.

Lemma waiting_session_ended c p t d q :
  Inv q -> waiting c p t d q ->
  session_ended c p t (discharge c (Rejected (session_ended_message c)) q).
Proof.
  intros [H1 H2 H3] (Hc & Ht & Hs). unfold discharge. rewrite Hc.
  destruct (H1 _ _ Hc) as [_ Hp]. cbn in Hp.
  split; [|split; [split; [split|]|]]; unfold settlements, cleared; qsimpl.
  - rewrite map_get_delete. by rewrite decide_True.
  - rewrite length_alter. by eapply lookup_lt_Some.
  - intros k pc. rewrite map_get_delete. case_decide as Hk; [done|].
    intros Hg Heq. apply Hk. by eapply H3.
  - rewrite list_lookup_alter_eq, Hp. done.
  - apply list_lookup_insert_eq. by eapply lookup_lt_Some.
Qed.

(** The loop of [clearAllForSession] over the keys [l], for a matcher
    that keeps no state. *)
Lemma clear_loop m c p t d l q :
  Inv q ->
  waiting c p t d q \/ session_ended c p t q ->
  let q' := fold_left (clear_pure m) l q in
  Inv q' /\
  (matching m c = false -> waiting c p t d q -> waiting c p t d q') /\
  (session_ended c p t q -> session_ended c p t q') /\
  (matching m c = true -> c ∈ l -> session_ended c p t q').
Proof.
  revert q. induction l as [|k l IH]; intros q HI Hq; cbn.
  { split; [done|]. split; [done|]. split; [done|]. by intros _ ?%elem_of_nil. }
  assert (HI' : Inv (clear_pure m q k)) by (by apply Inv_clear_pure).
  assert (Hstep : (waiting c p t d (clear_pure m q k) /\
                   (matching m c = true -> k <> c)) \/
                  session_ended c p t (clear_pure m q k)).
  { unfold clear_pure. destruct (matching m k) eqn:Hm.
    - destruct Hq as [Hw|Hdone]; [|right; by apply session_ended_discharge].
      destruct (decide (k = c)) as [->|Hne].
      + right. by eapply waiting_session_ended.
      + left. split; [by apply waiting_discharge|done].
    - destruct Hq as [Hw|Hdone]; [|by right].
      left. split; [done|]. intros Hc ->. congruence. }
  destruct (IH (clear_pure m q k) HI') as (HI'' & Hkeepw & Hkeep & Hin).
  { destruct Hstep as [[? _]|?]; auto. }
  split; [done|]. split; [|split].
  - intros Hm Hw. apply Hkeepw; [done|]. unfold clear_pure.
    destruct (matching m k) eqn:Hk; [|done].
    apply waiting_discharge; [done| |done]. intros ->. congruence.
  - intros Hdone. apply Hkeep. unfold clear_pure.
    destruct (matching m k); [|done]. by apply session_ended_discharge.
  - intros Hm [->|Hl]%elem_of_cons.
    + apply Hkeep. destruct Hstep as [[_ Hne]|?]; [|done]. by destruct (Hne Hm).
    + destruct Hstep as [[Hw _]|Hdone]; [by apply Hin|by apply Hkeep].
Qed.

Lemma clear_loop_absent m c l q :
  map_get c (pending q) = None ->
  map_get c (pending (fold_left (clear_pure m) l q)) = None.
Proof.
  revert q. induction l as [|k l IH]; intros q Hc; cbn; [done|].
  apply IH. unfold clear_pure. destruct (matching m k); [|done].
  by apply map_get_discharge_None.
Qed.

Lemma entry_waiting q k pc :
  Inv q -> map_get k (pending q) = Some pc ->
  exists d, waiting k (resolvers pc) (timer pc) d q.
Proof.
  intros HI Hk. destruct (inv_entry q HI _ _ Hk) as [(tm & Htm & Hc & Hp) Hpr].
  destruct tm as [d c p]. cbn in Hc, Hp. subst c p. exists d.
  split; [by destruct pc|]. split; [done|]. unfold settlements. by rewrite Hpr.
Qed.

(** What [clearAllForSession] does to one command id. *)
Lemma clearAllForSession_entry m q k :
  Inv q -> stateless m = true ->
  let q' := clearAllForSession m q in
  match map_get k (pending q) with
  | None => map_get k (pending q') = None
  | Some pc =>
      if matching m k then
        map_get k (pending q') = None /\
        settlements (resolvers pc) q' = [Rejected (session_ended_message k)] /\
        timers q' !! timer pc = Some None
      else
        map_get k (pending q') = Some pc /\
        settlements (resolvers pc) q' = [] /\
        timers q' !! timer pc = timers q !! timer pc
  end.
Proof.
  intros HI Hst q'. unfold q', clearAllForSession.
  rewrite clear_loop_stateless by done. cbn [snd].
  destruct (map_get k (pending q)) as [pc|] eqn:Hk; [|by apply clear_loop_absent].
  destruct (entry_waiting q k pc HI Hk) as [d Hw].
  destruct (clear_loop m k (resolvers pc) (timer pc) d (map_keys (pending q)) q HI)
    as (_ & Hkeepw & _ & Hin); [by left|].
  destruct (matching m k) eqn:Hm.
  - destruct Hin as (Hnone & [_ Hs] & Hcl); [done| |done].
    by apply map_get_keys.
  - destruct (Hkeepw eq_refl Hw) as (Hg & Ht & Hs).
    split; [by destruct pc|]. split; [done|].
    destruct Hw as (_ & Ht0 & _). by rewrite Ht, Ht0.
Qed.

(** [startsWith] is the prefix test. *)
Lemma startsWith_app prefix rest : startsWith (prefix +:+ rest) prefix = true.
Proof.
  induction prefix as [|a prefix IH]; simpl; [by destruct rest|].
  by rewrite Ascii.eqb_refl, IH.
Qed.

Lemma startsWith_trans s a b :
  startsWith s a = true -> startsWith a b = true -> startsWith s b = true.
Proof.
  revert s a. induction b as [|x b IH]; intros s a; [by destruct s|].
  destruct a as [|y a]; [done|]. destruct s as [|z s]; [done|]. cbn.
  intros [Hzy Hs]%andb_true_iff [Hxy Ha]%andb_true_iff.
  apply Ascii.eqb_eq in Hzy, Hxy. subst. rewrite Ascii.eqb_refl. cbn. eauto.
Qed.

(** X1.  In every state of the queue that [register], [resolve],
    [reject], [clearAllForSession] and the timers make from a new one:
    a pending command has its timer armed, for that command, and its
    promise is not settled; no two pending commands share a promise; and
    a timer is armed only for a command that is pending with it. *)
Theorem pending_entries_are_armed (timeout : N) (ops : list Op) :
  let q := run ops (new_queue timeout) in
  (forall k pc, map_get k (pending q) = Some pc ->
     (exists d, timers q !! timer pc
                = Some (Some {| deadline := d; forCommand := k;
                                forPromise := resolvers pc |})) /\
     outcome (resolvers pc) q = None /\
     forall k' pc', map_get k' (pending q) = Some pc' ->
                    resolvers pc' = resolvers pc -> k' = k) /\
  (forall i tm, timers q !! i = Some (Some tm) ->
     map_get (forCommand tm) (pending q)
     = Some {| resolvers := forPromise tm; timer := i |}).
Proof.
  intros q. assert (HI : Inv q) by apply Inv_run, Inv_new.
  split; [|apply (inv_timer q HI)].
  intros k pc Hk. destruct (entry_waiting q k pc HI Hk) as [d (_ & Ht & Hs)].
  split; [eauto|]. split; [unfold outcome; by rewrite Hs|].
  intros k' pc' Hk' Heq. by eapply (inv_promise q HI).
Qed.

(** X2.  No promise of the queue is settled twice: whatever is done with
    the queue, the resolving functions of one promise are called once at
    most. *)
Theorem promise_settles_at_most_once (timeout : N) (ops : list Op) (p : nat) :
  length (settlements p (run ops (new_queue timeout))) <= 1.
Proof.
  destruct (once_run ops (new_queue timeout)) as [_ Ho].
  { split; [apply Inv_new|apply once_new]. }
  unfold settlements.
  destruct (promises (run ops (new_queue timeout)) !! p) as [calls|] eqn:Hp;
    cbn; [|lia].
  destruct (Ho _ _ Hp) as [->|[[s ->] _]]; cbn; lia.
Qed.

(** X3.  Called with a prefix, or with a regular expression that has
    neither the [g] nor the [y] flag, [clearAllForSession] removes the
    pending commands that match and only those.  A command that matches
    is taken out of the map, its timer is cleared and its promise is
    rejected, once, with the session-ended error; a command that does not
    match keeps its entry, its timer and its unsettled promise. *)
Theorem clearAllForSession_clears_matching (timeout : N) (ops : list Op)
  (m : Matcher) (k : string) (pc : PendingConfirmation) :
  let q := run ops (new_queue timeout) in
  let q' := clearAllForSession m q in
  stateless m = true ->
  map_get k (pending q) = Some pc ->
  if matching m k then
    map_get k (pending q') = None /\
    settlements (resolvers pc) q' = [Rejected (session_ended_message k)] /\
    timers q' !! timer pc = Some None
  else
    map_get k (pending q') = Some pc /\
    settlements (resolvers pc) q' = [] /\
    timers q' !! timer pc = timers q !! timer pc.
Proof.
  intros q q' Hst Hk.
  pose proof (clearAllForSession_entry m q k (Inv_run ops _ (Inv_new timeout)) Hst)
    as H.
  cbv zeta in H. fold q in H. by rewrite Hk in H.
Qed.

(** X4.  A decision that arrived in time is final: once [resolve] has
    settled a pending command, nothing that is done with the queue later,
    nor the passing of its deadline, changes the outcome of its promise. *)
Theorem resolved_outcome_is_final (timeout : N) (ops later : list Op)
  (c : string) (pc : PendingConfirmation) (d : Decision) (e : option string) :
  let q := run ops (new_queue timeout) in
  map_get c (pending q) = Some pc ->
  let q1 := snd (resolve c d e q) in
  fst (resolve c d e q) = true /\
  settlements (resolvers pc) (run later q1)
  = [Resolved {| decision := d; explanation := e |}] /\
  timers (run later q1) !! timer pc = Some None.
Proof.
  intros q Hc q1. assert (HI : Inv q) by apply Inv_run, Inv_new.
  unfold q1. rewrite resolve_discharge. cbn [fst snd].
  split; [unfold map_has; by rewrite Hc|].
  set (s := Resolved {| decision := d; explanation := e |}).
  assert (HI1 : Inv (discharge c s q)) by (by apply Inv_discharge).
  destruct (inv_entry q HI _ _ Hc) as [(tm & Htm & _) Hp].
  assert (Hret : retired_with (resolvers pc) [s] (discharge c s q)).
  { unfold discharge. rewrite Hc.
    split; [split|]; unfold settlements; qsimpl.
    - rewrite length_alter. by eapply lookup_lt_Some.
    - intros k pc'. rewrite map_get_delete. case_decide as Hk; [done|].
      intros Hg Heq. apply Hk. by eapply (inv_promise q HI).
    - by rewrite list_lookup_alter_eq, Hp. }
  assert (Hcl : cleared (timer pc) (discharge c s q)).
  { unfold discharge, cleared. rewrite Hc. qsimpl.
    apply list_lookup_insert_eq. by eapply lookup_lt_Some. }
  split; [by apply retired_run|by apply cleared_run].
Qed.

Lemma pending_entries_are_armed_witness :
  let q := run [Register "s1-cmd-A"; Register "s1-cmd-B";
                Resolve "s1-cmd-A" allow None] (new_queue 1000) in
  map_get "s1-cmd-B" (pending q) = Some {| resolvers := 1; timer := 1 |} /\
  outcome 1 q = None.
Proof.
  intros q. split; [reflexivity|].
  destruct (pending_entries_are_armed 1000
              [Register "s1-cmd-A"; Register "s1-cmd-B";
               Resolve "s1-cmd-A" allow None]) as [Hentry _].
  destruct (Hentry "s1-cmd-B" {| resolvers := 1; timer := 1 |} eq_refl)
    as (_ & Hout & _).
  exact Hout.
Defined.

Lemma clearAllForSession_clears_matching_witness :
  let q := run [Register "s1-cmd-A"; Register "s2-cmd-B"] (new_queue 1000) in
  let q' := clearAllForSession (Prefix "s1") q in
  map_get "s1-cmd-A" (pending q) = Some {| resolvers := 0; timer := 0 |} /\
  map_get "s1-cmd-A" (pending q') = None /\
  settlements 0 q' = [Rejected (session_ended_message "s1-cmd-A")].
Proof.
  intros q q'. split; [reflexivity|].
  pose proof (clearAllForSession_clears_matching 1000
                [Register "s1-cmd-A"; Register "s2-cmd-B"] (Prefix "s1")
                "s1-cmd-A" {| resolvers := 0; timer := 0 |} eq_refl eq_refl) as P.
  cbv zeta in P.
  change (matching (Prefix "s1") "s1-cmd-A") with true in P. cbv iota in P.
  destruct P as (Hnone & Hs & _). split; [exact Hnone|exact Hs].
Defined.

(** The regular expression [/^s1-/g]: a match is at index 0 only, and
    ends at index 3. *)
Definition s1_global : RegExp :=
  {| global_or_sticky := true;
     exec := fun i s =>
       match i with
       | 0 => if startsWith s "s1-" then Some 3 else None
       | S _ => None
       end;
     lastIndex := 0 |}.

(** With the [g] flag the test of one id starts where the match in the
    id before ended: of two pending commands of session [s1], the second
    stays pending. *)
Example global_pattern_skips_a_match :
  let q := run [Register "s1-cmd-A"; Register "s1-cmd-B"] (new_queue 1000) in
  let q' := clearAllForSession (Pattern s1_global) q in
  map_keys (pending q) = ["s1-cmd-A"; "s1-cmd-B"] /\
  map_keys (pending q') = ["s1-cmd-B"] /\
  settlements 1 q' = [].
Proof. by vm_compute. Qed.

Lemma resolved_outcome_is_final_witness :
  let q := run [Register "s1-cmd-A"] (new_queue 1000) in
  let later := [Elapse 5000; Reject "s1-cmd-A" "late"] in
  map_get "s1-cmd-A" (pending q) = Some {| resolvers := 0; timer := 0 |} /\
  settlements 0 (run later (snd (resolve "s1-cmd-A" allow None q)))
  = [Resolved {| decision := allow; explanation := None |}].
Proof.
  intros q later. split; [reflexivity|].
  pose proof (resolved_outcome_is_final 1000 [Register "s1-cmd-A"] later
                "s1-cmd-A" {| resolvers := 0; timer := 0 |} allow None eq_refl) as P.
  cbv zeta in P. destruct P as (_ & Hs & _). exact Hs.
Defined.

End QueueMore.

(* ===================================================================== *)
(** * Properties of the agent wrapper                                     *)
(* ===================================================================== *)

Module WrapperFacts.
Import Js Protocol Queue Wrapper QueueFacts.

Ltac wsimpl :=
  unfold emit, set_queue, set_controllers, set_loaded, add_call, answer,
    set_awaiting, set_controller, set_lastResponseId;
  cbn [confirmationQueue controllers AgentLoopInternal calls answers awaiting
       sink session_id currentRunAbortController lastResponseId fst snd].

Section Facts.
Context {Sink : Type} (onFrame : ServerFrame -> Sink -> Sink).

(** The abort controllers only grow in number, and a signal that is
    aborted stays so. *)
Definition grows (cs cs' : list bool) : Prop :=
  length cs <= length cs' /\ forall r, cs !! r = Some true -> cs' !! r = Some true.

Lemma grows_refl cs : grows cs cs.
Proof. by split. Qed.

Lemma grows_trans cs1 cs2 cs3 : grows cs1 cs2 -> grows cs2 cs3 -> grows cs1 cs3.
Proof. intros [? ?] [? ?]. split; [lia|auto]. Qed.

Lemma grows_abort cs r : grows cs (<[r := true]> cs).
Proof.
  split; [by rewrite length_insert|]. intros r' Hr'.
  destruct (decide (r = r')) as [->|]; [|by rewrite list_lookup_insert_ne].
  rewrite list_lookup_insert_eq; [done|]. by eapply lookup_lt_Some.
Qed.

Lemma grows_new cs : grows cs (cs ++ [false]).
Proof.
  split; [rewrite length_app; lia|]. intros r Hr. by apply lookup_app_l_Some.
Qed.

Lemma controllers_fold_emit (frames : list ServerFrame) (env : Env Sink) :
  controllers (fold_left (fun e f => emit onFrame f e) frames env) = controllers env.
Proof. revert env. induction frames as [|f fs IH]; intros env; cbn; [done|]. by rewrite IH. Qed.

Lemma controllers_resume w s (env : Env Sink) :
  controllers (resume onFrame w s env) = controllers env.
Proof.
  unfold resume. destruct (confirmation_result w s) as [frames result]. wsimpl.
  apply controllers_fold_emit.
Qed.

Lemma controllers_run_jobs (env : Env Sink) :
  controllers (run_jobs onFrame env) = controllers env.
Proof.
  unfold run_jobs.
  generalize (filter (fun w => settled (confirmationQueue env) w = true) (awaiting env)).
  generalize (confirmationQueue env) at 1.
  intros q l.
  set (e0 := set_awaiting _ env). change (controllers env) with (controllers e0).
  generalize e0. clear e0. induction l as [|w l IH]; intros e0; cbn; [done|].
  rewrite IH. destruct (outcome (w_promise w) q); [|done]. apply controllers_resume.
Qed.

Lemma cancelCurrentRun_grows reason self (env : Env Sink) :
  grows (controllers env) (controllers (snd (cancelCurrentRun onFrame reason self env))) /\
  currentRunAbortController (fst (cancelCurrentRun onFrame reason self env)) = None.
Proof.
  unfold cancelCurrentRun. destruct (currentRunAbortController self) eqn:E; wsimpl.
  - split; [apply grows_abort|done].
  - split; [apply grows_refl|done].
Qed.

Lemma finally_ok r self r0 :
  currentRunAbortController (finally_ r self) = Some r0 ->
  currentRunAbortController self = Some r0.
Proof.
  unfold finally_. destruct (currentRunAbortController self) eqn:E; [|congruence].
  case_decide; cbn; congruence.
Qed.

(** The controller of the current run has been created. *)
Definition controller_ok (st : Self * Env Sink) : Prop :=
  forall r, currentRunAbortController (fst st) = Some r ->
            r < length (controllers (snd st)).

Lemma section_grows ev (st : Self * Env Sink) :
  controller_ok st ->
  grows (controllers (snd st)) (controllers (snd (section onFrame ev st))) /\
  controller_ok (section onFrame ev st).
Proof.
  destruct st as [self env]. unfold controller_ok. cbn [fst snd]. intros Hok.
  destruct ev; cbn [section].
  - unfold handleUserMessage.
    destruct (negb (AgentLoopInternal env) && negb imported).
    { wsimpl. split; [apply grows_refl|done]. }
    destruct (currentRunAbortController self) as [r0|] eqn:E.
    + pose proof (cancelCurrentRun_grows "new_message_interrupt" self (set_loaded env))
        as [Hg Hn].
      destruct (cancelCurrentRun onFrame "new_message_interrupt" self (set_loaded env))
        as [self1 env1]. cbn [fst snd] in Hg, Hn. wsimpl. split.
      * eapply grows_trans; [exact Hg|apply grows_new].
      * intros r [= <-]. rewrite length_app. cbn. lia.
    + wsimpl. split; [apply grows_new|].
      intros r [= <-]. rewrite length_app. cbn. lia.
  - unfold onItem. destruct (aborted r env); wsimpl; (split; [apply grows_refl|done]).
  - unfold onLoading. destruct (aborted r env); wsimpl; (split; [apply grows_refl|done]).
  - unfold getCommandConfirmation_hook, getCommandConfirmation.
    destruct (aborted r env); wsimpl; [split; [apply grows_refl|done]|].
    destruct (register _ _). wsimpl. split; [apply grows_refl|done].
  - unfold onLastResponseId. split; [apply grows_refl|].
    destruct (aborted r env); wsimpl; done.
  - unfold run_returned. cbn [fst snd]. split; [wsimpl; apply grows_refl|].
    intros r0 Hr0%finally_ok. wsimpl. by apply Hok.
  - unfold run_threw. cbn [fst snd]. split.
    + destruct (aborted r env && _); wsimpl; apply grows_refl.
    + intros r0 Hr0%finally_ok. destruct (aborted r env && _); wsimpl; by apply Hok.
  - unfold handleApprove. wsimpl. split; [apply grows_refl|done].
  - unfold handleCancel.
    pose proof (cancelCurrentRun_grows
                  ("client_cancel_frame_session_" +:+ ca_sessionId frame) self env)
      as [Hg Hn].
    destruct (cancelCurrentRun _ _ self env) as [self1 env1]. cbn [fst snd] in *. wsimpl.
    split; [done|]. by rewrite Hn.
  - unfold cleanup.
    pose proof (cancelCurrentRun_grows "session_cleanup" self env) as [Hg Hn].
    destruct (cancelCurrentRun _ _ self env) as [self1 env1]. cbn [fst snd] in *. wsimpl.
    split; [done|]. by rewrite Hn.
  - wsimpl. split; [apply grows_refl|done].
Qed.

Lemma step_grows (st : Self * Env Sink) ev :
  controller_ok st ->
  grows (controllers (snd st)) (controllers (snd (step onFrame st ev))) /\
  controller_ok (step onFrame st ev).
Proof.
  intros Hok. destruct (section_grows ev st Hok) as [Hg Hok'].
  unfold step. destruct st as [self env].
  destruct (section onFrame ev (self, env)) as [self' env']. cbn [fst snd] in *.
  unfold controller_ok in *. cbn [fst snd] in *.
  by rewrite controllers_run_jobs.
Qed.

Lemma run_grows evs (st : Self * Env Sink) :
  controller_ok st ->
  grows (controllers (snd st)) (controllers (snd (run onFrame evs st))) /\
  controller_ok (run onFrame evs st).
Proof.
  unfold run. revert st. induction evs as [|ev evs IH]; intros st Hok; cbn.
  { split; [apply grows_refl|done]. }
  destruct (step_grows st ev Hok) as [Hg Hok'].
  destruct (IH _ Hok') as [Hg' Hok'']. split; [|done].
  by eapply grows_trans.
Qed.

Lemma controller_ok_new sessionId q (s : Sink) :
  controller_ok (new_wrapper sessionId, new_env q s).
Proof. intros r. cbn. discriminate. Qed.

(** C8. When [cancelCurrentRun] finds a run in flight, it emits the
    status frame that reports the cancellation and sets the abort signal
    of the run; from then on the signal stays set, whatever the handler,
    the engine and the clock do, and every [onItem] call of that run is
    dropped: it emits no frame and changes nothing. *)
Theorem cancelled_run_emits_no_item (before later : list Event)
  (sessionId : string) (q : ConfirmationQueue) (s : Sink)
  (r : nat) (reason : string) (i : jsval) :
  let st := run onFrame before (new_wrapper sessionId, new_env q s) in
  currentRunAbortController (fst st) = Some r ->
  let st1 := cancelCurrentRun onFrame reason (fst st) (snd st) in
  sink (snd st1)
  = onFrame (status_frame ("Agent run cancelled: " +:+ reason)) (sink (snd st)) /\
  aborted r (snd st1) = true /\
  let st2 := run onFrame later st1 in
  aborted r (snd st2) = true /\
  section onFrame (OnItem r i) st2 = st2.
Proof.
  intros st Hr st1.
  destruct (run_grows before (new_wrapper sessionId, new_env q s)
              (controller_ok_new _ _ _)) as [_ Hok].
  fold st in Hok. pose proof (Hok r Hr) as Hlt.
  assert (Hst1 : sink (snd st1)
                 = onFrame (status_frame ("Agent run cancelled: " +:+ reason))
                     (sink (snd st)) /\
                 controllers (snd st1) !! r = Some true /\ controller_ok st1).
  { unfold st1, cancelCurrentRun. rewrite Hr. wsimpl.
    split; [done|]. split; [by apply list_lookup_insert_eq|].
    intros r'. cbn. discriminate. }
  destruct Hst1 as (Hsink & Hab & Hok1). split; [done|].
  split; [unfold aborted; by rewrite Hab|].
  intros st2. destruct (run_grows later st1 Hok1) as [[_ Hg] _]. fold st2 in Hg.
  assert (Hab2 : aborted r (snd st2) = true).
  { unfold aborted. by rewrite (Hg _ Hab). }
  split; [done|]. destruct st2 as [self2 env2]. cbn [section snd] in *.
  unfold onItem. by rewrite Hab2.
Qed.

(** [handleCancel] rejects one command id, made from a new random
    identifier; when no confirmation is pending under that id, the queue
    is left as it is. *)
Lemma handleCancel_queue (frame : CancelFrame) (uuid : string) (self : Self)
  (env : Env Sink) :
  map_get (ca_sessionId frame +:+ "-cmd-" +:+ uuid)
    (pending (confirmationQueue env)) = None ->
  confirmationQueue (snd (handleCancel onFrame frame uuid self env))
  = confirmationQueue env.
Proof.
  intros Hnone. unfold handleCancel, cancelCurrentRun.
  destruct (currentRunAbortController self); wsimpl;
    rewrite reject_discharge; cbn [snd]; by apply discharge_absent.
Qed.

End Facts.


(** ** What the wrapper does to its sink

    The wrapper touches the sink through [onFrame] only, and the frames
    it hands over are [item], [command_prompt], [status] and [error]
    frames: what every such call keeps, every method keeps. *)

Definition from_wrapper (f : ServerFrame) : bool :=
  match f with
  | item _ | command_prompt _ | status _ | error _ => true
  | heartbeat _ | terminate _ => false
  end.

Section SinkFacts.
Context {Sink : Type} (onFrame : ServerFrame -> Sink -> Sink).
Context (P : Sink -> Prop).
Hypothesis onFrame_keeps :
  forall f s, from_wrapper f = true -> P s -> P (onFrame f s).

Lemma cancelCurrentRun_keeps reason self (env : Env Sink) :
  P (sink env) -> P (sink (snd (cancelCurrentRun onFrame reason self env))).
Proof.
  unfold cancelCurrentRun. destruct (currentRunAbortController self); wsimpl; auto.
Qed.

Lemma handleUserMessage_keeps frame imported self (env : Env Sink) :
  P (sink env) ->
  P (sink (snd (handleUserMessage onFrame frame imported self env))).
Proof.
  intros HP. unfold handleUserMessage.
  destruct (negb (AgentLoopInternal env) && negb imported); [wsimpl; auto|].
  destruct (currentRunAbortController self).
  - pose proof (cancelCurrentRun_keeps "new_message_interrupt" self (set_loaded env) HP).
    destruct (cancelCurrentRun onFrame "new_message_interrupt" self (set_loaded env)).
    wsimpl. auto.
  - wsimpl. auto.
Qed.

Lemma resume_keeps w s (env : Env Sink) :
  P (sink env) -> P (sink (resume onFrame w s env)).
Proof.
  unfold resume. destruct s; cbn [confirmation_result fold_left]; wsimpl; auto.
Qed.

Lemma run_jobs_keeps (env : Env Sink) :
  P (sink env) -> P (sink (run_jobs onFrame env)).
Proof.
  unfold run_jobs.
  generalize (filter (fun w => settled (confirmationQueue env) w = true) (awaiting env)).
  generalize (confirmationQueue env) at 1. intros q l.
  set (e0 := set_awaiting _ env). change (sink env) with (sink e0).
  generalize e0. clear e0. induction l as [|w l IH]; intros e0 HP; cbn; [done|].
  apply IH. destruct (outcome (w_promise w) q); [|done]. by apply resume_keeps.
Qed.

Lemma handleCancel_keeps frame uuid self (env : Env Sink) :
  P (sink env) -> P (sink (snd (handleCancel onFrame frame uuid self env))).
Proof.
  intros HP. unfold handleCancel.
  pose proof (cancelCurrentRun_keeps
                ("client_cancel_frame_session_" +:+ ca_sessionId frame) self env HP).
  by destruct (cancelCurrentRun onFrame _ self env).
Qed.

Lemma cleanup_keeps self (env : Env Sink) :
  P (sink env) -> P (sink (snd (cleanup onFrame self env))).
Proof.
  intros HP. unfold cleanup.
  pose proof (cancelCurrentRun_keeps "session_cleanup" self env HP).
  by destruct (cancelCurrentRun onFrame _ self env).
Qed.

Lemma section_keeps ev self (env : Env Sink) :
  P (sink env) -> P (sink (snd (section onFrame ev (self, env)))).
Proof.
  intros HP. destruct ev; cbn [section].
  - pose proof (handleUserMessage_keeps frame imported self env HP).
    by destruct (handleUserMessage onFrame frame imported self env) as [[? ?] ?].
  - unfold onItem. destruct (aborted r env); wsimpl; auto.
  - unfold onLoading. destruct (aborted r env); wsimpl; auto.
  - unfold getCommandConfirmation_hook, getCommandConfirmation.
    destruct (aborted r env); wsimpl; [done|].
    destruct (register _ _). wsimpl. auto.
  - done.
  - unfold run_returned. wsimpl. auto.
  - unfold run_threw. cbn [snd]. destruct (aborted r env && _); wsimpl; auto.
  - done.
  - by apply handleCancel_keeps.
  - by apply cleanup_keeps.
  - done.
Qed.

End SinkFacts.

(** C2, on the code: a confirmation of session [s1] is pending, no run
    is in flight, and [handleCancel] gets the cancel frame of [s1].  The
    id it rejects is made from a fresh random identifier, so the pending
    confirmation stays in the map and its promise stays unsettled;
    [cleanup], the sibling, clears it. *)
Example handleCancel_leaves_confirmation_pending :
  let q := snd (register "s1-cmd-A" (new_queue DEFAULT_APPROVAL_TIMEOUT_MS)) in
  let frame := {| ca_id := None; ca_sessionId := "s1" |} in
  let st := handleCancel record_frame frame "B" (new_wrapper "s1") (new_env q []) in
  let st' := cleanup record_frame (new_wrapper "s1") (new_env q []) in
  (map_has "s1-cmd-A" (pending (confirmationQueue (snd st))) = true /\
   outcome 0 (confirmationQueue (snd st)) = None) /\
  (map_has "s1-cmd-A" (pending (confirmationQueue (snd st'))) = false /\
   outcome 0 (confirmationQueue (snd st'))
   = Some (Rejected (session_ended_message "s1-cmd-A"))).
Proof. vm_compute. repeat split. Qed.

Lemma cancelled_run_emits_no_item_witness :
  let message :=
    {| um_id := None; um_sessionId := Some "s1"; um_content := "fix the bug";
       um_imagePaths := None; um_configOverrides := None |} in
  let st := run record_frame [HandleUserMessage message true]
              (new_wrapper "s1", new_env (new_queue DEFAULT_APPROVAL_TIMEOUT_MS) []) in
  let st1 := cancelCurrentRun record_frame "user_request" (fst st) (snd st) in
  let st2 := run record_frame [OnItem 0 (JStr "late"); Tick 5] st1 in
  currentRunAbortController (fst st) = Some 0 /\
  section record_frame (OnItem 0 (JStr "later")) st2 = st2.
Proof.
  intros message st st1 st2. split; [reflexivity|].
  pose proof (cancelled_run_emits_no_item record_frame
                [HandleUserMessage message true] [OnItem 0 (JStr "late"); Tick 5]
                "s1" (new_queue DEFAULT_APPROVAL_TIMEOUT_MS) [] 0 "user_request"
                (JStr "later") eq_refl) as P.
  cbv zeta in P. destruct P as (_ & _ & _ & Hdrop). exact Hdrop.
Defined.

End WrapperFacts.
(* ===================================================================== *)
(** * The agent wrapper: approvals, interrupted runs, clean-up            *)
(* ===================================================================== *)

Module WrapperMore.
Import Js Protocol Queue Wrapper QueueFacts QueueMore WrapperFacts.

(** The queue operation that one section of the wrapper performs. *)
Definition queue_ops {Sink} (ev : Event) (st : Self * Env Sink) : list Op :=
  match ev with
  | GetCommandConfirmation r _ _ uuid =>
      if aborted r (snd st) then []
      else [Register (session_id (fst st) +:+ "-cmd-" +:+ uuid)]
  | HandleApprove frame =>
      [Resolve (ap_commandId frame) (ap_decision frame) (ap_explanation frame)]
  | HandleCancel frame uuid =>
      [Reject (ca_sessionId frame +:+ "-cmd-" +:+ uuid)
         "Client requested cancel for session"]
  | Cleanup => [ClearAllForSession (Prefix (session_id (fst st)))]
  | Tick t => [Elapse t]
  | _ => []
  end.

Section Facts.
Context {Sink : Type} (onFrame : ServerFrame -> Sink -> Sink).

(** ** What the promise jobs leave alone *)

Lemma fold_emit_fields (frames : list ServerFrame) (env : Env Sink) :
  let env' := fold_left (fun e f => emit onFrame f e) frames env in
  confirmationQueue env' = confirmationQueue env /\
  awaiting env' = awaiting env /\ answers env' = answers env /\
  AgentLoopInternal env' = AgentLoopInternal env /\ calls env' = calls env.
Proof.
  revert env. induction frames as [|f fs IH]; intros env; cbn; [done|].
  destruct (IH (emit onFrame f env)) as (-> & -> & -> & -> & ->). done.
Qed.

Lemma resume_fields w s (env : Env Sink) :
  let env' := resume onFrame w s env in
  confirmationQueue env' = confirmationQueue env /\
  awaiting env' = awaiting env /\
  AgentLoopInternal env' = AgentLoopInternal env /\ calls env' = calls env.
Proof.
  unfold resume. by destruct s; cbn [confirmation_result fold_left]; wsimpl.
Qed.

Lemma run_jobs_fields (env : Env Sink) :
  let env' := run_jobs onFrame env in
  confirmationQueue env' = confirmationQueue env /\
  awaiting env'
  = filter (fun w => settled (confirmationQueue env) w = false) (awaiting env) /\
  AgentLoopInternal env' = AgentLoopInternal env /\ calls env' = calls env.
Proof.
  unfold run_jobs.
  generalize (filter (fun w => settled (confirmationQueue env) w = true) (awaiting env)).
  intros l.
  set (rest := filter _ (awaiting env)).
  set (e0 := set_awaiting rest env).
  change (confirmationQueue env) with (confirmationQueue e0) at 2.
  change rest with (awaiting e0).
  change (AgentLoopInternal env) with (AgentLoopInternal e0).
  change (calls env) with (calls e0).
  generalize (confirmationQueue env). clearbody e0. clear rest. intros q.
  revert e0. induction l as [|w l IH]; intros e0; cbn; [done|].
  destruct (outcome (w_promise w) q) as [s|]; [|apply IH].
  destruct (IH (resume onFrame w s e0)) as (-> & -> & -> & ->).
  apply resume_fields.
Qed.

Lemma filter_all {A} (P : A -> Prop) `{!forall x, base.Decision (P x)} (l : list A) :
  Forall P l -> filter P l = l.
Proof.
  induction 1 as [|x l Hx Hl IH]; [done|]. by rewrite filter_cons_True, IH.
Qed.

Lemma filter_none {A} (P : A -> Prop) `{!forall x, base.Decision (P x)} (l : list A) :
  Forall (fun x => ~ P x) l -> filter P l = [].
Proof.
  induction 1 as [|x l Hx Hl IH]; [done|]. by rewrite filter_cons_False, IH.
Qed.

(** No suspended confirmation has a settled promise: the jobs do
    nothing. *)
Lemma run_jobs_idle (env : Env Sink) :
  Forall (fun w => settled (confirmationQueue env) w = false) (awaiting env) ->
  run_jobs onFrame env = env.
Proof.
  intros Hall. unfold run_jobs. rewrite filter_none, filter_all; [|done|].
  - cbn. by destruct env.
  - eapply Forall_impl; [exact Hall|]. cbn. intros w ->. done.
Qed.

(** ** The queue under the wrapper *)

Lemma section_queue ev (st : Self * Env Sink) :
  confirmationQueue (snd (section onFrame ev st))
  = Queue.run (queue_ops ev st) (confirmationQueue (snd st)).
Proof.
  destruct st as [self env]. destruct ev; cbn [section queue_ops fst snd].
  - unfold handleUserMessage.
    destruct (negb (AgentLoopInternal env) && negb imported); [done|].
    destruct (currentRunAbortController self) eqn:E; [|done].
    unfold cancelCurrentRun. by rewrite E.
  - unfold onItem. by destruct (aborted r env).
  - unfold onLoading. by destruct (aborted r env).
  - unfold getCommandConfirmation_hook, getCommandConfirmation.
    destruct (aborted r env); [done|]. wsimpl.
    unfold Queue.run. cbn [fold_left Queue.step]. by destruct (register _ _).
  - done.
  - done.
  - unfold run_threw. cbn [snd]. by destruct (aborted r env && _).
  - done.
  - unfold handleCancel, cancelCurrentRun.
    by destruct (currentRunAbortController self).
  - unfold cleanup, cancelCurrentRun.
    by destruct (currentRunAbortController self).
  - done.
Qed.

Lemma step_queue ev (st : Self * Env Sink) :
  confirmationQueue (snd (step onFrame st ev))
  = Queue.run (queue_ops ev st) (confirmationQueue (snd st)).
Proof.
  unfold step. rewrite <- section_queue. destruct st as [self env].
  destruct (section onFrame ev (self, env)) as [self' env']. cbn [snd].
  by destruct (run_jobs_fields env') as (-> & _).
Qed.

Lemma session_id_finally r self : session_id (finally_ r self) = session_id self.
Proof.
  unfold finally_. destruct (currentRunAbortController self); [|done].
  by case_decide.
Qed.

Lemma session_id_section ev (st : Self * Env Sink) :
  session_id (fst (section onFrame ev st)) = session_id (fst st).
Proof.
  destruct st as [self env]. destruct ev; cbn [section fst]; try done.
  - unfold handleUserMessage.
    destruct (negb (AgentLoopInternal env) && negb imported); [done|].
    unfold cancelCurrentRun. by destruct (currentRunAbortController self).
  - unfold onLastResponseId. by destruct (aborted r env).
  - apply session_id_finally.
  - apply session_id_finally.
  - unfold handleCancel, cancelCurrentRun.
    by destruct (currentRunAbortController self).
  - unfold cleanup, cancelCurrentRun.
    by destruct (currentRunAbortController self).
Qed.

Lemma session_id_step ev (st : Self * Env Sink) :
  session_id (fst (step onFrame st ev)) = session_id (fst st).
Proof.
  unfold step. rewrite <- (session_id_section ev st).
  by destruct (section onFrame ev st).
Qed.

Lemma session_id_run evs (st : Self * Env Sink) :
  session_id (fst (run onFrame evs st)) = session_id (fst st).
Proof.
  unfold run. revert st. induction evs as [|ev evs IH]; intros st; cbn; [done|].
  by rewrite IH, session_id_step.
Qed.


(** ** Suspended confirmations *)

(** The queue is as its methods keep it, and every suspended
    confirmation waits for a promise that exists and is not settled. *)
Definition calm (env : Env Sink) : Prop :=
  Inv (confirmationQueue env) /\
  Forall (fun w => settled (confirmationQueue env) w = false /\
                   w_promise w < length (promises (confirmationQueue env)))
    (awaiting env).

Lemma promises_discharge c s q :
  length (promises (discharge c s q)) = length (promises q).
Proof.
  unfold discharge. destruct (map_get c (pending q)); [|done]. qsimpl.
  by rewrite length_alter.
Qed.

Lemma register_promises c q :
  fst (register c q) = length (promises q) /\
  promises (snd (register c q)) = promises q ++ [[]].
Proof. unfold register. by destruct (map_get c (pending q)). Qed.

Lemma promises_fire i q : length (promises (fire i q)) = length (promises q).
Proof.
  unfold fire. destruct (timers q !! i) as [[tm|]|]; [|done..].
  destruct (deadline tm <=? clock q)%N; [|done].
  unfold on_timeout. destruct (map_has _ _); [|done]. qsimpl.
  by rewrite length_alter.
Qed.

Lemma promises_step q op :
  length (promises q) <= length (promises (Queue.step q op)).
Proof.
  destruct op; cbn [Queue.step]; unfold clearAllForSession, elapse.
  - destruct (register_promises commandId q) as [_ ->]. rewrite length_app. lia.
  - rewrite resolve_discharge. cbn [snd]. by rewrite promises_discharge.
  - rewrite reject_discharge. cbn [snd]. by rewrite promises_discharge.
  - apply (clear_loop_preserve
             (fun q' => length (promises q) <= length (promises q'))); [|done].
    intros q' k Hle. by rewrite promises_discharge.
  - apply (fold_preserve _ (fun q' => length (promises q) <= length (promises q')));
      [|done].
    intros q' k Hle. by rewrite promises_fire.
Qed.

Lemma promises_run ops q :
  length (promises q) <= length (promises (Queue.run ops q)).
Proof.
  unfold Queue.run. revert q. induction ops as [|op ops IH]; intros q; cbn; [done|].
  etrans; [apply promises_step|apply IH].
Qed.

Lemma section_awaiting ev (st : Self * Env Sink) w :
  w ∈ awaiting (snd (section onFrame ev st)) ->
  w ∈ awaiting (snd st) \/
  w_promise w = length (promises (confirmationQueue (snd st))) /\
  exists c, queue_ops ev st = [Register c].
Proof.
  destruct st as [self env]. destruct ev; cbn [section queue_ops fst snd]; auto.
  - unfold handleUserMessage.
    destruct (negb (AgentLoopInternal env) && negb imported); [auto|].
    unfold cancelCurrentRun. destruct (currentRunAbortController self); auto.
  - unfold onItem. destruct (aborted r env); auto.
  - unfold onLoading. destruct (aborted r env); auto.
  - unfold getCommandConfirmation_hook, getCommandConfirmation.
    destruct (aborted r env); [auto|]. wsimpl.
    destruct (register_promises (session_id self +:+ "-cmd-" +:+ uuid)
                (confirmationQueue env)) as [Hp _].
    destruct (register _ _) as [p q1]. cbn [fst] in Hp. wsimpl.
    intros [Hw|Hw%list_elem_of_singleton]%elem_of_app; [auto|]. right.
    subst. eauto.
  - unfold run_threw. cbn [snd]. destruct (aborted r env && _); auto.
  - unfold handleCancel, cancelCurrentRun.
    destruct (currentRunAbortController self); auto.
  - unfold cleanup, cancelCurrentRun.
    destruct (currentRunAbortController self); auto.
Qed.

Lemma calm_step ev (st : Self * Env Sink) :
  calm (snd st) -> calm (snd (step onFrame st ev)).
Proof.
  intros [HI Hall]. unfold calm. rewrite step_queue.
  split; [by apply Inv_run|].
  unfold step. pose proof (section_queue ev st) as Hq.
  pose proof (section_awaiting ev st) as Haw.
  destruct st as [self env].
  destruct (section onFrame ev (self, env)) as [self' env']. cbn [snd] in *.
  destruct (run_jobs_fields env') as (_ & -> & _). rewrite <- Hq.
  apply Forall_forall. intros w [Hs Hw]%list_elem_of_filter. split; [done|].
  rewrite Hq. destruct (Haw w Hw) as [Hold|[-> [c ->]]].
  - rewrite Forall_forall in Hall. destruct (Hall w Hold) as [_ Hlt].
    pose proof (promises_run (queue_ops ev (self, env)) (confirmationQueue env)). lia.
  - unfold Queue.run. cbn [fold_left Queue.step].
    destruct (register_promises c (confirmationQueue env)) as [_ ->].
    rewrite length_app. cbn. lia.
Qed.

Lemma calm_run evs (st : Self * Env Sink) :
  calm (snd st) -> calm (snd (run onFrame evs st)).
Proof.
  unfold run. revert st. induction evs as [|ev evs IH]; intros st Hc; cbn; [done|].
  apply IH. by apply calm_step.
Qed.

Lemma calm_new timeout ops (s : Sink) :
  calm (new_env (Queue.run ops (new_queue timeout)) s).
Proof. split; [apply Inv_run, Inv_new|apply Forall_nil_2]. Qed.

(** ** From the prompt to the engine's answer *)

(** What [getCommandConfirmation] returns to the engine for a decision. *)
Definition confirmation_for (d : Decision) (e : option string)
  (patch : option jsval) : CommandConfirmation :=
  match d with
  | allow => {| review := approved; applyPatch := patch; customDenyMessage := e |}
  | deny => {| review := denied; applyPatch := None; customDenyMessage := e |}
  end.

Lemma settled_grown q q' l w :
  promises q' = promises q ++ l -> w_promise w < length (promises q) ->
  settled q' w = settled q w.
Proof.
  intros Hp Hlt. unfold settled, outcome, settlements.
  by rewrite Hp, lookup_app_l.
Qed.

Lemma settled_discharge c pc s q w :
  map_get c (pending q) = Some pc -> w_promise w <> resolvers pc ->
  settled (discharge c s q) w = settled q w.
Proof.
  intros Hc Hne. unfold discharge, settled, outcome, settlements. rewrite Hc. qsimpl.
  by rewrite list_lookup_alter_ne.
Qed.

Lemma confirmation_round self (env : Env Sink) r command patch uuid d e i :
  calm env -> aborted r env = false ->
  let c := session_id self +:+ "-cmd-" +:+ uuid in
  let st1 := step onFrame (self, env) (GetCommandConfirmation r command patch uuid) in
  let st2 := step onFrame st1
               (HandleApprove {| ap_id := i; ap_sessionId := session_id self;
                                 ap_commandId := c; ap_decision := d;
                                 ap_explanation := e |}) in
  (sink (snd st1) = onFrame (commandPromptToFrame c command patch) (sink env) /\
   answers (snd st1) = answers env /\
   map_has c (pending (confirmationQueue (snd st1))) = true) /\
  (sink (snd st2) = sink (snd st1) /\
   answers (snd st2)
   = answers env ++ [Confirmation c (confirmation_for d e patch)] /\
   awaiting (snd st2) = awaiting env /\
   map_has c (pending (confirmationQueue (snd st2))) = false).
Proof.
  intros [HI Hall] Hab c st1 st2.
  set (q := confirmationQueue env) in *.
  destruct (register_promises c q) as [Hp Hprom].
  pose proof (register_waiting c q HI) as Hw.
  pose proof (Inv_register c q HI) as HI1.
  set (w := {| w_promise := length (promises q); w_commandId := c;
               w_applyPatch := patch |}).
  set (env1 := set_awaiting (awaiting env ++ [w])
                 (set_queue (snd (register c q))
                    (emit onFrame (commandPromptToFrame c command patch) env))).
  assert (Hst1 : st1 = (self, env1)).
  { unfold st1, step. cbn [section].
    unfold getCommandConfirmation_hook, getCommandConfirmation. rewrite Hab. wsimpl.
    fold c q. destruct (register c q) as [p q1] eqn:Hreg. cbn [fst snd] in *.
    subst p. fold w. f_equal. apply run_jobs_idle. unfold env1. wsimpl.
    apply Forall_app. split.
    - eapply Forall_impl; [exact Hall|]. cbn. intros w' [Hs Hlt].
      by rewrite (settled_grown q q1 [[]]).
    - apply Forall_singleton. destruct Hw as (_ & _ & Hs).
      unfold settled, outcome. unfold w; cbn [w_promise]. by rewrite Hs. }
  destruct (register c q) as [p q1] eqn:Hreg. cbn [fst snd] in *. subst p.
  destruct Hw as (Hc & Ht & Hs).
  set (s := Resolved {| decision := d; explanation := e |}).
  set (q2 := discharge c s q1).
  assert (Hold : Forall (fun w' => settled q2 w' = false) (awaiting env)).
  { eapply Forall_impl; [exact Hall|]. cbn. intros w' [Hs' Hlt].
    unfold q2. rewrite (settled_discharge c _ s q1 w' Hc) by (cbn; lia).
    by rewrite (settled_grown q q1 [[]]). }
  assert (Hout : outcome (length (promises q)) q2 = Some s).
  { unfold q2, discharge, outcome, settlements. rewrite Hc. qsimpl.
    rewrite list_lookup_alter_eq, Hprom, lookup_app_r by lia.
    by rewrite Nat.sub_diag. }
  assert (Hgone : map_get c (pending q2) = None).
  { unfold q2, discharge. rewrite Hc. qsimpl. rewrite map_get_delete.
    by rewrite decide_True. }
  assert (Hst2 : st2 = (self, answer (Confirmation c (confirmation_for d e patch))
                                (set_awaiting (awaiting env) (set_queue q2 env1)))).
  { unfold st2. rewrite Hst1. unfold step. cbn [section]. f_equal.
    unfold handleApprove. cbn [ap_commandId ap_decision ap_explanation].
    change (confirmationQueue env1) with q1.
    rewrite resolve_discharge. cbn [snd]. fold s q2.
    unfold run_jobs. wsimpl. change (awaiting env1) with (awaiting env ++ [w]).
    rewrite !filter_app.
    rewrite (filter_none (fun w' => settled q2 w' = true) (awaiting env)).
    2:{ eapply Forall_impl; [exact Hold|]. cbn. intros w' ->. done. }
    rewrite (filter_all (fun w' => settled q2 w' = false) (awaiting env)) by done.
    assert (Hsw : settled q2 w = true).
    { unfold settled, w. cbn [w_promise]. by rewrite Hout. }
    rewrite (filter_cons_True (fun w' => settled q2 w' = true)) by done.
    rewrite (filter_cons_False (fun w' => settled q2 w' = false))
      by (rewrite Hsw; done).
    rewrite !filter_nil, app_nil_r. unfold w at 1.
    cbn [app fold_left w_promise]. rewrite Hout.
    unfold resume, s, w. cbn [confirmation_result decision explanation
                              w_applyPatch w_commandId fold_left].
    by destruct d. }
  rewrite Hst1, Hst2. cbn [snd]. unfold env1. wsimpl.
  unfold map_has. by rewrite Hc, Hgone.
Qed.

(** A section that leaves the queue alone is followed by no job. *)
Lemma step_idle ev (st : Self * Env Sink) :
  calm (snd st) -> queue_ops ev st = [] ->
  step onFrame st ev = section onFrame ev st.
Proof.
  intros [HI Hall] Hops. unfold step.
  pose proof (section_queue ev st) as Hq. pose proof (section_awaiting ev st) as Haw.
  rewrite Hops in Hq, Haw. cbn in Hq.
  destruct (section onFrame ev st) as [self' env']. cbn [snd] in *. f_equal.
  apply run_jobs_idle. rewrite Hq. apply Forall_forall. intros w Hw.
  destruct (Haw w Hw) as [Hold|[_ [c [=]]]].
  rewrite Forall_forall in Hall. by destruct (Hall w Hold).
Qed.

(** ** The engine module is loaded while a run is in flight *)

Definition loaded_ok (st : Self * Env Sink) : Prop :=
  currentRunAbortController (fst st) <> None -> AgentLoopInternal (snd st) = true.

Lemma controller_finally r self :
  currentRunAbortController (finally_ r self) <> None ->
  currentRunAbortController self <> None.
Proof.
  unfold finally_. destruct (currentRunAbortController self) eqn:E; [done|].
  by rewrite E.
Qed.

Lemma loaded_section ev (st : Self * Env Sink) :
  loaded_ok st -> loaded_ok (section onFrame ev st).
Proof.
  destruct st as [self env]. unfold loaded_ok. cbn [fst snd]. intros Hok.
  destruct ev; cbn [section fst snd]; try done.
  - unfold handleUserMessage.
    destruct (negb (AgentLoopInternal env) && negb imported); [wsimpl; exact Hok|].
    unfold cancelCurrentRun. destruct (currentRunAbortController self) eqn:E; wsimpl;
      first [done | exact Hok | by rewrite E].
  - unfold onItem. destruct (aborted r env); wsimpl; exact Hok.
  - unfold onLoading. destruct (aborted r env); wsimpl; exact Hok.
  - unfold getCommandConfirmation_hook, getCommandConfirmation.
    destruct (aborted r env); wsimpl; [exact Hok|].
    destruct (register _ _). wsimpl. exact Hok.
  - unfold onLastResponseId. destruct (aborted r env); wsimpl; exact Hok.
  - intros H%controller_finally. by apply Hok.
  - intros H%controller_finally. unfold run_threw. cbn [snd].
    destruct (aborted r env && _); by apply Hok.
  - unfold handleCancel, cancelCurrentRun.
    destruct (currentRunAbortController self) eqn:E; wsimpl;
      first [done | exact Hok | by rewrite E].
  - unfold cleanup, cancelCurrentRun.
    destruct (currentRunAbortController self) eqn:E; wsimpl;
      first [done | exact Hok | by rewrite E].
Qed.

Lemma loaded_step ev (st : Self * Env Sink) :
  loaded_ok st -> loaded_ok (step onFrame st ev).
Proof.
  intros Hok%(loaded_section ev). unfold step.
  destruct (section onFrame ev st) as [self' env']. unfold loaded_ok in *.
  cbn [fst snd] in *. by destruct (run_jobs_fields env') as (_ & _ & -> & _).
Qed.

Lemma loaded_run evs (st : Self * Env Sink) :
  loaded_ok st -> loaded_ok (run onFrame evs st).
Proof.
  unfold run. revert st. induction evs as [|ev evs IH]; intros st Hok; cbn; [done|].
  apply IH. by apply loaded_step.
Qed.

(** X5.  From the prompt to the engine's answer.  When the engine asks
    for a confirmation in a run that is not aborted, the wrapper emits
    the [command_prompt] frame with the id made of the session id and a
    new random identifier and registers that id; when the [approve]
    frame for that id is handled next, the suspended call goes on and
    answers the engine: with [allow], an approved review with the patch;
    with [deny], a denied review without patch; in both cases the
    explanation as the deny message.  No error frame is emitted, and the
    id is no longer pending. *)
Theorem approval_reaches_engine (evs : list Event) (sessionId : string)
  (timeout : N) (ops0 : list Op) (s0 : Sink) (r : nat) (command : list string)
  (patch : option jsval) (uuid : string) (d : Decision) (e i : option string) :
  let st := run onFrame evs (new_wrapper sessionId, new_env (Queue.run ops0 (new_queue timeout)) s0) in
  aborted r (snd st) = false ->
  let c := sessionId +:+ "-cmd-" +:+ uuid in
  let st1 := step onFrame st (GetCommandConfirmation r command patch uuid) in
  let st2 := step onFrame st1
               (HandleApprove {| ap_id := i; ap_sessionId := sessionId;
                                 ap_commandId := c; ap_decision := d;
                                 ap_explanation := e |}) in
  (sink (snd st1) = onFrame (commandPromptToFrame c command patch) (sink (snd st)) /\
   answers (snd st1) = answers (snd st) /\
   map_has c (pending (confirmationQueue (snd st1))) = true) /\
  (sink (snd st2) = sink (snd st1) /\
   answers (snd st2)
   = answers (snd st) ++ [Confirmation c (confirmation_for d e patch)] /\
   awaiting (snd st2) = awaiting (snd st) /\
   map_has c (pending (confirmationQueue (snd st2))) = false).
Proof.
  intros st Hab.
  pose proof (session_id_run evs
                (new_wrapper sessionId,
                 new_env (Queue.run ops0 (new_queue timeout)) s0)) as Hsid.
  pose proof (calm_run evs (new_wrapper sessionId, new_env (Queue.run ops0 (new_queue timeout)) s0)
                (calm_new timeout ops0 s0)) as Hcalm.
  fold st in Hsid, Hcalm. cbn [fst new_wrapper session_id] in Hsid.
  destruct st as [self env]. cbn [fst snd] in *. subst sessionId.
  by apply confirmation_round.
Qed.

(** X6.  The hooks of an aborted run do nothing.  Once the abort signal
    of a run is set it stays set, and from then on [onLoading] emits no
    frame, [onLastResponseId] leaves the last response id as it is, and
    [getCommandConfirmation] emits no prompt and registers nothing: it
    answers the engine that the run is cancelled. *)
Theorem aborted_run_hooks_are_inert (before later : list Event)
  (sessionId : string) (q : ConfirmationQueue) (s0 : Sink) (r : nat)
  (loading : bool) (id : string) (command : list string)
  (patch : option jsval) (uuid : string) :
  let st := run onFrame before (new_wrapper sessionId, new_env q s0) in
  aborted r (snd st) = true ->
  let st2 := run onFrame later st in
  aborted r (snd st2) = true /\
  section onFrame (OnLoading r loading) st2 = st2 /\
  section onFrame (OnLastResponseId r id) st2 = st2 /\
  section onFrame (GetCommandConfirmation r command patch uuid) st2
  = (fst st2, answer RunCancelled (snd st2)).
Proof.
  intros st Hab st2.
  destruct (run_grows onFrame before (new_wrapper sessionId, new_env q s0)
              (controller_ok_new _ _ _)) as [_ Hok].
  destruct (run_grows onFrame later st Hok) as [[_ Hg] _]. fold st2 in Hg.
  assert (Hab2 : aborted r (snd st2) = true).
  { unfold aborted in *. destruct (controllers (snd st) !! r) as [[]|] eqn:Hr;
      try done. by rewrite (Hg _ Hr). }
  split; [done|]. destruct st2 as [self2 env2]. cbn [section fst snd] in *.
  unfold onLoading, onLastResponseId, getCommandConfirmation_hook.
  by rewrite Hab2.
Qed.

(** X7.  A new message interrupts the run in flight.  [handleUserMessage]
    then aborts the signal of the old run, emits the status frame of the
    cancellation and the one of the new run, and starts the new run
    under a new controller whose signal is not aborted.  When the old
    run returns afterwards, the wrapper reports it as cancelled and
    leaves the controller of the new run in place. *)
Theorem new_message_interrupts_run (evs : list Event) (sessionId : string)
  (timeout : N) (s0 : Sink) (r : nat) (frame : UserMessageFrame)
  (imported : bool) :
  let st := run onFrame evs (new_wrapper sessionId, new_env (new_queue timeout) s0) in
  currentRunAbortController (fst st) = Some r ->
  let r' := length (controllers (snd st)) in
  let st1 := step onFrame st (HandleUserMessage frame imported) in
  let st2 := step onFrame st1 (RunReturned r) in
  (currentRunAbortController (fst st1) = Some r' /\ r <> r' /\
   aborted r (snd st1) = true /\ aborted r' (snd st1) = false /\
   sink (snd st1)
   = onFrame (status_frame "Agent processing... ")
       (onFrame (status_frame "Agent run cancelled: new_message_interrupt")
          (sink (snd st))) /\
   calls (snd st1)
   = calls (snd st) ++
     [{| call_run := r';
         call_inputItems := userMessageFrameToResponseInputItems frame;
         call_previousResponseId := lastResponseId (fst st) |}]) /\
  (currentRunAbortController (fst st2) = Some r' /\
   sink (snd st2)
   = onFrame (status_frame "Agent run cancelled by client.") (sink (snd st1))).
Proof.
  intros st Hr r' st1 st2.
  set (init := (new_wrapper sessionId, new_env (new_queue timeout) s0)) in *.
  pose proof (calm_run evs init (calm_new timeout [] s0)) as Hcalm.
  destruct (run_grows onFrame evs init (controller_ok_new _ _ _)) as [_ Hok].
  assert (Hl : loaded_ok st).
  { apply loaded_run. unfold loaded_ok, init. by cbn. }
  fold st in Hcalm, Hok.
  pose proof (Hok r Hr) as Hlt. specialize (Hl ltac:(by rewrite Hr)).
  assert (Hst1 : st1 = section onFrame (HandleUserMessage frame imported) st).
  { by apply step_idle. }
  assert (Hcalm1 : calm (snd st1)) by (by apply calm_step).
  assert (Hst2 : st2 = section onFrame (RunReturned r) st1).
  { by apply step_idle. }
  rewrite Hst2. clear Hst2. clearbody st2. rewrite Hst1. clear Hst1 Hcalm1.
  subst r'. destruct st as [self env]. cbn [fst snd] in *.
  cbn [section]. unfold handleUserMessage, cancelCurrentRun.
  rewrite Hl, Hr. cbn [negb andb]. wsimpl. cbn [section].
  unfold run_returned, finally_, aborted. wsimpl.
  rewrite !length_insert, decide_False by lia.
  rewrite !lookup_app_l by (rewrite length_insert; lia).
  rewrite list_lookup_insert_eq by done.
  rewrite lookup_app_r by (rewrite length_insert; lia).
  rewrite length_insert, Nat.sub_diag. cbn.
  repeat split; try done. lia.
Qed.

(** ** Clean-up *)

Lemma resume_answers w s (env : Env Sink) :
  answers (resume onFrame w s env)
  = answers env ++ [Confirmation (w_commandId w) (snd (confirmation_result w s))].
Proof. unfold resume. by destruct s; cbn [confirmation_result fold_left snd]; wsimpl. Qed.

Lemma jobs_answers_keep q (l : list Waiting) (e0 : Env Sink) a :
  a ∈ answers e0 ->
  a ∈ answers (fold_left
                 (fun e w => match outcome (w_promise w) q with
                             | Some s => resume onFrame w s e
                             | None => e
                             end) l e0).
Proof.
  revert e0. induction l as [|w l IH]; intros e0 Ha; cbn; [done|].
  apply IH. destruct (outcome (w_promise w) q); [|done].
  rewrite resume_answers. apply elem_of_app. by left.
Qed.

(** A suspended confirmation whose promise is settled is answered by the
    jobs. *)
Lemma run_jobs_answers (env : Env Sink) w s :
  w ∈ awaiting env -> outcome (w_promise w) (confirmationQueue env) = Some s ->
  Confirmation (w_commandId w) (snd (confirmation_result w s))
    ∈ answers (run_jobs onFrame env) /\
  w ∉ awaiting (run_jobs onFrame env).
Proof.
  intros Hw Hs. split.
  - unfold run_jobs.
    assert (Hin : w ∈ filter (fun w => settled (confirmationQueue env) w = true)
                        (awaiting env)).
    { apply list_elem_of_filter. split; [|done]. unfold settled. by rewrite Hs. }
    revert Hin.
    generalize (filter (fun w => settled (confirmationQueue env) w = true)
                  (awaiting env)).
    generalize (set_awaiting
                  (filter (fun w => settled (confirmationQueue env) w = false)
                     (awaiting env)) env).
    intros e0 l. revert e0. induction l as [|w0 l IH]; intros e0.
    { by intros ?%elem_of_nil. }
    intros [->|Hl]%elem_of_cons; cbn.
    + rewrite Hs. apply jobs_answers_keep. rewrite resume_answers.
      apply elem_of_app. right. apply list_elem_of_singleton. done.
    + by apply IH.
  - destruct (run_jobs_fields env) as (_ & -> & _).
    intros [Hf _]%list_elem_of_filter. unfold settled in Hf. by rewrite Hs in Hf.
Qed.

(** X8.  [cleanup] ends what the session has under way, on a queue that
    other sessions may have used before.  No run is in
    flight afterwards, and the signal of the run that was is aborted.
    Every pending command whose id starts with the session id is out of
    the queue (those of any other session whose id starts with it
    included), the others stay; and a confirmation call that was
    suspended on such a command goes on: it answers the engine with a
    denied review that names the end of the session, and waits no
    longer. *)
Theorem cleanup_ends_session (evs : list Event) (sessionId : string)
  (timeout : N) (ops0 : list Op) (s0 : Sink) :
  let st := run onFrame evs (new_wrapper sessionId, new_env (Queue.run ops0 (new_queue timeout)) s0) in
  let st' := step onFrame st Cleanup in
  let q := confirmationQueue (snd st) in
  let q' := confirmationQueue (snd st') in
  currentRunAbortController (fst st') = None /\
  (forall r, currentRunAbortController (fst st) = Some r ->
             aborted r (snd st') = true) /\
  (forall k, startsWith k sessionId = true -> map_get k (pending q') = None) /\
  (forall k, startsWith k sessionId = false ->
             map_get k (pending q') = map_get k (pending q)) /\
  (forall w pc, w ∈ awaiting (snd st) ->
     map_get (w_commandId w) (pending q) = Some pc ->
     resolvers pc = w_promise w ->
     startsWith (w_commandId w) sessionId = true ->
     Confirmation (w_commandId w)
       {| review := denied; applyPatch := None;
          customDenyMessage :=
            Some ("Approval timed out or was cancelled: "
                  +:+ session_ended_message (w_commandId w)) |}
       ∈ answers (snd st') /\
     w ∉ awaiting (snd st')).
Proof.
  intros st st' q q'.
  set (init := (new_wrapper sessionId, new_env (Queue.run ops0 (new_queue timeout)) s0)) in *.
  pose proof (session_id_run evs init) as Hsid.
  destruct (calm_run evs init (calm_new timeout ops0 s0)) as [HI _].
  destruct (run_grows onFrame evs init (controller_ok_new _ _ _)) as [_ Hok].
  fold st in Hsid, HI, Hok. fold q in HI. cbn [fst init new_wrapper session_id] in Hsid.
  assert (Hq' : q' = clearAllForSession (Prefix sessionId) q).
  { unfold q', st'. rewrite step_queue. cbn [queue_ops]. by rewrite Hsid. }
  assert (Hentry := fun k HI =>
            clearAllForSession_entry (Prefix sessionId) q k HI eq_refl).
  cbv zeta in Hentry. rewrite <- Hq' in Hentry.
  unfold matching in Hentry. cbn [matches fst] in Hentry.
  set (self1 := fst (cancelCurrentRun onFrame "session_cleanup" (fst st) (snd st))).
  set (env1 := snd (cancelCurrentRun onFrame "session_cleanup" (fst st) (snd st))).
  set (env2 := set_queue (clearAllForSession (Prefix (session_id self1))
                            (confirmationQueue env1)) env1).
  assert (Hst' : st' = (self1, run_jobs onFrame env2)).
  { unfold st', step, env2, env1, self1. destruct st as [self env].
    cbn [section fst snd]. unfold cleanup.
    by destruct (cancelCurrentRun onFrame "session_cleanup" self env). }
  assert (Haw : awaiting env2 = awaiting (snd st)).
  { unfold env2, env1, cancelCurrentRun.
    by destruct (currentRunAbortController (fst st)). }
  assert (Hq2 : confirmationQueue env2 = q').
  { rewrite Hq'. unfold env2, env1, self1, cancelCurrentRun, q.
    by destruct (currentRunAbortController (fst st)); wsimpl; rewrite ?Hsid. }
  split; [|split; [|split; [|split]]].
  - rewrite Hst'. unfold self1, cancelCurrentRun.
    by destruct (currentRunAbortController (fst st)) eqn:E.
  - intros r Hr. rewrite Hst'. cbn [snd]. unfold aborted.
    rewrite controllers_run_jobs. unfold env2, env1, cancelCurrentRun.
    rewrite Hr. wsimpl. rewrite list_lookup_insert_eq; [done|]. by apply Hok.
  - intros k Hk. specialize (Hentry k HI). rewrite Hk in Hentry.
    destruct (map_get k (pending q)); [by destruct Hentry|done].
  - intros k Hk. specialize (Hentry k HI). rewrite Hk in Hentry.
    destruct (map_get k (pending q)) as [pc|]; [by destruct Hentry|done].
  - intros w pc Hw Hc Hp Hm. specialize (Hentry (w_commandId w) HI).
    rewrite Hc, Hm in Hentry. destruct Hentry as (_ & Hs & _).
    rewrite Hst'. cbn [snd].
    destruct (run_jobs_answers env2 w
                (Rejected (session_ended_message (w_commandId w))))
      as [Hans Hgone]; [by rewrite Haw| |done].
    rewrite Hq2. unfold outcome. by rewrite <- Hp, Hs.
Qed.

(** ** The confirmation that nobody answers *)





End Facts.

(** ** Closed examples *)

Definition sample_message : UserMessageFrame :=
  {| um_id := None; um_sessionId := Some "s1"; um_content := "fix the bug";
     um_imagePaths := None; um_configOverrides := None |}.

Lemma approval_reaches_engine_witness :
  let st := run record_frame [HandleUserMessage sample_message true]
              (new_wrapper "s1", new_env (Queue.run [] (new_queue 1000)) []) in
  let st1 := step record_frame st (GetCommandConfirmation 0 ["rm"; "-rf"] None "A") in
  let st2 := step record_frame st1
               (HandleApprove {| ap_id := None; ap_sessionId := "s1";
                                 ap_commandId := "s1-cmd-A"; ap_decision := deny;
                                 ap_explanation := Some "too risky" |}) in
  aborted 0 (snd st) = false /\
  answers (snd st2)
  = answers (snd st) ++
    [Confirmation "s1-cmd-A" (confirmation_for deny (Some "too risky") None)].
Proof.
  intros st st1 st2. split; [reflexivity|].
  pose proof (approval_reaches_engine record_frame
                [HandleUserMessage sample_message true] "s1" 1000 [] [] 0
                ["rm"; "-rf"] None "A" deny (Some "too risky") None eq_refl) as P.
  cbv zeta in P. destruct P as (_ & _ & Hans & _). exact Hans.
Defined.


Lemma aborted_run_hooks_are_inert_witness :
  let st := run record_frame
              [HandleUserMessage sample_message true;
               HandleCancel {| ca_id := None; ca_sessionId := "s1" |} "u"]
              (new_wrapper "s1", new_env (new_queue 1000) []) in
  let st2 := run record_frame [Tick 5] st in
  aborted 0 (snd st) = true /\
  section record_frame (GetCommandConfirmation 0 ["ls"] None "A") st2
  = (fst st2, answer RunCancelled (snd st2)).
Proof.
  intros st st2. split; [reflexivity|].
  pose proof (aborted_run_hooks_are_inert record_frame
                [HandleUserMessage sample_message true;
                 HandleCancel {| ca_id := None; ca_sessionId := "s1" |} "u"]
                [Tick 5] "s1" (new_queue 1000) [] 0 true "resp_1" ["ls"] None "A"
                eq_refl) as P.
  cbv zeta in P. destruct P as (_ & _ & _ & Hhook). exact Hhook.
Defined.

Lemma new_message_interrupts_run_witness :
  let st := run record_frame [HandleUserMessage sample_message true]
              (new_wrapper "s1", new_env (new_queue 1000) []) in
  let st1 := step record_frame st (HandleUserMessage sample_message true) in
  let st2 := step record_frame st1 (RunReturned 0) in
  currentRunAbortController (fst st) = Some 0 /\
  aborted 0 (snd st1) = true /\
  currentRunAbortController (fst st2) = Some 1.
Proof.
  intros st st1 st2. split; [reflexivity|].
  pose proof (new_message_interrupts_run record_frame
                [HandleUserMessage sample_message true] "s1" 1000 [] 0
                sample_message true eq_refl) as P.
  cbv zeta in P. destruct P as ((_ & _ & Hab & _) & Hcur & _).
  split; [exact Hab|exact Hcur].
Defined.

Lemma cleanup_ends_session_witness :
  let st := run record_frame
              [HandleUserMessage sample_message true;
               GetCommandConfirmation 0 ["ls"] None "A"]
              (new_wrapper "s1",
               new_env (Queue.run [Register "s10-cmd-Z"] (new_queue 1000)) []) in
  let st' := step record_frame st Cleanup in
  startsWith "s10-cmd-Z" "s1" = true /\
  map_get "s10-cmd-Z" (pending (confirmationQueue (snd st)))
  = Some {| resolvers := 0; timer := 0 |} /\
  map_get "s10-cmd-Z" (pending (confirmationQueue (snd st'))) = None.
Proof.
  intros st st'. split; [reflexivity|]. split; [reflexivity|].
  pose proof (cleanup_ends_session record_frame
                [HandleUserMessage sample_message true;
                 GetCommandConfirmation 0 ["ls"] None "A"]
                "s1" 1000 [Register "s10-cmd-Z"] []) as P.
  cbv zeta in P. destruct P as (_ & _ & Hgone & _).
  apply Hgone. reflexivity.
Defined.

End WrapperMore.
(* ===================================================================== *)
(** * Properties of the stream handler                                    *)
(* ===================================================================== *)

Module HandlerFacts.
Import Js Protocol Transport Queue Wrapper Handler.
Import TransportMore.

Definition is_terminate (c : Chunk) : bool :=
  match c with
  | Framed (terminate _) _ => true
  | _ => false
  end.

(** The number of terminate frames among what was written. *)
Definition terminate_count (w : list Chunk) : nat :=
  length (filter (fun c => is_terminate c = true) w).

(** What the specification asks of a finished stream: exactly one
    terminate frame was written, and nothing after it. *)
Definition terminal_guarantee (w : list Chunk) : Prop :=
  exists before t octets,
    w = before ++ [Framed (terminate t) octets] /\ terminate_count before = 0.

(** The error of a call of [res.getHeader] when [res] is the session. *)
Definition no_getHeader : Thrown := TypeError "res.getHeader is not a function".

(** The error of reading [req.headers["content-type"]] when [req] is the
    session. *)
Definition no_headers : Thrown :=
  TypeError "Cannot read properties of undefined (reading 'content-type')".

(** A request that has its headers, with the content type of the
    newline-delimited framing. *)
Definition ndjson_request : Request :=
  {| headers := Some (fun name =>
                        if String.eqb name "content-type"
                        then Some NDJSON_CONTENT_TYPE else None) |}.

Section Facts.
Context `{Externals}.

(** ** The session in the place of the request and of the response *)

Lemma session_read_throws chunks :
  readFrames_req session_as_request chunks = inl no_headers.
Proof. done. Qed.

Lemma session_write_throws f s :
  gone s = false -> writeFrame_res session_as_response f s = inl no_getHeader.
Proof. unfold gone, writeFrame_res. by intros ->. Qed.

Lemma session_write_gone f s :
  gone s = true -> writeFrame_res session_as_response f s = inr (false, s).
Proof. unfold gone, writeFrame_res. by intros ->. Qed.

(** The call of [handleAgentStream] on the path of the agent. *)
Lemma handleAgentStream_fails contentType closesOnEnd chunks :
  let st := handleAgentStream "/agent/stream" "POST" contentType closesOnEnd chunks in
  completion st = Failed no_getHeader /\
  stream st = stream_end None (open_stream closesOnEnd) /\
  heartbeatInterval st = true.
Proof.
  unfold handleAgentStream. cbn [String.eqb Ascii.eqb Bool.eqb negb orb].
  rewrite session_read_throws. unfold catch_block.
  rewrite session_write_throws by done.
  change (gone (open_stream closesOnEnd)) with false. cbv iota.
  unfold finally_block.
  destruct closesOnEnd.
  - change (gone (stream_end None (open_stream true))) with true. by cbv iota.
  - change (gone (stream_end None (open_stream false))) with false. cbv iota.
    by rewrite session_write_throws.
Qed.

(** No event after the call writes on the stream. *)
Lemma step_writes_nothing st ev st' :
  step st ev = inr st' -> written (stream st') = written (stream st).
Proof.
  destruct ev as [isoNow|]; cbn [step]; [|by intros [= <-]].
  destruct (heartbeatInterval st); [|by intros [= <-]].
  unfold heartbeat_res. fold (gone (stream st)).
  destruct (gone (stream st)) eqn:Hg; [by intros [= <-]|].
  by rewrite session_write_throws.
Qed.

Lemma run_writes_nothing evs st st' :
  run evs st = inr st' -> written (stream st') = written (stream st).
Proof.
  revert st. induction evs as [|ev evs IH]; intros st; cbn [run].
  { by intros [= <-]. }
  destruct (step st ev) as [e|st1] eqn:Hstep; [done|].
  intros Hrun. rewrite (IH _ Hrun). by eapply step_writes_nothing.
Qed.

(** C1, on the code.  [handleAgentStream] hands [stream.session] to
    [readFrames] and to [writeFrame].  Whatever the client sends on a
    stream of the agent's path, and whether or not the run-time marks the
    stream closed as soon as it is ended: reading the frames throws
    before the first frame, so that the loop is not entered; the [catch]
    block ends the stream; the [finally] block finds the stream open and
    calls [writeFrame] with the terminate frame, which throws at
    [res.getHeader], or finds it closed and writes nothing.  The call
    fails, no terminate frame is on the stream, nor any other frame, and
    none comes later. *)
Theorem terminate_frame_is_never_written (contentType : string)
  (closesOnEnd : bool) (chunks : list Buffer) (evs : list Event) :
  let st := handleAgentStream "/agent/stream" "POST" contentType closesOnEnd chunks in
  readFrames_req session_as_request chunks = inl no_headers /\
  (forall frames e, completion st <> Iterating frames e) /\
  completion st = Failed no_getHeader /\
  (closesOnEnd = false ->
   writeFrame_res session_as_response terminate_frame (stream st)
   = inl no_getHeader) /\
  writableEnded (stream st) = true /\
  written (stream st) = [] /\
  terminate_count (written (stream st)) = 0 /\
  ~ terminal_guarantee (written (stream st)) /\
  (forall st', run evs st = inr st' -> written (stream st') = []).
Proof.
  intros st.
  destruct (handleAgentStream_fails contentType closesOnEnd chunks)
    as (Hc & Hs & Hh).
  fold st in Hc, Hs, Hh. rewrite Hc, Hs.
  split; [done|]. split; [done|]. split; [done|]. split.
  { intros ->. by apply session_write_throws. }
  split; [done|]. split; [done|]. split; [done|]. split.
  { intros (before & t & octets & Heq & _). cbn in Heq.
    by destruct before. }
  intros st' Hrun. rewrite (run_writes_nothing evs st st' Hrun). by rewrite Hs.
Qed.

End Facts.

(** ** Closed examples *)

Definition first_message : ClientFrame :=
  user_message {| um_id := None; um_sessionId := Some "s1"; um_content := "fix bug";
                  um_imagePaths := None; um_configOverrides := None |}.

(** The [approve] frame of another session. *)
Definition foreign_approve : ClientFrame :=
  approve {| ap_id := None; ap_sessionId := "s2"; ap_commandId := "s1-cmd-A";
             ap_decision := allow; ap_explanation := None |}.

(** What the client sends: the two frames, each on its line. *)
Definition mismatch_octets : list Buffer :=
  [default [] (client_octets (H := sample_externals) false first_message);
   default [] (client_octets (H := sample_externals) false foreign_approve)].

(** C7, on the code.  The client sends a [user_message] frame for
    session [s1] and then an [approve] frame that names session [s2].
    [readFrames] with a request that has its headers yields the two
    frames.  [handleAgentStream] hands it [stream.session]: the read
    throws before the first frame, the call fails, and the stream is
    ended with nothing written on it: no error frame answers the
    [approve] frame, and no loop is there to go on. *)
Example mismatched_frame_is_never_read :
  let st := handleAgentStream (H := sample_externals) "/agent/stream" "POST"
              NDJSON_CONTENT_TYPE false mismatch_octets in
  readFrames_req (H := sample_externals) ndjson_request mismatch_octets
  = inr ([first_message; foreign_approve], EndOfInput) /\
  readFrames_req (H := sample_externals) session_as_request mismatch_octets
  = inl no_headers /\
  completion st = Failed no_getHeader /\
  written (stream st) = [] /\
  writableEnded (stream st) = true.
Proof.
  intros st. split.
  { vm_compute. reflexivity. }
  split; [done|].
  destruct (handleAgentStream_fails (H := sample_externals) NDJSON_CONTENT_TYPE
              false mismatch_octets) as (Hc & Hs & _).
  fold st in Hc, Hs. by rewrite Hc, Hs.
Qed.

End HandlerFacts.
(* ===================================================================== *)
(** * The stream handler and the transport: what else the code shows      *)
(* ===================================================================== *)

Module HandlerMore.
Import Js Protocol Transport Queue Wrapper Handler HandlerFacts.

Section Facts.
Context `{Externals}.

Lemma item_id_refused (i : ItemFrame) (id : string) :
  it_id i = Some id -> is_uuid id = false ->
  exists e, encodeServerFrame (item i) = inl e.
Proof.
  intros Hid Hu. destruct i as [iid r]. cbn in Hid. subst iid.
  unfold encodeServerFrame, schema_parse, ServerFrameSchema.
  destruct r as [r|]; cbn;
    unfold lift, ItemFrameSchema, CommandPromptFrameSchema, StatusFrameSchema,
      ErrorFrameSchema, HeartbeatFrameSchema, TerminateFrameSchema,
      z_object, at_key, z_optional, z_uuid, issue;
    cbn; rewrite Hu; cbn; eauto.
Qed.

(** X19.  [responseItemToItemFrame] gives the frame of an item the id
    [<sessionId>-<milliseconds>].  Unless that is a UUID the frame does
    not pass [ServerFrameSchema], whose [id] is a UUID: [writeFrame],
    with a response that has its headers and under either framing,
    catches the error of [encodeServerFrame], returns false and writes
    nothing. *)
Theorem item_frame_is_dropped (res : Response) (header : string -> option string)
  (responseItem : jsval) (sessionId : string) (now : N) (s : Stream) :
  getHeader res = Some header -> truthy_string sessionId = true ->
  is_uuid (sessionId +:+ "-" +:+ show_N now) = false ->
  (exists e, encodeServerFrame (responseItemToItemFrame responseItem sessionId now)
             = inl e) /\
  writeFrame_res res (responseItemToItemFrame responseItem sessionId now) s
  = inr (false, s).
Proof.
  intros Hres Ht Hu.
  assert (Henc : exists e,
            encodeServerFrame (responseItemToItemFrame responseItem sessionId now)
            = inl e).
  { unfold responseItemToItemFrame. rewrite Ht.
    by apply (item_id_refused _ (sessionId +:+ "-" +:+ show_N now)). }
  split; [done|]. destruct Henc as [e He].
  unfold writeFrame_res, writeFrame, wire. rewrite Hres, He.
  by destruct (destroyed s || closed s).
Qed.





End Facts.

(** ** Closed examples *)

Definition ndjson_response : Response :=
  {| getHeader := Some (fun name =>
                          if String.eqb name "content-type"
                          then Some NDJSON_CONTENT_TYPE else None) |}.

Lemma item_frame_is_dropped_witness :
  writeFrame_res (H := sample_externals) ndjson_response
    (responseItemToItemFrame (JStr "hello") "s1" 1700000000000)
    (open_stream false)
  = inr (false, open_stream false).
Proof.
  apply (@item_frame_is_dropped sample_externals ndjson_response
           (fun name => if String.eqb name "content-type"
                        then Some NDJSON_CONTENT_TYPE else None)
           (JStr "hello") "s1" 1700000000000 (open_stream false));
    vm_compute; reflexivity.
Defined.

End HandlerMore.
